(** * Hotspot cost aggregation core: [src/models/data.cpp]

    A shallow embedding of the builders of [data.cpp] (top-down tree,
    per-library table, caller/callee table) and of the symbol prettifier,
    with the properties the specification states about them. *)

From Stdlib Require Import ZArith List Lia String Ascii.
From stdpp Require Import base option list gmap strings.

Local Open Scope Z_scope.
Set Warnings "-register-all,-clear-no-such-hyp".

(** ** qint64 arithmetic

    Cost values are [qint64].  They are modelled as [Z] restricted to the
    signed 64-bit range; every arithmetic result is wrapped back into it. *)

Definition int64_min : Z := - 2 ^ 63.
Definition int64_max : Z := 2 ^ 63 - 1.

Definition in_int64 (z : Z) : Prop := int64_min <= z <= int64_max.

Definition wrap64 (z : Z) : Z := (z + 2 ^ 63) mod 2 ^ 64 - 2 ^ 63.

Definition add64 (a b : Z) : Z := wrap64 (a + b).
Definition sub64 (a b : Z) : Z := wrap64 (a - b).

(** ** ItemCost: [std::valarray<qint64>], one value per cost category *)

Definition ItemCost := list Z.

(** [ItemCost::resize(n, 0)] on a fresh value. *)
Definition zeroCost (n : nat) : ItemCost := replicate n 0.

(** [operator+=] / [operator+] and [operator-], elementwise.  The operands
    have the same size in every call of the builders. *)
Definition itemAdd (a b : ItemCost) : ItemCost := zip_with add64 a b.
Definition itemSub (a b : ItemCost) : ItemCost := zip_with sub64 a b.

(** [ItemCost::sum()]. *)
Definition itemSum (a : ItemCost) : Z := fold_right add64 0 a.

(** A value of the right shape: [n] categories, each a [qint64]. *)
Definition okCost (n : nat) (v : ItemCost) : Prop :=
  length v = n ∧ Forall in_int64 v.

(** ** Costs: the cost matrix

    Modelled from the spec: the class [Costs] is declared in [data.h], which
    is not part of the sources.  It maps an integer item id to its
    [ItemCost] and knows the category count [numTypes]; [add(id, delta)]
    accumulates in place; [itemCost(id)] returns the stored cost or a zero
    vector if absent; [initializeCostsFrom] clones the category layout
    without copying per-item values. *)

Record Costs := mkCosts { numTypes : nat; m_costs : gmap N ItemCost }.

Definition itemCost (c : Costs) (id : N) : ItemCost :=
  default (zeroCost (numTypes c)) (m_costs c !! id).

Definition costsAdd (c : Costs) (id : N) (delta : ItemCost) : Costs :=
  mkCosts (numTypes c) (<[id := itemAdd (itemCost c id) delta]> (m_costs c)).

Definition initializeCostsFrom (c : Costs) : Costs := mkCosts (numTypes c) ∅.

(** Every stored row has [numTypes] entries, each a [qint64]. *)
Definition wfCosts (c : Costs) : Prop :=
  ∀ id v, m_costs c !! id = Some v → okCost (numTypes c) v.

(** ** Symbol

    Modelled from the spec: [Symbol] is declared in [data.h].  It identifies
    a function by name, binary, relative address and size, and is compared
    and hashed by all fields. *)

Record Symbol := mkSymbol {
  symbol : string;
  binary : string;
  relAddr : N;
  symSize : N
}.

#[global] Instance Symbol_eq_dec : EqDecision Symbol.
Proof. solve_decision. Defined.

#[global] Instance Symbol_countable : Countable Symbol.
Proof.
  refine (inj_countable'
            (fun s => (symbol s, binary s, relAddr s, symSize s))
            (fun t => match t with (n, b, r, z) => mkSymbol n b r z end) _).
  intros []; reflexivity.
Defined.

(** ** QString and QStringView

    A string is a sequence of UTF-16 code units.  [Latin1] is
    [QLatin1String] / [QLatin1Char]. *)

Definition QChar := N.
Definition QString := list QChar.

Definition Latin1Char (a : ascii) : QChar := N_of_ascii a.
Definition Latin1 (s : string) : QString :=
  map Latin1Char (list_ascii_of_string s).

Arguments Latin1Char : simpl never.
Arguments Latin1 : simpl never.

Definition qsize (s : QString) : Z := Z.of_nat (length s).

(** [str.startsWith(prefix)]. *)
Fixpoint qstartsWith (str prefix : QString) {struct prefix} : bool :=
  match prefix, str with
  | [], _ => true
  | _ :: _, [] => false
  | p :: prefix', c :: str' => (N.eqb c p) && qstartsWith str' prefix'
  end.

(** [str.indexOf(needle, from)]: the first index at or after [from] where
    [needle] occurs, or [-1]. *)
Fixpoint indexOfLoop (rest needle : QString) (i : Z) : Z :=
  if qstartsWith rest needle then i
  else match rest with
       | [] => -1
       | _ :: rest' => indexOfLoop rest' needle (i + 1)
       end.

Definition indexOf (str needle : QString) (from : Z) : Z :=
  if qsize str <? from then -1
  else indexOfLoop (drop (Z.to_nat from) str) needle from.

(** [str[i]]; the index is in range at every use. *)
Definition qat (str : QString) (i : Z) : QChar := nth (Z.to_nat i) str 0%N.

(** [str.left(n)] and [str.mid(pos, n)] with arguments in range. *)
Definition qleft (str : QString) (n : Z) : QString := take (Z.to_nat n) str.
Definition qmidN (str : QString) (pos n : Z) : QString :=
  take (Z.to_nat n) (drop (Z.to_nat pos) str).

(** The outcome of a computation on string views.  [QStringView::mid(pos)]
    requires [0 <= pos <= size()]; outside of that its behaviour is not
    defined, which is reported as [Undefined].  [Timeout] is the model
    running out of fuel. *)
Inductive outcome (A : Type) : Type :=
| Ret (a : A)
| Undefined
| Timeout.
Arguments Ret {A} a.
Arguments Undefined {A}.
Arguments Timeout {A}.

Definition obind {A B} (m : outcome A) (k : A → outcome B) : outcome B :=
  match m with
  | Ret a => k a
  | Undefined => Undefined
  | Timeout => Timeout
  end.

#[global] Instance outcome_bind : MBind outcome :=
  fun A B k m => obind m k.

Definition qmid (str : QString) (pos : Z) : outcome QString :=
  if (pos <? 0) || (qsize str <? pos) then Undefined
  else Ret (drop (Z.to_nat pos) str).

(** ** findSameDepth, startsWith *)

Fixpoint findSameDepthLoop (rest : QString) (offset depth : Z) (ch : QChar)
    (returnNext : bool) : Z :=
  match rest with
  | [] => -1
  | current :: rest' =>
      let depth' :=
        if N.eqb current (Latin1Char "<") || N.eqb current (Latin1Char "(")
        then depth + 1
        else if N.eqb current (Latin1Char ">") || N.eqb current (Latin1Char ")")
        then depth - 1
        else depth in
      if (depth' =? 0) && N.eqb current ch
      then offset + (if returnNext then 1 else 0)
      else findSameDepthLoop rest' (offset + 1) depth' ch returnNext
  end.

Definition findSameDepth (str : QString) (offset : Z) (ch : QChar)
    (returnNext : bool) : Z :=
  findSameDepthLoop (drop (Z.to_nat offset) str) offset 0 ch returnNext.

Fixpoint startsWith (str : QString) (prefixes : list string) : Z :=
  match prefixes with
  | [] => -1
  | prefix_ :: prefixes' =>
      let prefix := Latin1 prefix_ in
      if qstartsWith str prefix then qsize prefix
      else startsWith str prefixes'
  end.

(** ** prettifySymbol *)

(** The [do ... while (true)] loop that looks for an occurrence of "std::"
    at the start of the string or after one of '<', ' ', '('.  [None]: there
    is none and the input is returned; [Some pos]: the position just after
    the occurrence. *)
Fixpoint findStdLoop (fuel : nat) (str : QString) (pos : Z)
    : outcome (option Z) :=
  match fuel with
  | O => Timeout
  | S fuel' =>
      let pos := indexOf str (Latin1 "std::") pos in
      if pos =? -1 then Ret None
      else
        let pos := pos + 5 in
        if (pos =? 5) || N.eqb (qat str (pos - 6)) (Latin1Char "<")
           || N.eqb (qat str (pos - 6)) (Latin1Char " ")
           || N.eqb (qat str (pos - 6)) (Latin1Char "(")
        then Ret (Some pos)
        else findStdLoop fuel' str pos
  end.

Definition oneParameterTemplates : list string :=
  ["vector<"; "set<"; "deque<"; "list<"; "forward_list<"; "multiset<";
   "unordered_set<"; "unordered_multiset<"]%string.
Definition twoParametersTemplates : list string :=
  ["map<"; "multimap<"; "unordered_map<"; "unordered_multimap<"]%string.
Definition constructorDestructor : list string :=
  ["::basic_string("; "::~basic_string("]%string.

Definition qeqb (a b : QString) : bool := bool_decide (a = b).

Fixpoint prettifySymbolFuel (fuel : nat) (str : QString) : outcome QString :=
  match fuel with
  | O => Timeout
  | S fuel' =>
      found ← findStdLoop (S (length str)) str 0;
      match found with
      | None => Ret str
      | Some pos =>
          let result := qleft str pos in
          symbol ← qmid str pos;
          let end_ := startsWith symbol ["__cxx11::"; "__1::"]%string in
          symbol ← (if end_ =? -1 then Ret symbol else qmid symbol end_);
          '(result, symbol) ←
            (let end_ := startsWith symbol ["basic_string<"%string] in
             if negb (end_ =? -1) then
               let comma := findSameDepth symbol end_ (Latin1Char ",") false in
               if negb (comma =? -1) then
                 let type := qmidN symbol end_ (comma - end_) in
                 let result :=
                   if qeqb type (Latin1 "char") then result ++ Latin1 "string"
                   else if qeqb type (Latin1 "wchar_t")
                   then result ++ Latin1 "wstring"
                   else result ++ qleft symbol end_ ++ type
                               ++ [Latin1Char ">"] in
                 let end_ := findSameDepth symbol 0 (Latin1Char ">") true in
                 symbol ← qmid symbol end_;
                 let end_ := startsWith symbol constructorDestructor in
                 if negb (end_ =? -1) then
                   let result := result ++ Latin1 "::" in
                   let result :=
                     if N.eqb (qat symbol 2) (Latin1Char "~")
                     then result ++ [Latin1Char "~"] else result in
                   let result :=
                     if qeqb type (Latin1 "wchar_t")
                     then result ++ [Latin1Char "w"]
                     else if negb (qeqb type (Latin1 "char"))
                     then result ++ Latin1 "basic_"
                     else result in
                   let result := result ++ Latin1 "string(" in
                   symbol ← qmid symbol end_;
                   Ret (result, symbol)
                 else Ret (result, symbol)
               else Ret (result, symbol)
             else
             let end_ := startsWith symbol oneParameterTemplates in
             if negb (end_ =? -1) then
               let comma := findSameDepth symbol end_ (Latin1Char ",") false in
               if negb (comma =? -1) then
                 arg ← prettifySymbolFuel fuel'
                         (qmidN symbol end_ (comma - end_));
                 let result :=
                   result ++ qleft symbol end_ ++ arg ++ [Latin1Char ">"] in
                 let end_ := findSameDepth symbol 0 (Latin1Char ">") true in
                 symbol ← qmid symbol end_;
                 Ret (result, symbol)
               else Ret (result, symbol)
             else
             let end_ := startsWith symbol twoParametersTemplates in
             if negb (end_ =? -1) then
               let comma1 := findSameDepth symbol end_ (Latin1Char ",") false in
               let comma2 :=
                 findSameDepth symbol (comma1 + 1) (Latin1Char ",") false in
               if negb (comma1 =? -1) && negb (comma2 =? -1) then
                 arg1 ← prettifySymbolFuel fuel'
                          (qmidN symbol end_ (comma1 - end_));
                 arg2 ← prettifySymbolFuel fuel'
                          (qmidN symbol comma1 (comma2 - comma1));
                 let result :=
                   result ++ qleft symbol end_ ++ arg1 ++ arg2
                          ++ [Latin1Char ">"] in
                 let end_ := findSameDepth symbol 0 (Latin1Char ">") true in
                 symbol ← qmid symbol end_;
                 Ret (result, symbol)
               else Ret (result, symbol)
             else
             let end_ := startsWith symbol ["allocator<"%string] in
             if negb (end_ =? -1) then
               let gt := findSameDepth symbol 0 (Latin1Char ">") true in
               if negb (gt =? -1) then
                 let result :=
                   result ++ qleft symbol end_ ++ Latin1 "...>" in
                 symbol ← qmid symbol gt;
                 Ret (result, symbol)
               else Ret (result, symbol)
             else Ret (result, symbol));
          match symbol with
          | [] => Ret result
          | _ :: _ =>
              rest ← prettifySymbolFuel fuel' symbol;
              Ret (result ++ rest)
          end
      end
  end.

(** The anonymous-namespace [prettifySymbol(QStringView)].  Every recursive
    call is on a strictly shorter view, so the length of the input bounds
    the recursion depth. *)
Definition prettifySymbolView (str : QString) : outcome QString :=
  prettifySymbolFuel (S (length str)) str.

(** [Data::prettifySymbol(const QString&)]. *)
Definition prettifySymbol (name : QString) : outcome QString :=
  result ← prettifySymbolView name;
  Ret (if qeqb result name then name else result).

(** ** Trees

    Modelled from the spec: the tree node types are declared in [data.h].
    A node has an integer id, a [Symbol] and an ordered sequence of owned
    children.  The non-owning parent back-reference is used only for upward
    traversal; a pointer to a bottom-up row is represented by the symbols
    on its parent chain, the row's own symbol first.  A row directly below
    the root has no parent: the chain that starts there has one element. *)

Inductive BottomUp := mkBottomUp {
  bu_id : N;
  bu_symbol : Symbol;
  bu_children : list BottomUp
}.

Inductive TopDown := mkTopDown {
  td_id : N;
  td_symbol : Symbol;
  td_children : list TopDown
}.

Record PerLibrary := mkPerLibrary {
  pl_id : N;
  pl_symbol : Symbol
}.

Definition emptySymbol : Symbol := mkSymbol "" "" 0 0.

Record BottomUpResults := mkBottomUpResults {
  bu_root : BottomUp;
  bu_costs : Costs
}.

Record TopDownResults := mkTopDownResults {
  td_root : TopDown;
  td_selfCosts : Costs;
  td_inclusiveCosts : Costs
}.

(** The children of the per-library root, and the cost matrix. *)
Record PerLibraryResults := mkPerLibraryResults {
  pl_root : list PerLibrary;
  pl_costs : Costs
}.

(** Modelled from the spec: [entryForSymbol] is declared in [data.h].  It
    finds or creates the child with the given symbol under the cursor node;
    a created node gets the id [*maxId], which is then incremented.  The
    returned pointer to the child is represented by the children before it,
    the child, and the children after it. *)
Fixpoint splitAtSymbol (children : list TopDown) (s : Symbol)
    : option (list TopDown * TopDown * list TopDown) :=
  match children with
  | [] => None
  | row :: rest =>
      if decide (td_symbol row = s) then Some ([], row, rest)
      else match splitAtSymbol rest s with
           | Some (before, frame, after) => Some (row :: before, frame, after)
           | None => None
           end
  end.

Definition entryForSymbol (node : TopDown) (s : Symbol) (maxId : N)
    : (list TopDown * TopDown * list TopDown) * N :=
  match splitAtSymbol (td_children node) s with
  | Some found => (found, maxId)
  | None => ((td_children node, mkTopDown maxId s [], []), (maxId + 1)%N)
  end.

(** ** Top-down builder *)

(** What the builder updates besides the tree: the two cost matrices and
    the id counter. *)
Record BuildState := mkBuildState {
  bs_inclusiveCosts : Costs;
  bs_selfCosts : Costs;
  bs_maxId : N
}.

(** [!node->parent || (skipFirstLevel && !node->parent->parent)], for the
    node whose parent chain has the symbols [parents]. *)
Definition isLastNode (skipFirstLevel : bool) (parents : list Symbol) : bool :=
  match parents with
  | [] => true
  | [_] => skipFirstLevel
  | _ => false
  end.

(** The [while (node)] loop of [buildTopDownResult]: bubble [diff] up the
    parent chain [node], descending from the cursor [stack]. *)
Fixpoint bubbleUp (skipFirstLevel : bool) (diff : ItemCost)
    (node : list Symbol) (stack : TopDown) (st : BuildState)
    : TopDown * BuildState :=
  match node with
  | [] => (stack, st)
  | symbol :: parents =>
      let '((before, frame, after), maxId) :=
        entryForSymbol stack symbol (bs_maxId st) in
      let inclusiveCosts := costsAdd (bs_inclusiveCosts st) (td_id frame) diff in
      if isLastNode skipFirstLevel parents then
        (mkTopDown (td_id stack) (td_symbol stack) (before ++ frame :: after),
         mkBuildState inclusiveCosts
                      (costsAdd (bs_selfCosts st) (td_id frame) diff) maxId)
      else
        let '(frame, st) :=
          bubbleUp skipFirstLevel diff parents frame
                   (mkBuildState inclusiveCosts (bs_selfCosts st) maxId) in
        (mkTopDown (td_id stack) (td_symbol stack) (before ++ frame :: after),
         st)
  end.

(** [parents] are the symbols on the parent chain of the rows of
    [bottomUpData]: empty when [bottomUpData] is the root. *)
Fixpoint buildTopDownResult (skipFirstLevel : bool) (bottomUpCosts : Costs)
    (parents : list Symbol) (bottomUpData : BottomUp)
    (topDownData : TopDown) (st : BuildState)
    : ItemCost * (TopDown * BuildState) :=
  fold_left
    (fun acc row =>
       let '(totalCost, (topDownData, st)) := acc in
       let '(childCost, (topDownData, st)) :=
         buildTopDownResult skipFirstLevel bottomUpCosts
                            (bu_symbol row :: parents) row topDownData st in
       let rowCost := itemCost bottomUpCosts (bu_id row) in
       let diff := itemSub rowCost childCost in
       let '(topDownData, st) :=
         if negb (itemSum diff =? 0)
         then bubbleUp skipFirstLevel diff (bu_symbol row :: parents)
                       topDownData st
         else (topDownData, st) in
       (itemAdd totalCost rowCost, (topDownData, st)))
    (bu_children bottomUpData)
    (zeroCost (numTypes bottomUpCosts), (topDownData, st)).

Definition emptyTopDown : TopDown := mkTopDown 0 emptySymbol [].

(** The loop that sums the inclusive costs of the children of a first-level
    node into the node. *)
Definition sumChildrenInclusive (topDownGroup : TopDown)
    (inclusiveCosts : Costs) : Costs :=
  fold_left
    (fun inclusiveCosts child =>
       costsAdd inclusiveCosts (td_id topDownGroup)
                (itemCost inclusiveCosts (td_id child)))
    (td_children topDownGroup) inclusiveCosts.

(** The body of the loop over the first-level rows in
    [TopDownResults::fromBottomUp] with [skipFirstLevel]. *)
Definition fromBottomUpGroup (costs : Costs) (acc : TopDown * BuildState)
    (bottomUpGroup : BottomUp) : TopDown * BuildState :=
  let '(root, st) := acc in
  let '((before, topDownGroup, after), maxId) :=
    entryForSymbol root (bu_symbol bottomUpGroup) (bs_maxId st) in
  let '(_, (topDownGroup, st)) :=
    buildTopDownResult true costs [bu_symbol bottomUpGroup]
      bottomUpGroup topDownGroup
      (mkBuildState (bs_inclusiveCosts st) (bs_selfCosts st) maxId) in
  let inclusiveCosts :=
    sumChildrenInclusive topDownGroup (bs_inclusiveCosts st) in
  (mkTopDown (td_id root) (td_symbol root) (before ++ topDownGroup :: after),
   mkBuildState inclusiveCosts (bs_selfCosts st) (bs_maxId st)).

(** [TopDownResults::fromBottomUp].  [initializeParents] only sets the
    back-references of the finished tree. *)
Definition fromBottomUp (bottomUpData : BottomUpResults)
    (skipFirstLevel : bool) : TopDownResults :=
  let costs := bu_costs bottomUpData in
  let st0 := mkBuildState (initializeCostsFrom costs)
                          (initializeCostsFrom costs) 0 in
  let '(root, st) :=
    if skipFirstLevel then
      fold_left (fromBottomUpGroup costs)
                (bu_children (bu_root bottomUpData)) (emptyTopDown, st0)
    else
      snd (buildTopDownResult false costs [] (bu_root bottomUpData)
                              emptyTopDown st0) in
  mkTopDownResults root (bs_selfCosts st) (bs_inclusiveCosts st).

(** ** Per-library aggregator *)

(** Modelled from the spec: the constructor [Symbol(binary)] is declared in
    [data.h]; the library entry is keyed by the binary name. *)
Definition SymbolOfBinary (b : string) : Symbol := mkSymbol b "" 0 0.

Fixpoint buildPerLibrary (costs : Costs) (node : TopDown)
    (acc : PerLibraryResults * gmap string N)
    : PerLibraryResults * gmap string N :=
  fold_left
    (fun (acc : PerLibraryResults * gmap string N) child =>
       let '(results, binaryToResultIndex) := acc in
       let binary_ := binary (td_symbol child) in
       let '(resultIndex, results, binaryToResultIndex) :=
         match binaryToResultIndex !! binary_ with
         | Some resultIndex => (resultIndex, results, binaryToResultIndex)
         | None =>
             let resultIndex := N.of_nat (size binaryToResultIndex) in
             (resultIndex,
              mkPerLibraryResults
                (pl_root results
                   ++ [mkPerLibrary resultIndex (SymbolOfBinary binary_)])
                (pl_costs results),
              <[binary_ := resultIndex]> binaryToResultIndex)
         end in
       let cost := itemCost costs (td_id child) in
       let results :=
         mkPerLibraryResults (pl_root results)
                             (costsAdd (pl_costs results) resultIndex cost) in
       buildPerLibrary costs child (results, binaryToResultIndex))
    (td_children node) acc.

(** [PerLibraryResults::fromTopDown]. *)
Definition fromTopDown (topDownData : TopDownResults) : PerLibraryResults :=
  let results :=
    mkPerLibraryResults [] (initializeCostsFrom (td_selfCosts topDownData)) in
  fst (buildPerLibrary (td_selfCosts topDownData) (td_root topDownData)
                       (results, ∅)).

(** ** Caller-callee builder *)

Record CallerCalleeEntry := mkCallerCalleeEntry {
  cce_id : N;
  callers : gmap Symbol ItemCost;
  callees : gmap Symbol ItemCost
}.

Record CallerCalleeResults := mkCallerCalleeResults {
  entries : gmap Symbol CallerCalleeEntry;
  cc_inclusiveCosts : Costs;
  cc_selfCosts : Costs
}.

(** Modelled from the spec: [CallerCalleeResults::entry] is declared in
    [data.h].  Each symbol lazily gets, or reuses, an entry with a freshly
    assigned sequential id on first encounter.  The returned reference is
    represented by the symbol, together with the id of the entry. *)
Definition entry (results : CallerCalleeResults) (s : Symbol)
    : N * CallerCalleeResults :=
  match entries results !! s with
  | Some e => (cce_id e, results)
  | None =>
      let id := N.of_nat (size (entries results)) in
      (id,
       mkCallerCalleeResults
         (<[s := mkCallerCalleeEntry id ∅ ∅]> (entries results))
         (cc_inclusiveCosts results) (cc_selfCosts results))
  end.

(** The file-local [add(ItemCost& lhs, const ItemCost& rhs)]. *)
Definition add (lhs rhs : ItemCost) : ItemCost :=
  match lhs with
  | [] => rhs
  | _ :: _ => itemAdd lhs rhs
  end.

(** Modelled from the spec: [CallerCalleeEntry::callee] and [::caller] are
    declared in [data.h]; they return a reference to the cost of the edge
    to the given symbol, created with [numTypes] zero entries if absent.
    [addCallee e s n diff] is [add(e.callee(s, n), diff)]. *)
Definition addCallee (e : CallerCalleeEntry) (s : Symbol) (n : nat)
    (diff : ItemCost) : CallerCalleeEntry :=
  mkCallerCalleeEntry (cce_id e) (callers e)
    (<[s := add (default (zeroCost n) (callees e !! s)) diff]> (callees e)).

Definition addCaller (e : CallerCalleeEntry) (s : Symbol) (n : nat)
    (diff : ItemCost) : CallerCalleeEntry :=
  mkCallerCalleeEntry (cce_id e)
    (<[s := add (default (zeroCost n) (callers e !! s)) diff]> (callers e))
    (callees e).

(** The variables of one parent-chain walk.  [lastSymbol] is [None] while
    [lastEntry] is null; afterwards [lastEntry] is the entry of
    [lastSymbol]. *)
Record WalkState := mkWalkState {
  recursionGuard : gset Symbol;
  callerCalleeRecursionGuard : gset (Symbol * Symbol);
  lastSymbol : option Symbol;
  ws_results : CallerCalleeResults
}.

(** One iteration of the [while (node)] loop of [buildCallerCalleeResult]
    at a node with symbol [sym]; [hasParent] is [node->parent != nullptr]. *)
Definition callerCalleeStep (numTypes_ : nat) (diff : ItemCost)
    (st : WalkState) (sym : Symbol) (hasParent : bool) : WalkState :=
  let '(entryId, results) := entry (ws_results st) sym in
  let results :=
    if decide (sym ∈ recursionGuard st) then results
    else mkCallerCalleeResults (entries results)
           (costsAdd (cc_inclusiveCosts results) entryId diff)
           (cc_selfCosts results) in
  let guard := {[sym]} ∪ recursionGuard st in
  let results :=
    if hasParent then results
    else mkCallerCalleeResults (entries results) (cc_inclusiveCosts results)
           (costsAdd (cc_selfCosts results) entryId diff) in
  let '(results, pairGuard) :=
    match lastSymbol st with
    | Some last =>
        let callerCalleePair := (sym, last) in
        if decide (callerCalleePair ∈ callerCalleeRecursionGuard st)
        then (results, callerCalleeRecursionGuard st)
        else
          let es :=
            alter (fun e => addCallee e sym numTypes_ diff) last
                  (entries results) in
          let es := alter (fun e => addCaller e last numTypes_ diff) sym es in
          (mkCallerCalleeResults es (cc_inclusiveCosts results)
                                 (cc_selfCosts results),
           {[callerCalleePair]} ∪ callerCalleeRecursionGuard st)
    | None => (results, callerCalleeRecursionGuard st)
    end in
  mkWalkState guard pairGuard (Some sym) results.

Fixpoint callerCalleeLoop (numTypes_ : nat) (diff : ItemCost)
    (node : list Symbol) (st : WalkState) : WalkState :=
  match node with
  | [] => st
  | sym :: parents =>
      callerCalleeLoop numTypes_ diff parents
        (callerCalleeStep numTypes_ diff st sym
                          (match parents with [] => false | _ => true end))
  end.

(** The walk for one leaf contribution: fresh guards, no last entry. *)
Definition callerCalleeWalk (numTypes_ : nat) (diff : ItemCost)
    (node : list Symbol) (results : CallerCalleeResults)
    : CallerCalleeResults :=
  ws_results (callerCalleeLoop numTypes_ diff node
                               (mkWalkState ∅ ∅ None results)).

Fixpoint buildCallerCalleeResult (bottomUpCosts : Costs)
    (parents : list Symbol) (data : BottomUp) (results : CallerCalleeResults)
    : ItemCost * CallerCalleeResults :=
  fold_left
    (fun acc row =>
       let '(totalCost, results) := acc in
       let '(childCost, results) :=
         buildCallerCalleeResult bottomUpCosts (bu_symbol row :: parents)
                                 row results in
       let rowCost := itemCost bottomUpCosts (bu_id row) in
       let diff := itemSub rowCost childCost in
       let results :=
         if negb (itemSum diff =? 0)
         then callerCalleeWalk (numTypes bottomUpCosts) diff
                               (bu_symbol row :: parents) results
         else results in
       (itemAdd totalCost rowCost, results))
    (bu_children data)
    (zeroCost (numTypes bottomUpCosts), results).

(** [Data::callerCalleesFromBottomUpData]. *)
Definition callerCalleesFromBottomUpData (bottomUpData : BottomUpResults)
    (results : CallerCalleeResults) : CallerCalleeResults :=
  let results :=
    mkCallerCalleeResults (entries results)
      (initializeCostsFrom (bu_costs bottomUpData))
      (initializeCostsFrom (bu_costs bottomUpData)) in
  snd (buildCallerCalleeResult (bu_costs bottomUpData) []
                               (bu_root bottomUpData) results).

(** A default-constructed [CallerCalleeResults]. *)
Definition emptyResults : CallerCalleeResults :=
  mkCallerCalleeResults ∅ (mkCosts 0 ∅) (mkCosts 0 ∅).
(** ** Notions used to state the properties *)

(** [needle] occurs in [s] as a substring. *)
Definition occursIn (needle s : QString) : Prop :=
  ∃ pre post, s = pre ++ needle ++ post.

(** The code units after which an occurrence of "std::" is rewritten. *)
Definition isOpener (c : QChar) : bool :=
  N.eqb c (Latin1Char "<") || N.eqb c (Latin1Char " ")
  || N.eqb c (Latin1Char "(").

(** "std::" occurs at the start of [s] or directly after '<', ' ' or '('. *)
Definition qualifyingStd (s : QString) : Prop :=
  ∃ pre post, s = pre ++ Latin1 "std::" ++ post
              ∧ (pre = [] ∨ ∃ pre' c, pre = pre' ++ [c] ∧ isOpener c = true).

(** Boolean scans deciding the two notions. *)
Definition occursInb (needle s : QString) : bool :=
  existsb (fun i => qstartsWith (drop i s) needle) (seq 0 (S (length s))).

Definition qualifyingStdb (s : QString) : bool :=
  existsb (fun i => qstartsWith (drop i s) (Latin1 "std::")
                    && match i with
                       | O => true
                       | S j => isOpener (nth j s 0%N)
                       end)
          (seq 0 (S (length s))).

(** Elementwise sum of a list of cost vectors with [n] categories. *)
Definition costSum (n : nat) (l : list ItemCost) : ItemCost :=
  fold_right itemAdd (zeroCost n) l.

(** The cost of a bottom-up row, and the value returned by the builders for
    a node: the sum of the costs of its rows. *)
Definition rowCostOf (costs : Costs) (row : BottomUp) : ItemCost :=
  itemCost costs (bu_id row).

Definition totalCostOf (costs : Costs) (data : BottomUp) : ItemCost :=
  fold_left (fun total row => itemAdd total (rowCostOf costs row))
            (bu_children data) (zeroCost (numTypes costs)).

(** The leaf contribution of a row: its cost minus the cost of its rows. *)
Definition leafDiff (costs : Costs) (row : BottomUp) : ItemCost :=
  itemSub (rowCostOf costs row) (totalCostOf costs row).

(** A leaf contribution together with the parent chain it is bubbled up. *)
Definition Contribution : Type := list Symbol * ItemCost.

(** The contributions of all rows below [data], in the order in which the
    builders visit them: the rows of a row first, then the row itself. *)
Fixpoint contributions (costs : Costs) (parents : list Symbol)
    (data : BottomUp) : list Contribution :=
  flat_map
    (fun row =>
       contributions costs (bu_symbol row :: parents) row
       ++ [(bu_symbol row :: parents, leafDiff costs row)])
    (bu_children data).

(** The contributions whose components sum to a nonzero value. *)
Definition processed (cs : list Contribution) : list Contribution :=
  filter (fun c => itemSum c.2 ≠ 0) cs.

(** The traversal shared by the two builders, for any way [process] of
    handling a leaf contribution. *)
Fixpoint traverse {S : Type} (costs : Costs)
    (process : Contribution → S → S) (parents : list Symbol)
    (data : BottomUp) (s : S) : ItemCost * S :=
  fold_left
    (fun acc row =>
       let '(childCost, s) :=
         traverse costs process (bu_symbol row :: parents) row acc.2 in
       let diff := itemSub (rowCostOf costs row) childCost in
       (itemAdd acc.1 (rowCostOf costs row),
        if negb (itemSum diff =? 0)
        then process (bu_symbol row :: parents, diff) s
        else s))
    (bu_children data) (zeroCost (numTypes costs), s).

(** Handling one contribution in each of the two builders. *)
Definition topDownProcess (skipFirstLevel : bool) (c : Contribution)
    (acc : TopDown * BuildState) : TopDown * BuildState :=
  bubbleUp skipFirstLevel c.2 c.1 acc.1 acc.2.

Definition callerCalleeProcess (numTypes_ : nat) (c : Contribution)
    (results : CallerCalleeResults) : CallerCalleeResults :=
  callerCalleeWalk numTypes_ c.2 c.1 results.

(** All nodes strictly below a top-down node, each followed by the nodes
    below it, and their ids. *)
Fixpoint tdNodes (node : TopDown) : list TopDown :=
  flat_map (fun child => child :: tdNodes child) (td_children node).

Definition tdIds (node : TopDown) : list N := td_id <$> tdNodes node.

(** The elementwise sum of the rows of a cost matrix at the given ids. *)
Definition costTotal (c : Costs) (ids : list N) : ItemCost :=
  costSum (numTypes c) (itemCost c <$> ids).

(** The body of the loop of [buildPerLibrary] for one node, without the
    recursion into its children. *)
Definition perLibraryStep (costs : Costs)
    (acc : PerLibraryResults * gmap string N) (child : TopDown)
    : PerLibraryResults * gmap string N :=
  let '(results, binaryToResultIndex) := acc in
  let binary_ := binary (td_symbol child) in
  let '(resultIndex, results, binaryToResultIndex) :=
    match binaryToResultIndex !! binary_ with
    | Some resultIndex => (resultIndex, results, binaryToResultIndex)
    | None =>
        let resultIndex := N.of_nat (size binaryToResultIndex) in
        (resultIndex,
         mkPerLibraryResults
           (pl_root results
              ++ [mkPerLibrary resultIndex (SymbolOfBinary binary_)])
           (pl_costs results),
         <[binary_ := resultIndex]> binaryToResultIndex)
    end in
  (mkPerLibraryResults (pl_root results)
     (costsAdd (pl_costs results) resultIndex (itemCost costs (td_id child))),
   binaryToResultIndex).

(** The nodes of a top-down tree that belong to a library entry. *)
Definition nodesOfLibrary (lib : PerLibrary) (root : TopDown) : list TopDown :=
  filter (fun node => SymbolOfBinary (binary (td_symbol node)) = pl_symbol lib)
         (tdNodes root).

(** Rows at or above [m] are absent. *)
Definition freshFrom (c : Costs) (m : N) : Prop :=
  ∀ id, (m ≤ id)%N → m_costs c !! id = None.

(** The self cost of a top-down node in a cost matrix. *)
Definition nodeCost (costs : Costs) (node : TopDown) : ItemCost :=
  itemCost costs (td_id node).

(** What holds of the per-library table and the index after the nodes
    [visited] have been aggregated. *)
Definition perLibraryInv (costs : Costs) (visited : list TopDown)
    (acc : PerLibraryResults * gmap string N) : Prop :=
  let results := acc.1 in
  let index := acc.2 in
  numTypes (pl_costs results) = numTypes costs
  ∧ wfCosts (pl_costs results)
  ∧ freshFrom (pl_costs results) (N.of_nat (size index))
  ∧ pl_id <$> pl_root results = N.of_nat <$> seq 0 (size index)
  ∧ (∀ b i, index !! b = Some i
            ↔ mkPerLibrary i (SymbolOfBinary b) ∈ pl_root results)
  ∧ (∀ lib, lib ∈ pl_root results
            → ∃ b, lib = mkPerLibrary (pl_id lib) (SymbolOfBinary b))
  ∧ (∀ node, node ∈ visited → is_Some (index !! binary (td_symbol node)))
  ∧ (∀ b i, index !! b = Some i →
            itemCost (pl_costs results) i
            = costSum (numTypes costs)
                (nodeCost costs
                   <$> filter (fun node => binary (td_symbol node) = b)
                              visited))
  ∧ costTotal (pl_costs results) (pl_id <$> pl_root results)
    = costSum (numTypes costs) (nodeCost costs <$> visited).

(** The ancestors a top-down walk visits on a parent chain: all of them,
    or, with [skipFirstLevel], all but the one without a parent. *)
Fixpoint visitedChain (skipFirstLevel : bool) (node : list Symbol)
    : list Symbol :=
  match node with
  | [] => []
  | sym :: parents =>
      sym :: (if isLastNode skipFirstLevel parents then []
              else visitedChain skipFirstLevel parents)
  end.

(** [ids] are the ids of the nodes on the path that starts at a child of
    [node] and follows the symbols [syms] downwards. *)
Fixpoint pathIn (node : TopDown) (syms : list Symbol) (ids : list N) : Prop :=
  match syms, ids with
  | [], [] => True
  | s :: syms', i :: ids' =>
      ∃ frame, frame ∈ td_children node ∧ td_symbol frame = s
               ∧ td_id frame = i ∧ pathIn frame syms' ids'
  | _, _ => False
  end.

(** The ids [a], [a + 1], ..., [b - 1]. *)
Definition idRange (a b : N) : list N :=
  N.of_nat <$> seq (N.to_nat a) (N.to_nat b - N.to_nat a).

(** The ids of the nodes of a list of sibling trees. *)
Definition forestIds (children : list TopDown) : list N :=
  td_id <$> flat_map (fun child => child :: tdNodes child) children.

(** The state of the top-down builder is consistent: the ids of the tree
    under the cursor, together with the ids [outside] of the rest of the
    tree, are distinct and below [maxId]; the cost matrices have [n]
    categories and no row at or above [maxId]. *)
Definition tdInv (n : nat) (outside : list N) (stack : TopDown)
    (st : BuildState) : Prop :=
  NoDup (outside ++ tdIds stack)
  ∧ Forall (fun id => (id < bs_maxId st)%N) (outside ++ tdIds stack)
  ∧ freshFrom (bs_selfCosts st) (bs_maxId st)
  ∧ freshFrom (bs_inclusiveCosts st) (bs_maxId st)
  ∧ wfCosts (bs_selfCosts st)
  ∧ wfCosts (bs_inclusiveCosts st)
  ∧ numTypes (bs_selfCosts st) = n
  ∧ numTypes (bs_inclusiveCosts st) = n.

(** The leaf contributions that [fromBottomUp] bubbles up: with
    [skipFirstLevel], those of the rows below the first level. *)
Definition groupContributions (costs : Costs) (root : BottomUp)
    : list Contribution :=
  flat_map (fun group => contributions costs [bu_symbol group] group)
           (bu_children root).

Definition bubbledContributions (skipFirstLevel : bool) (costs : Costs)
    (root : BottomUp) : list Contribution :=
  if skipFirstLevel then groupContributions costs root
  else contributions costs [] root.

(** The elementwise sum of the self costs of all nodes of a top-down
    result. *)
Definition selfCostTotal (r : TopDownResults) : ItemCost :=
  costTotal (td_selfCosts r) (tdIds (td_root r)).

(** ** Example inputs *)

Definition sym (name : string) : Symbol := mkSymbol name "app" 0 0.

(** A cost matrix given by its rows. *)
Definition costsOf (n : nat) (rows : list (N * ItemCost)) : Costs :=
  mkCosts n (list_to_map rows).

(** One first-level row [a] with cost {1, 0} and below it a row [b] with
    cost {0, 1}: the leaf contribution of [a] is {1, -1}. *)
Definition cancellingInput : BottomUpResults :=
  mkBottomUpResults
    (mkBottomUp 0 emptySymbol
       [mkBottomUp 1 (sym "a") [mkBottomUp 2 (sym "b") []]])
    (costsOf 2 [(1%N, [1; 0]); (2%N, [0; 1])]).

(** ** Views of the caller-callee table, by symbol *)

(** The inclusive and the self cost of a symbol: those of its entry, or
    zero while it has none. *)
Definition inclusiveOf (r : CallerCalleeResults) (s : Symbol) : ItemCost :=
  match entries r !! s with
  | Some e => itemCost (cc_inclusiveCosts r) (cce_id e)
  | None => zeroCost (numTypes (cc_inclusiveCosts r))
  end.

Definition selfOf (r : CallerCalleeResults) (s : Symbol) : ItemCost :=
  match entries r !! s with
  | Some e => itemCost (cc_selfCosts r) (cce_id e)
  | None => zeroCost (numTypes (cc_selfCosts r))
  end.

(** The cost with which [callee] appears in the callee map of [caller], and
    the cost with which [caller] appears in the caller map of [callee]. *)
Definition calleeIn (es : gmap Symbol CallerCalleeEntry)
    (caller callee : Symbol) : option ItemCost :=
  e ← es !! caller; callees e !! callee.

Definition callerIn (es : gmap Symbol CallerCalleeEntry)
    (callee caller : Symbol) : option ItemCost :=
  e ← es !! callee; callers e !! caller.

Definition calleeOf (r : CallerCalleeResults) (caller callee : Symbol)
    : option ItemCost :=
  calleeIn (entries r) caller callee.

Definition callerOf (r : CallerCalleeResults) (callee caller : Symbol)
    : option ItemCost :=
  callerIn (entries r) callee caller.

(** [y] directly follows [x] somewhere in the chain. *)
Fixpoint adjacentb (chain : list Symbol) (x y : Symbol) : bool :=
  match chain with
  | a :: (b :: _) as rest =>
      (bool_decide (a = x) && bool_decide (b = y)) || adjacentb rest x y
  | _ => false
  end.

(** The entries have distinct ids below the number of entries, and the
    cost matrices have no row at or above it. *)
Definition ccInv (r : CallerCalleeResults) : Prop :=
  (∀ s e, entries r !! s = Some e → (cce_id e < N.of_nat (size (entries r)))%N)
  ∧ (∀ s1 s2 e1 e2, entries r !! s1 = Some e1 → entries r !! s2 = Some e2 →
                    cce_id e1 = cce_id e2 → s1 = s2)
  ∧ freshFrom (cc_inclusiveCosts r) (N.of_nat (size (entries r)))
  ∧ freshFrom (cc_selfCosts r) (N.of_nat (size (entries r))).

(** The credit of one walk to an edge cost. *)
Definition creditEdge (n : nat) (diff : ItemCost) (old : option ItemCost)
    : option ItemCost :=
  Some (add (default (zeroCost n) old) diff).

(** The entries after one iteration of the caller-callee walk. *)
Definition stepEntries (n : nat) (diff : ItemCost) (st : WalkState)
    (s : Symbol) : gmap Symbol CallerCalleeEntry :=
  let es := entries (entry (ws_results st) s).2 in
  match lastSymbol st with
  | Some last =>
      if decide ((s, last) ∈ callerCalleeRecursionGuard st) then es
      else alter (fun e => addCaller e last n diff) s
                 (alter (fun e => addCallee e s n diff) last es)
  | None => es
  end.

(** The symbols before the first node of the remaining chain. *)
Definition withLast (last : option Symbol) (chain : list Symbol)
    : list Symbol :=
  match last with
  | Some l => l :: chain
  | None => chain
  end.

(** The edge from [x] to [y] is credited in one iteration at a node with
    symbol [s] when [x] is the last symbol, [y] is [s], and the pair of the
    current and the last symbol is not yet guarded. *)
Definition stepCredits (st : WalkState) (s x y : Symbol) : Prop :=
  lastSymbol st = Some x ∧ y = s
  ∧ (s, x) ∉ callerCalleeRecursionGuard st.

#[global] Instance stepCredits_dec st s x y : Decision (stepCredits st s x y).
Proof. unfold stepCredits. apply _. Defined.

(** The walk from the state [st] over the remaining [chain] credits the
    edge from [x] to [y] when [y] directly follows [x] on what remains,
    and the pair is not yet guarded. *)
Definition walkCredits (st : WalkState) (chain : list Symbol)
    (x y : Symbol) : bool :=
  adjacentb (withLast (lastSymbol st) chain) x y
  && bool_decide ((y, x) ∉ callerCalleeRecursionGuard st).

(** The last entry of a walk state exists. *)
Definition lastEntryExists (st : WalkState) : Prop :=
  ∀ l, lastSymbol st = Some l → is_Some (entries (ws_results st) !! l).

(** ** Bounds

    The sum of the components of a cost vector, without wrap-around. *)
Definition costWeight (d : ItemCost) : Z := fold_right Z.add 0 d.

Definition nonneg (d : ItemCost) : Prop := Forall (fun x => 0 <= x) d.

(** The total weight of a list of contributions. *)
Definition totalWeight (cs : list Contribution) : Z :=
  fold_right (fun c w => costWeight c.2 + w) 0 cs.

(** Componentwise [0 <= self <= inclusive <= bound]. *)
Definition costBounded (bound : Z) (self inclusive : ItemCost) : Prop :=
  Forall2 (fun x y => 0 <= x <= y ∧ y <= bound) self inclusive.

(** Every symbol of a caller-callee table has [n] categories and
    [0 <= self <= inclusive <= bound] in each. *)
Definition ccBounded (n : nat) (bound : Z) (r : CallerCalleeResults) : Prop :=
  ∀ s, costBounded bound (selfOf r s) (inclusiveOf r s)
       ∧ length (inclusiveOf r s) = n.

(** Every id of the top-down cost matrices has
    [0 <= self <= inclusive <= bound] in each category. *)
Definition tdBounded (bound : Z) (st : BuildState) : Prop :=
  ∀ id, costBounded bound (itemCost (bs_selfCosts st) id)
                          (itemCost (bs_inclusiveCosts st) id).

(** The well-formed inputs on which inclusive cost dominates self cost:
    the cost matrix has matching category count, every leaf contribution
    is non-negative in every category, and the weight of all leaf
    contributions, times [factor], fits in [qint64]. *)
Definition monotoneInput (factor : Z) (bottomUpData : BottomUpResults) : Prop :=
  wfCosts (bu_costs bottomUpData)
  ∧ Forall (fun c => nonneg c.2)
           (contributions (bu_costs bottomUpData) [] (bu_root bottomUpData))
  ∧ factor
    * totalWeight (contributions (bu_costs bottomUpData) []
                                 (bu_root bottomUpData))
    <= int64_max.

(** A chain [main], [foo], [bar] of bottom-up rows below the sampled row
    [bar], each with cost {10}. *)
Definition chainInput : BottomUpResults :=
  mkBottomUpResults
    (mkBottomUp 0 emptySymbol
       [mkBottomUp 1 (sym "bar")
          [mkBottomUp 2 (sym "foo") [mkBottomUp 3 (sym "main") []]]])
    (costsOf 1 [(1%N, [10]); (2%N, [10]); (3%N, [10])]).

(** One first-level row [a] with cost {1}, below it a row [b] with cost
    {0}, and below that a row [c] with cost {1}: the leaf contribution of
    [b] is {-1}. *)
Definition decreasingInput : BottomUpResults :=
  mkBottomUpResults
    (mkBottomUp 0 emptySymbol
       [mkBottomUp 1 (sym "a")
          [mkBottomUp 2 (sym "b") [mkBottomUp 3 (sym "c") []]]])
    (costsOf 1 [(1%N, [1]); (2%N, [0]); (3%N, [1])]).

(** One first-level row [a] with cost {10} and no rows below it: the cost
    was sampled in [a] itself, and the leaf contribution of [a] is {10}. *)
Definition firstLevelInput : BottomUpResults :=
  mkBottomUpResults
    (mkBottomUp 0 emptySymbol [mkBottomUp 1 (sym "a") []])
    (costsOf 1 [(1%N, [10])]).

(** The ids of the children of a top-down node. *)
Definition childIds (node : TopDown) : list N := td_id <$> td_children node.

(** The weight of the rows of a cost matrix at the given ids. *)
Definition weightAt (c : Costs) (ids : list N) : Z :=
  fold_right (fun id w => costWeight (itemCost c id) + w) 0 ids.

(** What holds of the top-down tree under construction with
    [skipFirstLevel] after [j] first-level rows whose bubbled-up
    contributions weigh [w]: the state is consistent, every id is bounded
    by [(j + 1) * w], and below every first-level node the inclusive costs
    of the children weigh at most [w]. *)
Definition skipInv (n : nat) (j w : Z) (root : TopDown) (st : BuildState)
    : Prop :=
  tdInv n [] root st
  ∧ tdBounded ((j + 1) * w) st
  ∧ 0 <= j ∧ 0 <= w
  ∧ ∀ t, t ∈ td_children root →
         weightAt (bs_inclusiveCosts st) (childIds t) <= w.

(** The weight of the contributions bubbled up for a list of first-level
    rows. *)
Definition groupsWeight (costs : Costs) (groups : list BottomUp) : Z :=
  fold_right
    (fun group w =>
       totalWeight (processed (contributions costs [bu_symbol group] group))
       + w)
    0 groups.

(** The factor by which the total weight must fit in [qint64]: with
    [skipFirstLevel] the inclusive costs of the children are summed into
    each first-level node once per first-level row. *)
Definition bubbleFactor (skipFirstLevel : bool) (root : BottomUp) : Z :=
  if skipFirstLevel then Z.of_nat (length (bu_children root)) + 1 else 1.

(** The id of the entry of a symbol, if it has one. *)
Definition idOf (es : gmap Symbol CallerCalleeEntry) (s : Symbol) : option N :=
  cce_id <$> es !! s.

(** The entries have distinct ids below the number of entries. *)
Definition idsOk (es : gmap Symbol CallerCalleeEntry) : Prop :=
  (∀ s id, idOf es s = Some id → (id < N.of_nat (size es))%N)
  ∧ (∀ s1 s2 id, idOf es s1 = Some id → idOf es s2 = Some id → s1 = s2).

(** The cost of a symbol in a matrix indexed by entry ids. *)
Definition costOf (es : gmap Symbol CallerCalleeEntry) (c : Costs)
    (s : Symbol) : ItemCost :=
  match idOf es s with
  | Some id => itemCost c id
  | None => zeroCost (numTypes c)
  end.

(** Empty results whose cost matrices have [n] categories. *)
Definition startResults (n : nat) : CallerCalleeResults :=
  mkCallerCalleeResults ∅ (initializeCostsFrom (costsOf n []))
                        (initializeCostsFrom (costsOf n [])).

(** The start state of the top-down builder for [n] categories. *)
Definition startState (n : nat) : BuildState :=
  mkBuildState (initializeCostsFrom (costsOf n []))
               (initializeCostsFrom (costsOf n [])) 0.

(** The top-down results for the chain [main], [foo], [bar] with the cost
    {10} sampled in [bar]. *)
Definition chainTopDown : TopDownResults :=
  mkTopDownResults
    (mkTopDown 0 emptySymbol
       [mkTopDown 0 (sym "main")
          [mkTopDown 1 (sym "foo") [mkTopDown 2 (sym "bar") []]]])
    (costsOf 1 [(2%N, [10])])
    (costsOf 1 [(0%N, [10]); (1%N, [10]); (2%N, [10])]).

(** ** The prettifier does not run out of fuel *)

(** The outcome is not [Timeout], and a returned value has measure at most
    [n]. *)
Definition withinLength {A} (len : A → nat) (n : nat) (m : outcome A) : Prop :=
  match m with
  | Ret a => (len a ≤ n)%nat
  | Undefined => True
  | Timeout => False
  end.

(** ** Notions for the string helpers *)

(** The change of the nesting depth at a code unit: '<' and '(' open,
    '>' and ')' close. *)
Definition depthChange (c : QChar) : Z :=
  if N.eqb c (Latin1Char "<") || N.eqb c (Latin1Char "(") then 1
  else if N.eqb c (Latin1Char ">") || N.eqb c (Latin1Char ")") then -1
  else 0.

(** Openers minus closers in a string. *)
Definition bracketDepth (s : QString) : Z :=
  fold_right (fun c d => depthChange c + d) 0 s.

(** [ch] is at index [i] of [str], and the brackets from index [offset] up
    to and including index [i] are at depth zero. *)
Definition sameDepthHit (str : QString) (offset : nat) (ch : QChar) (i : nat)
    : Prop :=
  str !! i = Some ch
  ∧ bracketDepth (take (S i - offset) (drop offset str)) = 0.

(** The brackets of [s] are well nested: no prefix closes more than it
    opens, and the whole string closes what it opens. *)
Definition balanced (s : QString) : Prop :=
  (∀ k, 0 <= bracketDepth (take k s)) ∧ bracketDepth s = 0.

(** [ch] does not stand in [s] outside of all brackets. *)
Definition noTopLevel (ch : QChar) (s : QString) : Prop :=
  ∀ k, s !! k = Some ch → bracketDepth (take (S k) s) ≠ 0.

(** Boolean scans deciding the two notions. *)
Definition balancedb (s : QString) : bool :=
  forallb (fun k => 0 <=? bracketDepth (take k s)) (seq 0 (S (length s)))
  && (bracketDepth s =? 0).

Definition noTopLevelb (ch : QChar) (s : QString) : bool :=
  forallb (fun k => negb (N.eqb (nth k s 0%N) ch)
                    || negb (bracketDepth (take (S k) s) =? 0))
          (seq 0 (length s)).

(** ** Paths of the top-down tree *)

(** The symbols [syms] label a path that starts at a child of [node] and
    descends. *)
Definition hasPath (node : TopDown) (syms : list Symbol) : Prop :=
  ∃ ids, pathIn node syms ids.

(** The processed leaf contributions of an input: those of all its rows
    whose components sum to a nonzero value. *)
Definition processedOf (bottomUpData : BottomUpResults) : list Contribution :=
  processed (contributions (bu_costs bottomUpData) [] (bu_root bottomUpData)).

(** The paths below the top-down node of a first-level row [group] with
    [skipFirstLevel]: the empty one, and the prefixes of the chains that
    the walks of the processed contributions of the rows below [group]
    visit. *)
Definition groupPaths (costs : Costs) (group : BottomUp)
    (rest : list Symbol) : Prop :=
  rest = []
  ∨ ∃ c, c ∈ processed (contributions costs [bu_symbol group] group)
         ∧ rest `prefix_of` visitedChain true c.1.

(** ** Inputs the prettifier shortens *)

(** The internal namespaces of libstdc++ and libc++ that the prettifier
    strips after "std::", and the empty one. *)
Definition internalNamespaces : list string :=
  [""; "__cxx11::"; "__1::"]%string.

(** The name the prettifier gives to [basic_string<T, ...>]. *)
Definition stringName (T : QString) : QString :=
  if qeqb T (Latin1 "char") then Latin1 "string"
  else if qeqb T (Latin1 "wchar_t") then Latin1 "wstring"
  else Latin1 "basic_string<" ++ T ++ Latin1 ">".


(** ** Thread lookup

    [Data::EventResults::findThread].  [ThreadEvents] is declared in
    [data.h]; the lookup reads its fields [pid] and [tid] only, so a thread
    is represented by these two [qint32] values.  The returned pointer is
    the index of the thread in [threads], or [None] for [nullptr]. *)
Record ThreadEvents := mkThreadEvents { pid : Z; tid : Z }.

(** The loop [for (int i = threads.size() - 1; i >= 0; --i)], entered with
    [i = n - 1]. *)
Fixpoint findThreadFrom (threads : list ThreadEvents) (pid_ tid_ : Z)
    (n : nat) : option nat :=
  match n with
  | O => None
  | S i =>
      match threads !! i with
      | Some thread =>
          if (pid thread =? pid_) && (tid thread =? tid_) then Some i
          else findThreadFrom threads pid_ tid_ i
      | None => findThreadFrom threads pid_ tid_ i
      end
  end.

Definition findThread (threads : list ThreadEvents) (pid_ tid_ : Z)
    : option nat :=
  findThreadFrom threads pid_ tid_ (length threads).

(** The thread at index [i] has the given ids. *)
Definition isThread (threads : list ThreadEvents) (pid_ tid_ : Z) (i : nat)
    : Prop :=
  ∃ thread, threads !! i = Some thread
            ∧ pid thread = pid_ ∧ tid thread = tid_.
(** * Properties *)

(** ** String primitives *)

Lemma qstartsWith_spec (str prefix : QString) :
  qstartsWith str prefix = true ↔ ∃ post, str = prefix ++ post.
Proof.
  revert str; induction prefix as [|p prefix IH]; intros str; simpl.
  - split; [intros _; by exists str | done].
  - destruct str as [|c str]; simpl.
    + split; [done | intros [post Hpost]; discriminate].
    + rewrite andb_true_iff, N.eqb_eq, IH. split.
      * intros [-> [post ->]]. by exists post.
      * intros [post Hpost]. injection Hpost as -> ->. eauto.
Qed.

Lemma occursIn_drop (needle s : QString) :
  occursIn needle s
  ↔ ∃ i, (i ≤ length s)%nat ∧ qstartsWith (drop i s) needle = true.
Proof.
  split.
  - intros (pre & post & ->). exists (length pre). split.
    + rewrite length_app. lia.
    + rewrite drop_app_length. apply qstartsWith_spec. eauto.
  - intros (i & Hi & Hs). apply qstartsWith_spec in Hs as [post Hpost].
    exists (take i s), post. by rewrite <- Hpost, take_drop.
Qed.

Lemma occursInb_spec (needle s : QString) :
  occursInb needle s = true ↔ occursIn needle s.
Proof.
  unfold occursInb. rewrite occursIn_drop, existsb_exists. split.
  - intros (i & Hi & Hs). apply in_seq in Hi. exists i. split; [lia | done].
  - intros (i & Hi & Hs). exists i. split; [apply in_seq; lia | done].
Qed.

Lemma qualifyingStdb_spec (s : QString) :
  qualifyingStdb s = true ↔ qualifyingStd s.
Proof.
  unfold qualifyingStdb. rewrite existsb_exists. split.
  - intros (i & Hi & Hs). apply in_seq in Hi.
    apply andb_true_iff in Hs as [Hs Hq].
    apply qstartsWith_spec in Hs as [post Hpost].
    exists (take i s), post. split.
    + by rewrite <- Hpost, take_drop.
    + destruct i as [|j]; [by left | right].
      assert (Hj : (j < length s)%nat).
      { destruct (decide (j < length s)%nat) as [|Hge]; [done |].
        rewrite drop_ge in Hpost by lia. discriminate. }
      exists (take j s), (nth j s 0%N). split; [| done].
      destruct (lookup_lt_is_Some_2 s j Hj) as [c Hc].
      rewrite (take_S_r _ _ c) by done.
      by rewrite (nth_lookup_Some _ _ _ _ Hc).
  - intros (pre & post & -> & Hq). exists (length pre). split.
    + apply in_seq. rewrite length_app. lia.
    + apply andb_true_iff. split.
      * rewrite drop_app_length. apply qstartsWith_spec. eauto.
      * destruct Hq as [-> | (pre' & c & -> & Hc)]; [done |].
        rewrite length_app; simpl. replace (length pre' + 1)%nat
          with (S (length pre')) by lia.
        rewrite <- app_assoc; simpl.
        by rewrite nth_middle.
Qed.

Lemma qualifyingStd_occursIn (s : QString) :
  qualifyingStd s → occursIn (Latin1 "std::") s.
Proof. intros (pre & post & -> & _). by exists pre, post. Qed.

Lemma indexOfLoop_spec (needle rest : QString) (i : Z) :
  0 <= i →
  indexOfLoop rest needle i = -1
  ∨ ∃ j, (j ≤ length rest)%nat
         ∧ indexOfLoop rest needle i = i + Z.of_nat j
         ∧ qstartsWith (drop j rest) needle = true.
Proof.
  revert i; induction rest as [|c rest IH]; intros i Hi; simpl.
  - destruct (qstartsWith [] needle) eqn:Hs; [right | by left].
    exists O. simpl. split; [lia |]. split; [lia | done].
  - destruct (qstartsWith (c :: rest) needle) eqn:Hs.
    + right. exists O. simpl. split; [lia |]. split; [lia | done].
    + destruct (IH (i + 1)) as [Hn | (j & Hj & Hr & Hd)]; [lia | by left |].
      right. exists (S j). simpl. split; [lia |]. split; [lia | done].
Qed.

Lemma indexOf_spec (str needle : QString) (from : Z) :
  0 <= from →
  indexOf str needle from = -1
  ∨ ∃ r, (r ≤ length str)%nat
         ∧ indexOf str needle from = Z.of_nat r
         ∧ from <= Z.of_nat r
         ∧ qstartsWith (drop r str) needle = true.
Proof.
  intros Hfrom. unfold indexOf, qsize.
  destruct (Z.ltb_spec (Z.of_nat (length str)) from) as [Hlt | Hle];
    [by left |].
  destruct (indexOfLoop_spec needle (drop (Z.to_nat from) str) from Hfrom)
    as [Hn | (j & Hj & Hr & Hd)]; [by left | right].
  rewrite length_drop in Hj. rewrite drop_drop in Hd.
  exists (Z.to_nat from + j)%nat. repeat split; try lia. done.
Qed.

(** ** The prettifier leaves strings without a rewritable "std::" alone *)

Lemma findStdLoop_none (fuel : nat) (str : QString) (pos : Z) :
  ¬ qualifyingStd str →
  0 <= pos <= Z.of_nat (length str) →
  Z.of_nat (length str) < Z.of_nat fuel + pos →
  findStdLoop fuel str pos = Ret None.
Proof.
  intros Hq. revert pos. induction fuel as [|fuel IH]; intros pos Hpos Hfuel.
  - lia.
  - simpl.
    destruct (indexOf_spec str (Latin1 "std::") pos (proj1 Hpos))
      as [-> | (r & Hr & -> & Hfrom & Hs)]; [done |].
    destruct (Z.eqb_spec (Z.of_nat r) (-1)) as [|_]; [lia |].
    assert (Hocc : ∃ post, drop r str = Latin1 "std::" ++ post)
      by by apply qstartsWith_spec.
    destruct Hocc as [post Hpost].
    assert (Hlen : (r + 5 ≤ length str)%nat).
    { apply (f_equal length) in Hpost.
      rewrite length_drop, length_app in Hpost. simpl in Hpost. lia. }
    assert (Hnq : qualifyingStdb str = false).
    { destruct (qualifyingStdb str) eqn:E; [| done].
      by apply qualifyingStdb_spec in E. }
    unfold qualifyingStdb in Hnq.
    assert (Hr' : qstartsWith (drop r str) (Latin1 "std::")
                  && match r with
                     | O => true
                     | S j => isOpener (nth j str 0%N)
                     end = false).
    { destruct (_ && _) eqn:E; [| done].
      rewrite <- Hnq. symmetry. apply existsb_exists. exists r.
      split; [apply in_seq; lia | done]. }
    rewrite Hs in Hr'. simpl in Hr'.
    destruct r as [|j].
    + discriminate.
    + replace (Z.of_nat (S j) + 5 - 6) with (Z.of_nat j) by lia.
      unfold qat. rewrite Nat2Z.id.
      destruct (Z.eqb_spec (Z.of_nat (S j) + 5) 5) as [|_]; [lia |].
      unfold isOpener in Hr'. cbn [orb].
      rewrite Hr'. apply IH; lia.
Qed.

Lemma prettifySymbolView_unchanged (str : QString) :
  ¬ qualifyingStd str → prettifySymbolView str = Ret str.
Proof.
  intros Hq. unfold prettifySymbolView. cbn [prettifySymbolFuel].
  rewrite findStdLoop_none; [done | done | lia | lia].
Qed.

Lemma prettifySymbol_unchanged (str : QString) :
  ¬ qualifyingStd str → prettifySymbol str = Ret str.
Proof.
  intros Hq. unfold prettifySymbol.
  rewrite prettifySymbolView_unchanged by done. simpl.
  unfold qeqb. by rewrite bool_decide_eq_true_2.
Qed.

(** C10: an input without any occurrence of "std::" is returned
    unchanged by the prettifier. *)
Theorem prettify_without_std_is_identity (s : QString) :
  ¬ occursIn (Latin1 "std::") s → prettifySymbol s = Ret s.
Proof.
  intros Hocc. apply prettifySymbol_unchanged.
  intros Hq. apply Hocc. by apply qualifyingStd_occursIn.
Qed.

Lemma prettify_without_std_is_identity_witness :
  prettifySymbol (Latin1 "QVector<int>::append(int const&)")
  = Ret (Latin1 "QVector<int>::append(int const&)").
Proof.
  apply (prettify_without_std_is_identity
           (Latin1 "QVector<int>::append(int const&)")).
  intros Hocc. apply occursInb_spec in Hocc. vm_compute in Hocc.
  discriminate Hocc.
Defined.


Lemma withinLength_bind {A B} (lenA : A → nat) (lenB : B → nat) (n n' : nat)
    (m : outcome A) (k : A → outcome B) :
  withinLength lenA n m →
  (∀ a, (lenA a ≤ n)%nat → withinLength lenB n' (k a)) →
  withinLength lenB n' (m ≫= k).
Proof.
  destruct m as [a| |]; unfold mbind, outcome_bind; simpl; [| done | done].
  intros Ha Hk. by apply Hk.
Qed.

Lemma withinLength_qmid (n : nat) (s : QString) (pos : Z) :
  (length s ≤ n)%nat → withinLength length n (qmid s pos).
Proof.
  intros Hn. unfold qmid. destruct (_ || _); simpl; [done |].
  rewrite length_drop. lia.
Qed.

Lemma withinLength_not_Timeout {A} (len : A → nat) (n : nat) (m : outcome A) :
  withinLength len n m → m ≠ Timeout.
Proof. by destruct m. Qed.

Lemma not_Timeout_withinLength {A} (n : nat) (m : outcome A) :
  m ≠ Timeout → withinLength (fun _ => O) n m.
Proof. destruct m; simpl; [lia | done | done]. Qed.

Lemma length_qmidN (s : QString) (pos n : Z) :
  (length (qmidN s pos n) ≤ length s)%nat.
Proof. unfold qmidN. rewrite length_take, length_drop. lia. Qed.

Lemma findStdLoop_returns (fuel : nat) (str : QString) (pos : Z) :
  0 <= pos <= Z.of_nat (length str) →
  Z.of_nat (length str) < Z.of_nat fuel + pos →
  ∃ r, findStdLoop fuel str pos = Ret r
       ∧ ∀ p, r = Some p → 5 <= p <= Z.of_nat (length str).
Proof.
  revert pos. induction fuel as [|fuel IH]; intros pos Hpos Hfuel; [lia |].
  simpl.
  destruct (indexOf_spec str (Latin1 "std::") pos (proj1 Hpos))
    as [-> | (r & Hr & -> & Hfrom & Hs)]; [by exists None |].
  destruct (Z.eqb_spec (Z.of_nat r) (-1)) as [|_]; [lia |].
  apply qstartsWith_spec in Hs as [post Hpost].
  assert (Hlen : (r + 5 ≤ length str)%nat).
  { apply (f_equal length) in Hpost.
    rewrite length_drop, length_app in Hpost. simpl in Hpost. lia. }
  destruct (_ || _).
  - eexists. split; [done |]. intros p [= <-]. lia.
  - apply IH; lia.
Qed.

Lemma prettifySymbolFuel_returns (fuel : nat) (str : QString) :
  (length str < fuel)%nat → prettifySymbolFuel fuel str ≠ Timeout.
Proof.
  revert str. induction fuel as [|fuel IH]; intros str Hlen; [lia |].
  cbn [prettifySymbolFuel].
  destruct (findStdLoop_returns (S (length str)) str 0) as (r & -> & Hr);
    [lia | lia |].
  unfold mbind at 1, outcome_bind at 1; cbn [obind].
  destruct r as [pos|]; [| done].
  specialize (Hr pos eq_refl).
  apply (withinLength_not_Timeout (fun _ => O) O).
  eapply (withinLength_bind length _ (length str - 5)).
  { unfold qmid, qsize.
    destruct (Z.ltb_spec pos 0); [lia |].
    destruct (Z.ltb_spec (Z.of_nat (length str)) pos); [lia |].
    simpl. rewrite length_drop. lia. }
  intros symbol0 Hs0.
  eapply (withinLength_bind length _ (length str - 5)).
  { destruct (_ =? _); [done | by apply withinLength_qmid]. }
  intros symbol Hs. clear symbol0 Hs0. cbv zeta.
  eapply (withinLength_bind (fun p => length p.2) _ (length str - 5)).
  - repeat match goal with
           | |- withinLength _ _ (Ret _) => simpl; lia
           | |- withinLength _ _ (if ?c then _ else _) => destruct c
           | |- withinLength _ _ (qmid _ _ ≫= _) =>
               eapply (withinLength_bind length);
               [apply withinLength_qmid; eassumption | intros ? ?]
           | |- withinLength _ _ (prettifySymbolFuel _ _ ≫= _) =>
               eapply (withinLength_bind (fun _ => O) _ O);
               [apply not_Timeout_withinLength, IH;
                pose proof (length_qmidN symbol) as Hq;
                eapply Nat.le_lt_trans; [apply Hq | lia]
               | intros ? _]
           end.
  - intros [result symbol'] Hs'. simpl in Hs'.
    destruct symbol' as [|c symbol']; [simpl; lia |].
    eapply (withinLength_bind (fun _ => O) _ O); [| intros; simpl; lia].
    apply not_Timeout_withinLength, IH. lia.
Qed.

(** The fuel given by [prettifySymbolView] and [prettifySymbol] is enough
    for every input: the prettifier either returns a string or calls
    [mid] out of range. *)
Lemma prettifySymbol_returns (name : QString) :
  prettifySymbol name ≠ Timeout.
Proof.
  unfold prettifySymbol, prettifySymbolView.
  apply (withinLength_not_Timeout (fun _ => O) O).
  eapply (withinLength_bind (fun _ => O) _ O); [| intros; simpl; lia].
  apply not_Timeout_withinLength, prettifySymbolFuel_returns. lia.
Qed.

(** ** qint64 arithmetic *)

Lemma wrap64_in_int64 (z : Z) : in_int64 (wrap64 z).
Proof.
  unfold in_int64, wrap64, int64_min, int64_max.
  pose proof (Z.mod_pos_bound (z + 2 ^ 63) (2 ^ 64) ltac:(lia)). lia.
Qed.

Lemma wrap64_id (z : Z) : in_int64 z → wrap64 z = z.
Proof.
  unfold in_int64, wrap64, int64_min, int64_max. intros Hz.
  rewrite Z.mod_small; lia.
Qed.

Lemma wrap64_add_l (a b : Z) : wrap64 (wrap64 a + b) = wrap64 (a + b).
Proof.
  unfold wrap64. f_equal.
  replace ((a + 2 ^ 63) mod 2 ^ 64 - 2 ^ 63 + b + 2 ^ 63)
    with ((a + 2 ^ 63) mod 2 ^ 64 + b) by lia.
  rewrite Zplus_mod_idemp_l. f_equal. lia.
Qed.

Lemma wrap64_add_r (a b : Z) : wrap64 (a + wrap64 b) = wrap64 (a + b).
Proof. rewrite (Z.add_comm a), wrap64_add_l. f_equal. lia. Qed.

Lemma add64_comm (a b : Z) : add64 a b = add64 b a.
Proof. unfold add64. f_equal. lia. Qed.

Lemma add64_assoc (a b c : Z) : add64 a (add64 b c) = add64 (add64 a b) c.
Proof.
  unfold add64. rewrite wrap64_add_l, wrap64_add_r. f_equal. lia.
Qed.

Lemma add64_0_l (a : Z) : in_int64 a → add64 0 a = a.
Proof. intros Ha. unfold add64. by rewrite Z.add_0_l, wrap64_id. Qed.

Lemma sub64_add64 (a b : Z) : in_int64 a → add64 (sub64 a b) b = a.
Proof.
  intros Ha. unfold add64, sub64. rewrite wrap64_add_l.
  replace (a - b + b) with a by lia. by apply wrap64_id.
Qed.

Lemma add64_exact (a b : Z) : in_int64 (a + b) → add64 a b = a + b.
Proof. apply wrap64_id. Qed.

(** ** Cost vectors *)

Lemma okCost_zero (n : nat) : okCost n (zeroCost n).
Proof.
  split; [apply length_replicate |].
  apply Forall_replicate. unfold in_int64, int64_min, int64_max. lia.
Qed.

Lemma itemAdd_comm (a b : ItemCost) : itemAdd a b = itemAdd b a.
Proof.
  revert b; induction a as [|x a IH]; intros [|y b]; simpl; try done.
  unfold itemAdd in *. simpl. by rewrite add64_comm, IH.
Qed.

Lemma itemAdd_assoc (a b c : ItemCost) :
  itemAdd a (itemAdd b c) = itemAdd (itemAdd a b) c.
Proof.
  revert b c; induction a as [|x a IH]; intros [|y b] [|z c]; simpl; try done.
  unfold itemAdd in *. simpl. by rewrite add64_assoc, IH.
Qed.

Lemma itemAdd_zero_l (n : nat) (v : ItemCost) :
  okCost n v → itemAdd (zeroCost n) v = v.
Proof.
  intros [<- Hv]. induction Hv as [|x v Hx Hv IH]; [done |].
  unfold itemAdd, zeroCost in *. simpl. by rewrite add64_0_l, IH.
Qed.

Lemma itemAdd_zero_r (n : nat) (v : ItemCost) :
  okCost n v → itemAdd v (zeroCost n) = v.
Proof. intros Hv. rewrite itemAdd_comm. by apply itemAdd_zero_l. Qed.

Lemma okCost_itemAdd (n : nat) (a b : ItemCost) :
  length a = n → length b = n → okCost n (itemAdd a b).
Proof.
  intros Ha Hb. split.
  - unfold itemAdd. rewrite length_zip_with. lia.
  - unfold itemAdd. clear. revert b.
    induction a as [|x a IH]; intros [|y b]; simpl; constructor;
      [apply wrap64_in_int64 | apply IH].
Qed.

Lemma okCost_itemSub (n : nat) (a b : ItemCost) :
  length a = n → length b = n → okCost n (itemSub a b).
Proof.
  intros Ha Hb. split.
  - unfold itemSub. rewrite length_zip_with. lia.
  - unfold itemSub. clear. revert b.
    induction a as [|x a IH]; intros [|y b]; simpl; constructor;
      [apply wrap64_in_int64 | apply IH].
Qed.

Lemma itemSub_itemAdd (n : nat) (a b : ItemCost) :
  okCost n a → length b = n → itemAdd (itemSub a b) b = a.
Proof.
  intros [<- Ha]. revert b.
  induction Ha as [|x a Hx Ha IH]; intros [|y b] Hb; simpl in *; try done.
  unfold itemAdd, itemSub in *. simpl. rewrite sub64_add64 by done.
  f_equal. apply IH. lia.
Qed.

Lemma okCost_itemCost (c : Costs) (id : N) :
  wfCosts c → okCost (numTypes c) (itemCost c id).
Proof.
  intros Hwf. unfold itemCost.
  destruct (m_costs c !! id) as [v|] eqn:E; simpl.
  - by eapply Hwf.
  - apply okCost_zero.
Qed.

Lemma okCost_length (n : nat) (v : ItemCost) : okCost n v → length v = n.
Proof. by intros [? _]. Qed.

Lemma okCost_costSum (n : nat) (l : list ItemCost) :
  Forall (okCost n) l → okCost n (costSum n l).
Proof.
  induction 1 as [|v l Hv Hl IH]; simpl; [apply okCost_zero |].
  apply okCost_itemAdd; by apply okCost_length.
Qed.

Lemma costSum_app (n : nat) (l1 l2 : list ItemCost) :
  Forall (okCost n) l2 →
  costSum n (l1 ++ l2) = itemAdd (costSum n l1) (costSum n l2).
Proof.
  intros Hl2. induction l1 as [|v l1 IH]; simpl.
  - symmetry. apply itemAdd_zero_l. by apply okCost_costSum.
  - by rewrite IH, itemAdd_assoc.
Qed.

Lemma costSum_perm (n : nat) (l1 l2 : list ItemCost) :
  l1 ≡ₚ l2 → costSum n l1 = costSum n l2.
Proof.
  induction 1 as [| v l1 l2 _ IH | v w l | l1 l2 l3 _ IH1 _ IH2]; simpl.
  - done.
  - by rewrite IH.
  - rewrite !itemAdd_assoc. f_equal. apply itemAdd_comm.
  - by rewrite IH1.
Qed.

(** ** Induction on trees *)

Lemma BottomUp_forall_ind (P : BottomUp → Prop) :
  (∀ id s children, Forall P children → P (mkBottomUp id s children)) →
  ∀ t, P t.
Proof.
  intros H. fix IH 1. intros [id s children]. apply H.
  induction children as [|c children IHc]; constructor; [apply IH | done].
Qed.

Lemma TopDown_forall_ind (P : TopDown → Prop) :
  (∀ id s children, Forall P children → P (mkTopDown id s children)) →
  ∀ t, P t.
Proof.
  intros H. fix IH 1. intros [id s children]. apply H.
  induction children as [|c children IHc]; constructor; [apply IH | done].
Qed.

(** ** The builders as folds over the leaf contributions *)

Lemma processed_app (l1 l2 : list Contribution) :
  processed (l1 ++ l2) = processed l1 ++ processed l2.
Proof. apply filter_app. Qed.

Lemma processed_singleton (c : Contribution) :
  processed [c] = if negb (itemSum c.2 =? 0) then [c] else [].
Proof.
  unfold processed. rewrite filter_cons, filter_nil.
  destruct (Z.eqb_spec (itemSum c.2) 0) as [Hz | Hnz]; simpl.
  - by rewrite decide_False by (intros Hn; by apply Hn).
  - by rewrite decide_True.
Qed.

Lemma traverse_unfold {S : Type} (costs : Costs)
    (process : Contribution → S → S) parents data (s : S) :
  traverse costs process parents data s
  = fold_left
      (fun acc row =>
         let '(childCost, s) :=
           traverse costs process (bu_symbol row :: parents) row acc.2 in
         let diff := itemSub (rowCostOf costs row) childCost in
         (itemAdd acc.1 (rowCostOf costs row),
          if negb (itemSum diff =? 0)
          then process (bu_symbol row :: parents, diff) s
          else s))
      (bu_children data) (zeroCost (numTypes costs), s).
Proof. by destruct data. Qed.

Lemma traverse_spec {S : Type} (costs : Costs)
    (process : Contribution → S → S) data :
  ∀ parents (s : S),
    traverse costs process parents data s
    = (totalCostOf costs data,
       fold_left (fun s c => process c s)
                 (processed (contributions costs parents data)) s).
Proof.
  induction data as [id sym children IH] using BottomUp_forall_ind.
  intros parents s. rewrite traverse_unfold. unfold totalCostOf. simpl.
  generalize (zeroCost (numTypes costs)) as total. revert s.
  induction IH as [|row rows Hrow _ IHrows]; intros s total; [done |].
  simpl. rewrite Hrow. simpl. rewrite IHrows. f_equal.
  rewrite !processed_app, !fold_left_app, processed_singleton. simpl.
  unfold leafDiff. by destruct (negb _).
Qed.

Lemma fold_left_ext_Forall {A B : Type} (f g : A → B → A) (l : list B) :
  Forall (fun x => ∀ a, f a x = g a x) l →
  ∀ a, fold_left f l a = fold_left g l a.
Proof.
  induction 1 as [|x l Hx _ IH]; intros a; simpl; [done |].
  by rewrite Hx, IH.
Qed.

#[local] Arguments bubbleUp : simpl never.
#[local] Arguments callerCalleeWalk : simpl never.

Lemma buildTopDownResult_traverse skipFirstLevel costs data :
  ∀ parents topDownData st,
    buildTopDownResult skipFirstLevel costs parents data topDownData st
    = traverse costs (topDownProcess skipFirstLevel) parents data
               (topDownData, st).
Proof.
  induction data as [id sym children IH] using BottomUp_forall_ind.
  intros parents topDownData st. rewrite traverse_unfold. simpl.
  apply fold_left_ext_Forall.
  eapply Forall_impl; [exact IH |].
  intros row Hrow [total [td st']]. simpl. rewrite Hrow.
  unfold rowCostOf.
  destruct (traverse _ _ _ row (td, st')) as [childCost [td1 st1]].
  destruct (negb _); [| done].
  unfold topDownProcess. simpl. by destruct (bubbleUp _ _ _ _ _).
Qed.

Lemma buildCallerCalleeResult_traverse costs data :
  ∀ parents results,
    buildCallerCalleeResult costs parents data results
    = traverse costs (callerCalleeProcess (numTypes costs)) parents data
               results.
Proof.
  induction data as [id sym children IH] using BottomUp_forall_ind.
  intros parents results. rewrite traverse_unfold. simpl.
  apply fold_left_ext_Forall.
  eapply Forall_impl; [exact IH |].
  intros row Hrow [total results']. simpl. rewrite Hrow.
  unfold rowCostOf.
  destruct (traverse _ _ _ row results') as [childCost results1].
  by destruct (negb _).
Qed.

Lemma buildTopDownResult_fold skipFirstLevel costs parents data td st :
  buildTopDownResult skipFirstLevel costs parents data td st
  = (totalCostOf costs data,
     fold_left (fun acc c => topDownProcess skipFirstLevel c acc)
               (processed (contributions costs parents data)) (td, st)).
Proof. by rewrite buildTopDownResult_traverse, traverse_spec. Qed.

Lemma buildCallerCalleeResult_fold costs parents data results :
  buildCallerCalleeResult costs parents data results
  = (totalCostOf costs data,
     fold_left (fun r c => callerCalleeProcess (numTypes costs) c r)
               (processed (contributions costs parents data)) results).
Proof. by rewrite buildCallerCalleeResult_traverse, traverse_spec. Qed.

(** ** Cost matrices *)

Lemma itemCost_costsAdd (c : Costs) (i j : N) (d : ItemCost) :
  itemCost (costsAdd c i d) j
  = if decide (i = j) then itemAdd (itemCost c i) d else itemCost c j.
Proof.
  unfold itemCost, costsAdd. simpl. rewrite lookup_insert.
  by destruct (decide (i = j)).
Qed.

Lemma itemCost_costsAdd_eq (c : Costs) (i : N) (d : ItemCost) :
  itemCost (costsAdd c i d) i = itemAdd (itemCost c i) d.
Proof. rewrite itemCost_costsAdd. by rewrite decide_True. Qed.

Lemma itemCost_costsAdd_ne (c : Costs) (i j : N) (d : ItemCost) :
  i ≠ j → itemCost (costsAdd c i d) j = itemCost c j.
Proof. intros Hne. rewrite itemCost_costsAdd. by rewrite decide_False. Qed.

Lemma wfCosts_costsAdd (c : Costs) (i : N) (d : ItemCost) :
  wfCosts c → length d = numTypes c → wfCosts (costsAdd c i d).
Proof.
  intros Hwf Hd j v. unfold costsAdd. simpl. rewrite lookup_insert.
  destruct (decide (i = j)) as [-> | Hne].
  - intros [= <-]. apply okCost_itemAdd; [| done].
    apply okCost_length. by apply okCost_itemCost.
  - apply Hwf.
Qed.

Lemma wfCosts_initialize (c : Costs) : wfCosts (initializeCostsFrom c).
Proof. intros id v. unfold initializeCostsFrom. simpl. by rewrite lookup_empty. Qed.

Lemma Forall_okCost_itemCost (c : Costs) (ids : list N) :
  wfCosts c → Forall (okCost (numTypes c)) (itemCost c <$> ids).
Proof.
  intros Hwf. induction ids as [|id ids IH]; simpl; constructor; [| done].
  by apply okCost_itemCost.
Qed.

Lemma okCost_costTotal (c : Costs) (ids : list N) :
  wfCosts c → okCost (numTypes c) (costTotal c ids).
Proof. intros Hwf. apply okCost_costSum. by apply Forall_okCost_itemCost. Qed.

Lemma costTotal_cons (c : Costs) (i : N) (ids : list N) :
  costTotal c (i :: ids) = itemAdd (itemCost c i) (costTotal c ids).
Proof. done. Qed.

Lemma costTotal_costsAdd_notin (c : Costs) (i : N) (d : ItemCost) ids :
  i ∉ ids → costTotal (costsAdd c i d) ids = costTotal c ids.
Proof.
  intros Hi. unfold costTotal. simpl. f_equal.
  apply list_fmap_ext. intros k j Hj. apply itemCost_costsAdd_ne.
  intros ->. apply Hi. by eapply list_elem_of_lookup_2.
Qed.

(** Adding [d] at an id that occurs once among [ids] adds [d] to the
    total. *)
Lemma costTotal_costsAdd (c : Costs) (i : N) (d : ItemCost) ids :
  wfCosts c → length d = numTypes c → NoDup ids → i ∈ ids →
  costTotal (costsAdd c i d) ids = itemAdd (costTotal c ids) d.
Proof.
  intros Hwf Hd Hnd Hi. induction Hnd as [|j ids Hj Hnd IH].
  - by apply elem_of_nil in Hi.
  - rewrite !costTotal_cons. apply elem_of_cons in Hi as [-> | Hi].
    + rewrite itemCost_costsAdd_eq, costTotal_costsAdd_notin by done.
      rewrite <- !itemAdd_assoc. f_equal. apply itemAdd_comm.
    + rewrite itemCost_costsAdd_ne by (intros ->; done).
      rewrite IH by done. by rewrite itemAdd_assoc.
Qed.

Lemma costTotal_app (c : Costs) (l1 l2 : list N) :
  wfCosts c →
  costTotal c (l1 ++ l2) = itemAdd (costTotal c l1) (costTotal c l2).
Proof.
  intros Hwf. unfold costTotal. rewrite fmap_app.
  apply costSum_app. by apply Forall_okCost_itemCost.
Qed.

Lemma costTotal_perm (c : Costs) (l1 l2 : list N) :
  l1 ≡ₚ l2 → costTotal c l1 = costTotal c l2.
Proof.
  intros Hp. unfold costTotal. apply costSum_perm.
  by apply fmap_Permutation.
Qed.

Lemma itemCost_fresh (c : Costs) (m id : N) :
  freshFrom c m → (m ≤ id)%N → itemCost c id = zeroCost (numTypes c).
Proof. intros Hf Hle. unfold itemCost. by rewrite Hf. Qed.

Lemma costTotal_fresh (c : Costs) (m : N) (ids : list N) :
  freshFrom c m → Forall (fun id => (m ≤ id)%N) ids →
  costTotal c ids = zeroCost (numTypes c).
Proof.
  intros Hf. induction 1 as [|id ids Hid _ IH]; [done |].
  rewrite costTotal_cons, IH, (itemCost_fresh c m) by done.
  apply itemAdd_zero_l, okCost_zero.
Qed.

Lemma freshFrom_costsAdd (c : Costs) (m m' i : N) (d : ItemCost) :
  freshFrom c m → (i < m')%N → (m ≤ m')%N → freshFrom (costsAdd c i d) m'.
Proof.
  intros Hf Hi Hm id Hid. unfold costsAdd. simpl.
  rewrite lookup_insert_ne by lia. apply Hf. lia.
Qed.

(** ** Per-library aggregation *)

Lemma buildPerLibrary_unfold costs node acc :
  buildPerLibrary costs node acc
  = fold_left
      (fun acc child => buildPerLibrary costs child (perLibraryStep costs acc child))
      (td_children node) acc.
Proof.
  destruct node as [id s children]. simpl.
  apply fold_left_ext_Forall, Forall_forall.
  intros child _ [results index]. unfold perLibraryStep.
  by destruct (index !! binary (td_symbol child)).
Qed.

Lemma buildPerLibrary_fold costs node :
  ∀ acc, buildPerLibrary costs node acc
         = fold_left (perLibraryStep costs) (tdNodes node) acc.
Proof.
  induction node as [id s children IH] using TopDown_forall_ind.
  intros acc. rewrite buildPerLibrary_unfold. simpl. revert acc.
  induction IH as [|child children Hchild _ IHchildren]; intros acc; [done |].
  simpl. rewrite fold_left_app, <- Hchild. apply IHchildren.
Qed.

Lemma NoDup_fmap_inj_on {A B : Type} (f : A → B) (l : list A) (x y : A) :
  NoDup (f <$> l) → x ∈ l → y ∈ l → f x = f y → x = y.
Proof.
  induction l as [|z l IH]; simpl; intros Hnd Hx Hy Hf.
  - by apply elem_of_nil in Hx.
  - apply NoDup_cons in Hnd as [Hz Hnd].
    apply elem_of_cons in Hx as [-> | Hx];
      apply elem_of_cons in Hy as [-> | Hy]; try done.
    + exfalso. apply Hz. rewrite Hf. by apply list_elem_of_fmap_2.
    + exfalso. apply Hz. rewrite <- Hf. by apply list_elem_of_fmap_2.
    + by apply IH.
Qed.

Lemma NoDup_index_ids (n : nat) : NoDup (N.of_nat <$> seq 0 n).
Proof. apply (NoDup_fmap_2 N.of_nat), NoDup_seq. Qed.

Lemma elem_of_index_ids (n : nat) (i : N) :
  i ∈ N.of_nat <$> seq 0 n ↔ (i < N.of_nat n)%N.
Proof.
  rewrite list_elem_of_fmap. split.
  - intros (k & -> & Hk). apply elem_of_seq in Hk. lia.
  - intros Hi. exists (N.to_nat i). split; [lia |]. apply elem_of_seq. lia.
Qed.

Lemma costSum_snoc (n : nat) (l : list ItemCost) (v : ItemCost) :
  okCost n v → costSum n (l ++ [v]) = itemAdd (costSum n l) v.
Proof.
  intros Hv. rewrite costSum_app by (by constructor). simpl.
  by rewrite (itemAdd_zero_r n v).
Qed.

Lemma perLibraryInv_init (costs : Costs) :
  perLibraryInv costs []
    (mkPerLibraryResults [] (initializeCostsFrom costs), ∅).
Proof.
  unfold perLibraryInv. simpl. split_and!; try done.
  - intros b i. rewrite lookup_empty. split; [done |].
    intros H. by apply elem_of_nil in H.
  - intros lib H. by apply elem_of_nil in H.
  - intros node H. by apply elem_of_nil in H.
Qed.

Lemma perLibraryInv_index_inj costs visited results index b1 b2 i :
  perLibraryInv costs visited (results, index) →
  index !! b1 = Some i → index !! b2 = Some i → b1 = b2.
Proof.
  intros (_ & _ & _ & Hids & Hidx & _) H1 H2.
  apply Hidx in H1, H2. simpl in *.
  assert (Heq : mkPerLibrary i (SymbolOfBinary b1)
                = mkPerLibrary i (SymbolOfBinary b2)).
  { apply (NoDup_fmap_inj_on pl_id (pl_root results)); try done.
    rewrite Hids. apply NoDup_index_ids. }
  by injection Heq.
Qed.

Lemma perLibraryInv_index_bound costs visited results index b i :
  perLibraryInv costs visited (results, index) →
  index !! b = Some i → (i < N.of_nat (size index))%N.
Proof.
  intros (_ & _ & _ & Hids & Hidx & _) H1. simpl in *.
  apply Hidx in H1. apply elem_of_index_ids. rewrite <- Hids.
  by apply (list_elem_of_fmap_2 pl_id) in H1.
Qed.

Lemma filter_binary_snoc (b : string) (visited : list TopDown) (node : TopDown) :
  filter (fun node => binary (td_symbol node) = b) (visited ++ [node])
  = filter (fun node => binary (td_symbol node) = b) visited
    ++ (if decide (binary (td_symbol node) = b) then [node] else []).
Proof.
  rewrite filter_app, filter_cons, filter_nil.
  by destruct (decide (binary (td_symbol node) = b)).
Qed.

Lemma SymbolOfBinary_inj (b1 b2 : string) :
  SymbolOfBinary b1 = SymbolOfBinary b2 → b1 = b2.
Proof. by intros [= ->]. Qed.

Lemma perLibraryInv_step costs visited acc node :
  wfCosts costs →
  perLibraryInv costs visited acc →
  perLibraryInv costs (visited ++ [node]) (perLibraryStep costs acc node).
Proof.
  intros Hwfc Hinv. destruct acc as [results index].
  pose proof (fun b1 b2 i => perLibraryInv_index_inj _ _ _ _ b1 b2 i Hinv) as Hinj.
  pose proof (fun b i => perLibraryInv_index_bound _ _ _ _ b i Hinv) as Hbound.
  destruct Hinv as (Hn & Hwf & Hfresh & Hids & Hidx & Hform & Hvis & Hcost & Htot).
  simpl in *.
  assert (Hc0 : okCost (numTypes costs) (nodeCost costs node))
    by by apply okCost_itemCost.
  pose proof (okCost_length _ _ Hc0) as Hlen0.
  unfold perLibraryStep.
  destruct (index !! binary (td_symbol node)) as [i0|] eqn:Hlook.
  - (* the library is known *)
    unfold perLibraryInv. simpl. split_and!; try done.
    + apply wfCosts_costsAdd; [done | by rewrite Hn].
    + eapply freshFrom_costsAdd; [done | by eapply Hbound | lia].
    + intros node' [Hin | ->%list_elem_of_singleton]%elem_of_app;
        [by apply Hvis | by rewrite Hlook].
    + intros b i Hb. rewrite filter_binary_snoc, fmap_app.
      destruct (decide (binary (td_symbol node) = b)) as [<- | Hne].
      * assert (i = i0) as -> by congruence.
        rewrite itemCost_costsAdd_eq, (Hcost _ _ Hb). simpl.
        by rewrite costSum_snoc.
      * rewrite itemCost_costsAdd_ne, (Hcost _ _ Hb).
        -- simpl. by rewrite app_nil_r.
        -- intros ->. apply Hne. by eapply Hinj.
    + rewrite fmap_app. simpl. rewrite costSum_snoc by done.
      rewrite <- Htot. apply costTotal_costsAdd; try done.
      * by rewrite Hn.
      * rewrite Hids. apply NoDup_index_ids.
      * rewrite Hids. apply elem_of_index_ids. by eapply Hbound.
  - (* a new library *)
    assert (Hsize : size (<[binary (td_symbol node) := N.of_nat (size index)]> index)
                    = Datatypes.S (size index)) by by apply map_size_insert_None.
    unfold perLibraryInv. simpl. rewrite Hsize. split_and!; try done.
    + apply wfCosts_costsAdd; [done | by rewrite Hn].
    + eapply freshFrom_costsAdd; [done | lia | lia].
    + rewrite fmap_app, seq_S, fmap_app, Hids. done.
    + intros b i. rewrite elem_of_app, list_elem_of_singleton, <- Hidx.
      rewrite lookup_insert.
      destruct (decide (binary (td_symbol node) = b)) as [<- | Hne].
      * split; [intros [= <-]; by right |].
        intros [Hold | [= ->]]; [congruence | done].
      * split; [by left |].
        intros [Hold | [= -> Hb]]; [done | congruence].
    + intros lib [Hin | ->%list_elem_of_singleton]%elem_of_app;
        [by apply Hform | by eexists].
    + intros node' [Hin | ->%list_elem_of_singleton]%elem_of_app.
      * rewrite lookup_insert. case_decide; [by eexists | by apply Hvis].
      * rewrite lookup_insert_eq. by eexists.
    + intros b i. rewrite lookup_insert, filter_binary_snoc, fmap_app.
      destruct (decide (binary (td_symbol node) = b)) as [<- | Hne].
      * intros [= <-]. rewrite itemCost_costsAdd_eq.
        rewrite (itemCost_fresh _ _ _ Hfresh) by lia. rewrite Hn.
        rewrite itemAdd_zero_l by done.
        assert (Hnil : filter (fun n' => binary (td_symbol n')
                                         = binary (td_symbol node)) visited = []).
        { clear -Hvis Hlook. induction visited as [|n' visited IHv]; [done |].
          rewrite filter_cons. case_decide as Hb.
          - destruct (Hvis n') as [j Hj]; [by left | congruence].
          - apply IHv. intros n'' Hn''. apply Hvis. by right. }
        rewrite Hnil. simpl. by rewrite (itemAdd_zero_r _ _ Hc0).
      * intros Hb. rewrite itemCost_costsAdd_ne, (Hcost _ _ Hb).
        -- simpl. by rewrite app_nil_r.
        -- apply Hbound in Hb. lia.
    + rewrite (fmap_app _ visited). simpl. rewrite costSum_snoc by done.
      rewrite <- Htot, fmap_app. simpl.
      rewrite costTotal_costsAdd; try done.
      * rewrite costTotal_app by done. f_equal.
        rewrite (costTotal_fresh _ (N.of_nat (size index))
                   [N.of_nat (size index)]); try done.
        -- apply itemAdd_zero_r. by apply okCost_costTotal.
        -- constructor; [lia | constructor].
      * by rewrite Hn.
      * rewrite Hids. change [N.of_nat (size index)]
          with (N.of_nat <$> [size index]).
        rewrite <- fmap_app, <- seq_S. apply NoDup_index_ids.
      * apply elem_of_app. right. by apply list_elem_of_singleton.
Qed.

Lemma perLibraryInv_fold costs nodes :
  wfCosts costs →
  ∀ visited acc,
    perLibraryInv costs visited acc →
    perLibraryInv costs (visited ++ nodes)
                  (fold_left (perLibraryStep costs) nodes acc).
Proof.
  intros Hwf. induction nodes as [|node nodes IH]; intros visited acc Hinv.
  - by rewrite app_nil_r.
  - simpl. replace (visited ++ node :: nodes)
      with ((visited ++ [node]) ++ nodes) by by rewrite <- app_assoc.
    apply IH. by apply perLibraryInv_step.
Qed.

Lemma fold_perLibraryStep_fst costs nodes results index :
  ∃ index', fold_left (perLibraryStep costs) nodes (results, index)
            = ((fold_left (perLibraryStep costs) nodes (results, index)).1,
               index').
Proof. eexists. apply surjective_pairing. Qed.

(** C6: the per-library aggregator adds the self cost of every top-down
    node, at any depth, to the one library entry keyed by the binary name
    of the node; hence the per-library costs over all library entries sum
    to the self costs over all nodes of the top-down tree. *)
Theorem per_library_costs_sum_to_self_costs (topDownData : TopDownResults) :
  wfCosts (td_selfCosts topDownData) →
  let results := fromTopDown topDownData in
  let selfCosts := td_selfCosts topDownData in
  let root := td_root topDownData in
  (∀ node, node ∈ tdNodes root →
     ∃ lib, lib ∈ pl_root results
            ∧ pl_symbol lib = SymbolOfBinary (binary (td_symbol node)))
  ∧ (∀ lib, lib ∈ pl_root results →
       itemCost (pl_costs results) (pl_id lib)
       = costTotal selfCosts (td_id <$> nodesOfLibrary lib root))
  ∧ NoDup (pl_id <$> pl_root results)
  ∧ costTotal (pl_costs results) (pl_id <$> pl_root results)
    = costTotal selfCosts (tdIds root).
Proof.
  intros Hwf results selfCosts root. subst results selfCosts root.
  pose proof (perLibraryInv_fold (td_selfCosts topDownData)
                (tdNodes (td_root topDownData)) Hwf [] _
                (perLibraryInv_init (td_selfCosts topDownData))) as Hinv.
  simpl in Hinv. rewrite <- buildPerLibrary_fold in Hinv.
  unfold fromTopDown.
  destruct (buildPerLibrary _ _ _) as [res index].
  destruct Hinv as (Hn & Hwf' & Hfresh & Hids & Hidx & Hform & Hvis & Hcost & Htot).
  simpl in *. split_and!.
  - intros node Hnode. destruct (Hvis _ Hnode) as [i Hi].
    exists (mkPerLibrary i (SymbolOfBinary (binary (td_symbol node)))).
    split; [by apply Hidx | done].
  - intros lib Hlib. destruct (Hform _ Hlib) as [b Hb].
    rewrite Hb in Hlib. apply Hidx in Hlib.
    rewrite (Hcost _ _ Hlib). unfold costTotal, nodesOfLibrary.
    rewrite <- list_fmap_compose. f_equal. rewrite Hb. simpl.
    f_equal. apply list_filter_iff. intros node. split.
    + by intros ->.
    + apply SymbolOfBinary_inj.
  - rewrite Hids. apply NoDup_index_ids.
  - rewrite Htot. unfold costTotal, tdIds. by rewrite <- list_fmap_compose.
Qed.

(** ** The top-down walk *)

Lemma bubbleUp_cons skipFirstLevel diff sym parents stack st :
  bubbleUp skipFirstLevel diff (sym :: parents) stack st
  = let '((before, frame, after), maxId) :=
      entryForSymbol stack sym (bs_maxId st) in
    let inclusiveCosts := costsAdd (bs_inclusiveCosts st) (td_id frame) diff in
    if isLastNode skipFirstLevel parents then
      (mkTopDown (td_id stack) (td_symbol stack) (before ++ frame :: after),
       mkBuildState inclusiveCosts
                    (costsAdd (bs_selfCosts st) (td_id frame) diff) maxId)
    else
      let '(frame, st) :=
        bubbleUp skipFirstLevel diff parents frame
                 (mkBuildState inclusiveCosts (bs_selfCosts st) maxId) in
      (mkTopDown (td_id stack) (td_symbol stack) (before ++ frame :: after),
       st).
Proof. reflexivity. Qed.

Lemma splitAtSymbol_Some children s before frame after :
  splitAtSymbol children s = Some (before, frame, after) →
  children = before ++ frame :: after ∧ td_symbol frame = s.
Proof.
  revert before. induction children as [|row rest IH]; intros before; simpl.
  - done.
  - destruct (decide (td_symbol row = s)) as [Hs | Hs].
    + by intros [= <- <- <-].
    + destruct (splitAtSymbol rest s) as [[[b f] a]|]; [| done].
      intros [= <- <- <-]. destruct (IH b eq_refl) as [-> Hf]. done.
Qed.

(** The two outcomes of [entryForSymbol]: the child exists, or it is
    appended with the id [maxId]. *)
Lemma entryForSymbol_spec node s maxId before frame after maxId' :
  entryForSymbol node s maxId = ((before, frame, after), maxId') →
  td_symbol frame = s
  ∧ ((td_children node = before ++ frame :: after ∧ maxId' = maxId)
     ∨ (before = td_children node ∧ after = []
        ∧ frame = mkTopDown maxId s [] ∧ maxId' = (maxId + 1)%N)).
Proof.
  unfold entryForSymbol.
  destruct (splitAtSymbol (td_children node) s) as [[[b f] a]|] eqn:E.
  - intros [= <- <- <- <-]. apply splitAtSymbol_Some in E as [E1 E2].
    split; [done | by left].
  - intros [= <- <- <- <-]. split; [done | by right].
Qed.

Lemma tdIds_unfold id s children :
  tdIds (mkTopDown id s children) = forestIds children.
Proof. done. Qed.

Lemma tdIds_children node : tdIds node = forestIds (td_children node).
Proof. by destruct node. Qed.

Lemma forestIds_nil : forestIds [] = [].
Proof. done. Qed.

Lemma forestIds_cons child children :
  forestIds (child :: children)
  = td_id child :: tdIds child ++ forestIds children.
Proof. unfold forestIds, tdIds. simpl. by rewrite fmap_app. Qed.

Lemma forestIds_app l1 l2 : forestIds (l1 ++ l2) = forestIds l1 ++ forestIds l2.
Proof. unfold forestIds. by rewrite flat_map_app, fmap_app. Qed.

Lemma idRange_nil a : idRange a a = [].
Proof. unfold idRange. by rewrite Nat.sub_diag. Qed.

Lemma idRange_cons a b : (a < b)%N → idRange a b = a :: idRange (a + 1) b.
Proof.
  intros Hab. unfold idRange.
  replace (N.to_nat b - N.to_nat a)%nat
    with (Datatypes.S (N.to_nat b - N.to_nat (a + 1))) by lia.
  simpl. rewrite N2Nat.id. do 3 f_equal. lia.
Qed.

Lemma elem_of_idRange a b i : i ∈ idRange a b ↔ (a ≤ i < b)%N.
Proof.
  unfold idRange. rewrite list_elem_of_fmap. split.
  - intros (k & -> & Hk). apply elem_of_seq in Hk. lia.
  - intros Hi. exists (N.to_nat i). split; [lia |]. apply elem_of_seq. lia.
Qed.

Lemma NoDup_idRange a b : NoDup (idRange a b).
Proof. apply (NoDup_fmap_2 N.of_nat), NoDup_seq. Qed.

Lemma idRange_app a b c :
  (a ≤ b)%N → (b ≤ c)%N → idRange a c = idRange a b ++ idRange b c.
Proof.
  intros Hab Hbc. unfold idRange. rewrite <- fmap_app. f_equal.
  replace (N.to_nat c - N.to_nat a)%nat
    with ((N.to_nat b - N.to_nat a) + (N.to_nat c - N.to_nat b))%nat by lia.
  rewrite seq_app. do 2 f_equal. lia.
Qed.

Lemma last_cons_cons {A} (x y : A) l : last (x :: y :: l) = last (y :: l).
Proof. done. Qed.

(** What one walk does: the visited ancestors are found or created along
    a path below the cursor; every node on the path has [diff] added to its
    inclusive cost, the last one also to its self cost; the nodes created
    get the ids from the old to the new [maxId]. *)
Lemma bubbleUp_spec skipFirstLevel diff node :
  node ≠ [] →
  ∀ stack st,
  ∃ path x,
    let r := bubbleUp skipFirstLevel diff node stack st in
    pathIn r.1 (visitedChain skipFirstLevel node) path
    ∧ last path = Some x
    ∧ bs_inclusiveCosts r.2
      = fold_left (fun c id => costsAdd c id diff) path (bs_inclusiveCosts st)
    ∧ bs_selfCosts r.2 = costsAdd (bs_selfCosts st) x diff
    ∧ (bs_maxId st ≤ bs_maxId r.2)%N
    ∧ tdIds r.1 ≡ₚ tdIds stack ++ idRange (bs_maxId st) (bs_maxId r.2)
    ∧ td_id r.1 = td_id stack
    ∧ td_symbol r.1 = td_symbol stack
    ∧ ∃ x0 rest,
        path = x0 :: rest
        ∧ ((x0 ∈ childIds stack ∧ childIds r.1 = childIds stack)
           ∨ (x0 = bs_maxId st ∧ childIds r.1 = childIds stack ++ [x0])).
Proof.
  induction node as [|sym parents IH]; [done |]. intros _ stack st.
  rewrite bubbleUp_cons.
  destruct (entryForSymbol stack sym (bs_maxId st))
    as [[[before frame] after] maxId] eqn:Hentry.
  apply entryForSymbol_spec in Hentry as [Hsym Hcases].
  assert (Hids : tdIds stack ++ idRange (bs_maxId st) maxId
                 ≡ₚ forestIds before ++ td_id frame :: tdIds frame
                    ++ forestIds after
                 ∧ (bs_maxId st ≤ maxId)%N).
  { destruct Hcases as [[Hch ->] | (-> & -> & -> & ->)].
    - rewrite idRange_nil, app_nil_r, tdIds_children, Hch.
      by rewrite forestIds_app, forestIds_cons.
    - rewrite idRange_cons, idRange_nil by lia. simpl.
      rewrite forestIds_nil, tdIds_children. split; [done | lia]. }
  destruct Hids as [Hids Hle].
  assert (Hchild : ∀ frame',
             td_id frame' = td_id frame →
             (td_id frame ∈ childIds stack
              ∧ td_id <$> (before ++ frame' :: after) = childIds stack)
             ∨ (td_id frame = bs_maxId st
                ∧ td_id <$> (before ++ frame' :: after)
                  = childIds stack ++ [td_id frame])).
  { intros frame' Hid'. unfold childIds.
    destruct Hcases as [[Hch ->] | (-> & -> & -> & ->)].
    - left. rewrite Hch, !fmap_app, !fmap_cons, Hid'. split; [| done].
      apply elem_of_app. right. by left.
    - right. rewrite fmap_app. simpl. by rewrite Hid'. }
  simpl.
  destruct (isLastNode skipFirstLevel parents) eqn:Hlast.
  - exists [td_id frame], (td_id frame). simpl. split_and!; try done.
    + exists frame. split_and!; try done.
      apply elem_of_app. right. by left.
    + rewrite tdIds_unfold, forestIds_app, forestIds_cons. by rewrite Hids.
    + exists (td_id frame), []. split; [done |]. by apply Hchild.
  - assert (Hne : parents ≠ []) by (by destruct parents).
    destruct (IH Hne frame
                (mkBuildState (costsAdd (bs_inclusiveCosts st) (td_id frame) diff)
                              (bs_selfCosts st) maxId))
      as (path & x & Hpath & Hx & Hincl & Hself & Hmax & Hperm & Hid & Hs & _).
    destruct (bubbleUp skipFirstLevel diff parents frame _) as [frame' st'].
    simpl in *.
    exists (td_id frame :: path), x. split_and!; try done.
    + exists frame'. split_and!; try done; [| congruence].
      apply elem_of_app. right. by left.
    + destruct path; [done | done].
    + lia.
    + rewrite tdIds_unfold, forestIds_app, forestIds_cons, Hperm, Hid.
      rewrite (idRange_app (bs_maxId st) maxId (bs_maxId st')) by done.
      rewrite (app_assoc (tdIds stack)), Hids.
      rewrite <- !app_assoc. simpl. rewrite <- !app_assoc.
      apply Permutation_app_head. constructor.
      apply Permutation_app_head. apply Permutation_app_comm.
    + exists (td_id frame), path. split; [done |]. by apply Hchild.
Qed.

Lemma tdIds_child_split node frame :
  frame ∈ td_children node →
  ∃ l1 l2, tdIds node = l1 ++ td_id frame :: tdIds frame ++ l2.
Proof.
  intros Hin. apply list_elem_of_split in Hin as (c1 & c2 & Hc).
  exists (forestIds c1), (forestIds c2).
  by rewrite tdIds_children, Hc, forestIds_app, forestIds_cons.
Qed.

(** In a tree without duplicate ids the ids on a path are distinct and
    belong to the tree. *)
Lemma pathIn_NoDup syms :
  ∀ node path,
    NoDup (tdIds node) → pathIn node syms path →
    NoDup path ∧ path ⊆ tdIds node.
Proof.
  induction syms as [|s syms IH]; intros node [|i path] Hnd Hpath;
    simpl in Hpath; try done.
  - split; [constructor | set_solver].
  - destruct Hpath as (frame & Hin & _ & <- & Hpath).
    destruct (tdIds_child_split _ _ Hin) as (l1 & l2 & Hsplit).
    rewrite Hsplit in Hnd |- *.
    assert (Hnd' : NoDup (td_id frame :: tdIds frame)).
    { apply NoDup_app in Hnd as (_ & _ & Hnd).
      rewrite app_comm_cons in Hnd. by apply NoDup_app in Hnd as (Hnd & _). }
    apply NoDup_cons in Hnd' as [Hnotin Hnd'].
    destruct (IH frame path Hnd' Hpath) as [Hndp Hsub].
    split.
    + constructor; [| done]. intros Hi. by apply Hnotin, Hsub.
    + intros j [-> | Hj]%elem_of_cons.
      * apply elem_of_app. right. by left.
      * apply elem_of_app. right. right. apply elem_of_app. left. by apply Hsub.
Qed.

Lemma fold_costsAdd_itemCost diff path :
  ∀ c id,
    NoDup path →
    itemCost (fold_left (fun c id => costsAdd c id diff) path c) id
    = if decide (id ∈ path) then itemAdd (itemCost c id) diff
      else itemCost c id.
Proof.
  induction path as [|i path IH]; intros c id Hnd; cbn [fold_left].
  - rewrite decide_False; [done | set_solver].
  - apply NoDup_cons in Hnd as [Hi Hnd]. rewrite IH by done.
    destruct (decide (id ∈ path)) as [Hin | Hnin].
    + rewrite decide_True by (by right).
      rewrite itemCost_costsAdd_ne; [done | by intros ->].
    + destruct (decide (i = id)) as [-> | Hne].
      * rewrite decide_True by (by left). apply itemCost_costsAdd_eq.
      * rewrite decide_False by (intros [-> | ?]%elem_of_cons; done).
        by apply itemCost_costsAdd_ne.
Qed.

Lemma fold_costsAdd_numTypes diff path :
  ∀ c, numTypes (fold_left (fun c id => costsAdd c id diff) path c)
       = numTypes c.
Proof. induction path as [|i path IH]; intros c; simpl; [done | by rewrite IH]. Qed.

Lemma visitedChain_false node : visitedChain false node = node.
Proof.
  induction node as [|s [|p parents] IH]; try done.
  change (visitedChain false (s :: p :: parents))
    with (s :: (if isLastNode false (p :: parents) then []
                else visitedChain false (p :: parents))).
  rewrite IH. by destruct parents.
Qed.

Lemma visitedChain_true node :
  visitedChain true node
  = match node with
    | [_] => node
    | _ => removelast node
    end.
Proof.
  induction node as [|s [|p [|q parents]] IH]; try done.
  change (visitedChain true (s :: p :: q :: parents))
    with (s :: visitedChain true (p :: q :: parents)).
  rewrite IH. done.
Qed.

(** The costs after one walk, id by id. *)
Lemma bubbleUp_costs skipFirstLevel diff node stack st :
  node ≠ [] →
  NoDup (tdIds stack) →
  Forall (fun id => (id < bs_maxId st)%N) (tdIds stack) →
  let r := bubbleUp skipFirstLevel diff node stack st in
  ∃ path lastId,
    pathIn r.1 (visitedChain skipFirstLevel node) path
    ∧ last path = Some lastId
    ∧ NoDup path
    ∧ (∀ id, itemCost (bs_inclusiveCosts r.2) id
             = if decide (id ∈ path)
               then itemAdd (itemCost (bs_inclusiveCosts st) id) diff
               else itemCost (bs_inclusiveCosts st) id)
    ∧ (∀ id, itemCost (bs_selfCosts r.2) id
             = if decide (id = lastId)
               then itemAdd (itemCost (bs_selfCosts st) id) diff
               else itemCost (bs_selfCosts st) id).
Proof.
  intros Hne Hnd Hlt r.
  destruct (bubbleUp_spec skipFirstLevel diff node Hne stack st)
    as (path & x & Hpath & Hx & Hincl & Hself & Hmax & Hperm & _).
  fold r in Hpath, Hincl, Hself, Hmax, Hperm.
  assert (Hnd' : NoDup (tdIds r.1)).
  { rewrite Hperm. apply NoDup_app. split_and!; [done | | apply NoDup_idRange].
    intros id Hid Hr. apply elem_of_idRange in Hr.
    rewrite Forall_forall in Hlt. specialize (Hlt _ Hid). lia. }
  destruct (pathIn_NoDup _ _ _ Hnd' Hpath) as [Hndp _].
  exists path, x. split_and!; try done.
  - intros id. rewrite Hincl. by apply fold_costsAdd_itemCost.
  - intros id. rewrite Hself, itemCost_costsAdd.
    destruct (decide (x = id)) as [-> | Hne'].
    + by rewrite decide_True.
    + rewrite decide_False; [done | by intros ->].
Qed.

(** C2: in the parent-chain walk of the top-down builder every visited
    ancestor gets [diff] added to its inclusive cost, and only the last
    visited ancestor (the one without a parent, or with [skipFirstLevel]
    the one whose parent has no parent) gets [diff] added to its self
    cost; the walk stops there. *)
Theorem top_down_walk_credits
    (skipFirstLevel : bool) (diff : ItemCost) (node : list Symbol)
    (stack : TopDown) (st : BuildState) :
  node ≠ [] →
  NoDup (tdIds stack) →
  Forall (fun id => (id < bs_maxId st)%N) (tdIds stack) →
  let r := bubbleUp skipFirstLevel diff node stack st in
  visitedChain skipFirstLevel node
  = (if skipFirstLevel && bool_decide (2 ≤ length node)%nat
     then removelast node else node)
  ∧ ∃ path lastId,
      pathIn r.1 (visitedChain skipFirstLevel node) path
      ∧ last path = Some lastId
      ∧ NoDup path
      ∧ (∀ id, itemCost (bs_inclusiveCosts r.2) id
               = if decide (id ∈ path)
                 then itemAdd (itemCost (bs_inclusiveCosts st) id) diff
                 else itemCost (bs_inclusiveCosts st) id)
      ∧ (∀ id, itemCost (bs_selfCosts r.2) id
               = if decide (id = lastId)
                 then itemAdd (itemCost (bs_selfCosts st) id) diff
                 else itemCost (bs_selfCosts st) id).
Proof.
  intros Hne Hnd Hlt r. split.
  - destruct skipFirstLevel; simpl.
    + rewrite visitedChain_true. destruct node as [|s [|p parents]]; try done.
    + apply visitedChain_false.
  - by apply bubbleUp_costs.
Qed.

(** ** Conservation of cost in the top-down tree *)

Lemma fold_costsAdd_wf diff path :
  ∀ c, wfCosts c → length diff = numTypes c →
       wfCosts (fold_left (fun c id => costsAdd c id diff) path c).
Proof.
  induction path as [|i path IH]; intros c Hwf Hd; simpl; [done |].
  apply IH; [by apply wfCosts_costsAdd | done].
Qed.

Lemma freshFrom_mono c m m' : freshFrom c m → (m ≤ m')%N → freshFrom c m'.
Proof. intros Hf Hm id Hid. apply Hf. lia. Qed.

Lemma fold_costsAdd_fresh diff path m :
  ∀ c, freshFrom c m → Forall (fun id => (id < m)%N) path →
       freshFrom (fold_left (fun c id => costsAdd c id diff) path c) m.
Proof.
  induction path as [|i path IH]; intros c Hf Hp; simpl; [done |].
  apply Forall_cons in Hp as [Hi Hp]. apply IH; [| done].
  eapply freshFrom_costsAdd; [done | done | lia].
Qed.

Lemma bubbleUp_inv n outside skipFirstLevel diff node stack st :
  tdInv n outside stack st → node ≠ [] → length diff = n →
  let r := bubbleUp skipFirstLevel diff node stack st in
  tdInv n outside r.1 r.2
  ∧ td_id r.1 = td_id stack
  ∧ td_symbol r.1 = td_symbol stack
  ∧ costTotal (bs_selfCosts r.2) (outside ++ tdIds r.1)
    = itemAdd (costTotal (bs_selfCosts st) (outside ++ tdIds stack)) diff.
Proof.
  intros (Hnd & Hlt & Hfs & Hfi & Hws & Hwi & Hns & Hni) Hne Hd r.
  destruct (bubbleUp_spec skipFirstLevel diff node Hne stack st)
    as (path & x & Hpath & Hx & Hincl & Hself & Hmax & Hperm & Hid & Hsym & _).
  fold r in Hpath, Hincl, Hself, Hmax, Hperm, Hid, Hsym.
  assert (Hperm' : outside ++ tdIds r.1
                   ≡ₚ (outside ++ tdIds stack)
                      ++ idRange (bs_maxId st) (bs_maxId r.2)).
  { rewrite Hperm. by rewrite app_assoc. }
  assert (Hnd' : NoDup (outside ++ tdIds r.1)).
  { rewrite Hperm'. apply NoDup_app. split_and!; [done | | apply NoDup_idRange].
    intros id Hin Hr. apply elem_of_idRange in Hr.
    rewrite Forall_forall in Hlt. specialize (Hlt _ Hin). lia. }
  assert (Hlt' : Forall (fun id => (id < bs_maxId r.2)%N) (outside ++ tdIds r.1)).
  { rewrite Hperm'. apply Forall_app. split.
    - eapply Forall_impl; [exact Hlt |]. simpl. lia.
    - apply Forall_forall. intros id Hr. apply elem_of_idRange in Hr. lia. }
  assert (Hndr : NoDup (tdIds r.1)) by by apply NoDup_app in Hnd' as (_ & _ & ?).
  destruct (pathIn_NoDup _ _ _ Hndr Hpath) as [Hndp Hsub].
  assert (Hpathlt : Forall (fun id => (id < bs_maxId r.2)%N) path).
  { apply Forall_forall. intros id Hin. rewrite Forall_forall in Hlt'.
    apply Hlt', elem_of_app. right. by apply Hsub. }
  assert (Hxin : x ∈ path).
  { clear -Hx. induction path as [|i [|j path] IH]; simpl in *.
    - done.
    - injection Hx as ->. by left.
    - right. by apply IH. }
  split_and!; try done.
  - split_and!; try done.
    + rewrite Hself. eapply freshFrom_costsAdd; [done | | done].
      rewrite Forall_forall in Hpathlt. by apply Hpathlt.
    + rewrite Hincl. apply fold_costsAdd_fresh; [| done].
      by eapply freshFrom_mono.
    + rewrite Hself. apply wfCosts_costsAdd; [done | by rewrite Hns].
    + rewrite Hincl. apply fold_costsAdd_wf; [done | by rewrite Hni].
    + by rewrite Hself.
    + by rewrite Hincl, fold_costsAdd_numTypes.
  - rewrite Hself. rewrite costTotal_costsAdd; try done.
    + f_equal. rewrite (costTotal_perm _ _ _ Hperm').
      rewrite costTotal_app by done.
      rewrite (costTotal_fresh _ (bs_maxId st) (idRange _ _)); try done.
      * apply itemAdd_zero_r. by apply okCost_costTotal.
      * apply Forall_forall. intros id Hr. apply elem_of_idRange in Hr. lia.
    + by rewrite Hns.
    + apply elem_of_app. right. by apply Hsub.
Qed.

(** Folding the walk over a list of contributions. *)
Lemma fold_bubbleUp_inv n outside skipFirstLevel (cs : list Contribution) :
  Forall (fun c => c.1 ≠ [] ∧ okCost n c.2) cs →
  ∀ stack st,
    tdInv n outside stack st →
    let r := fold_left (fun acc c => topDownProcess skipFirstLevel c acc)
                       cs (stack, st) in
    tdInv n outside r.1 r.2
    ∧ td_id r.1 = td_id stack
    ∧ td_symbol r.1 = td_symbol stack
    ∧ costTotal (bs_selfCosts r.2) (outside ++ tdIds r.1)
      = itemAdd (costTotal (bs_selfCosts st) (outside ++ tdIds stack))
                (costSum n (snd <$> cs)).
Proof.
  induction 1 as [|c cs [Hc1 Hc2] _ IH]; intros stack st Hinv; cbn [fold_left].
  - simpl. split_and!; try done. symmetry.
    destruct Hinv as (_ & _ & _ & _ & Hws & _ & Hns & _).
    apply itemAdd_zero_r. rewrite <- Hns. by apply okCost_costTotal.
  - change (topDownProcess skipFirstLevel c (stack, st))
      with (bubbleUp skipFirstLevel c.2 c.1 stack st).
    destruct (bubbleUp_inv n outside skipFirstLevel c.2 c.1 stack st Hinv Hc1
                (okCost_length _ _ Hc2)) as (Hinv' & Hid & Hsym & Htot).
    destruct (bubbleUp skipFirstLevel c.2 c.1 stack st) as [stack' st'].
    simpl in Hinv', Hid, Hsym, Htot.
    destruct (IH stack' st' Hinv') as (Hinv'' & Hid' & Hsym' & Htot').
    split_and!; try done; try congruence.
    rewrite Htot', Htot. simpl. by rewrite itemAdd_assoc.
Qed.

(** The contributions of a well-formed input have a chain and [n]
    categories. *)
Lemma totalCostOf_length costs data :
  wfCosts costs → length (totalCostOf costs data) = numTypes costs.
Proof.
  intros Hwf. unfold totalCostOf.
  assert (Hz : length (zeroCost (numTypes costs)) = numTypes costs)
    by apply length_replicate.
  revert Hz. generalize (zeroCost (numTypes costs)) as t.
  induction (bu_children data) as [|row rows IH]; intros t Ht; simpl; [done |].
  apply IH. unfold itemAdd. rewrite length_zip_with.
  pose proof (okCost_length _ _ (okCost_itemCost costs (bu_id row) Hwf)).
  unfold rowCostOf. lia.
Qed.

Lemma okCost_leafDiff costs row :
  wfCosts costs → okCost (numTypes costs) (leafDiff costs row).
Proof.
  intros Hwf. apply okCost_itemSub.
  - apply okCost_length. by apply okCost_itemCost.
  - by apply totalCostOf_length.
Qed.

Lemma contributions_unfold costs parents data :
  contributions costs parents data
  = flat_map
      (fun row =>
         contributions costs (bu_symbol row :: parents) row
         ++ [(bu_symbol row :: parents, leafDiff costs row)])
      (bu_children data).
Proof. by destruct data. Qed.

Lemma contributions_ok costs data :
  wfCosts costs →
  ∀ parents,
    Forall (fun c => c.1 ≠ [] ∧ okCost (numTypes costs) c.2)
           (contributions costs parents data).
Proof.
  intros Hwf.
  induction data as [id sym children IH] using BottomUp_forall_ind.
  intros parents. rewrite contributions_unfold. simpl.
  induction IH as [|row rows Hrow _ IHrows]; simpl; [constructor |].
  rewrite !Forall_app. split_and!; [apply Hrow | | apply IHrows].
  constructor; [| constructor]. simpl. split; [done |].
  by apply okCost_leafDiff.
Qed.

Lemma costSum_cons n v l : costSum n (v :: l) = itemAdd v (costSum n l).
Proof. done. Qed.

Lemma fold_left_itemAdd_costSum {A} n (f : A → ItemCost) (rows : list A) :
  Forall (fun row => okCost n (f row)) rows →
  ∀ t, okCost n t →
       fold_left (fun total row => itemAdd total (f row)) rows t
       = itemAdd t (costSum n (f <$> rows)).
Proof.
  induction 1 as [|row rows Hrow _ IH]; intros t Ht; simpl.
  - symmetry. by apply itemAdd_zero_r.
  - rewrite IH.
    + by rewrite itemAdd_assoc.
    + apply okCost_itemAdd; by apply okCost_length.
Qed.

Lemma totalCostOf_costSum costs data :
  wfCosts costs →
  totalCostOf costs data
  = costSum (numTypes costs) (rowCostOf costs <$> bu_children data).
Proof.
  intros Hwf. unfold totalCostOf.
  rewrite (fold_left_itemAdd_costSum (numTypes costs)).
  - apply itemAdd_zero_l, okCost_costSum.
    induction (bu_children data); simpl; constructor; [| done].
    by apply okCost_itemCost.
  - apply Forall_forall. intros row _. by apply okCost_itemCost.
  - apply okCost_zero.
Qed.

Lemma Forall_okCost_snd n (cs : list Contribution) :
  Forall (fun c => c.1 ≠ [] ∧ okCost n c.2) cs →
  Forall (okCost n) (snd <$> cs).
Proof.
  induction 1 as [|c cs [_ Hc] _ IH]; simpl; constructor; done.
Qed.

(** The leaf contributions below a node sum to the cost of its rows. *)
Lemma contributions_total costs data :
  wfCosts costs →
  ∀ parents,
    costSum (numTypes costs) (snd <$> contributions costs parents data)
    = totalCostOf costs data.
Proof.
  intros Hwf.
  induction data as [id sym children IH] using BottomUp_forall_ind.
  intros parents. rewrite totalCostOf_costSum, contributions_unfold by done.
  simpl. induction IH as [|row rows Hrow _ IHrows]; simpl; [done |].
  rewrite !fmap_app, <- app_assoc. simpl.
  rewrite costSum_app.
  2:{ constructor; [by apply okCost_leafDiff |].
      apply Forall_okCost_snd, Forall_flat_map, Forall_forall.
      intros row' _. apply Forall_app. split.
      - by apply contributions_ok.
      - constructor; [| constructor]. split; [done |].
        by apply okCost_leafDiff. }
  simpl. rewrite IHrows, Hrow. unfold leafDiff.
  rewrite itemAdd_assoc.
  rewrite (itemAdd_comm (totalCostOf costs row)).
  rewrite (itemSub_itemAdd (numTypes costs)); try done.
  - by apply okCost_itemCost.
  - by apply totalCostOf_length.
Qed.

(** Dropping the contributions with a zero component sum does not change
    the total when those contributions are zero vectors. *)
Lemma costSum_processed n (cs : list Contribution) :
  Forall (fun c => c.1 ≠ [] ∧ okCost n c.2) cs →
  (∀ c, c ∈ cs → itemSum c.2 = 0 → c.2 = zeroCost n) →
  costSum n (snd <$> processed cs) = costSum n (snd <$> cs).
Proof.
  induction 1 as [|c cs [_ Hc] Hcs IH]; intros Hzero; [done |].
  unfold processed in *. rewrite filter_cons.
  assert (IH' : costSum n (filter (fun c => itemSum c.2 ≠ 0) cs).*2
                = costSum n cs.*2).
  { apply IH. intros c' Hc'. apply Hzero. by right. }
  destruct (decide (itemSum c.2 ≠ 0)) as [Hnz | Hz];
    rewrite ?fmap_cons, !costSum_cons.
  - by rewrite IH'.
  - rewrite IH'. rewrite (Hzero c); [| by left | ].
    + symmetry. apply itemAdd_zero_l, okCost_costSum.
      by apply Forall_okCost_snd.
    + destruct (decide (itemSum c.2 = 0)); [done | by exfalso; apply Hz].
Qed.

Lemma processed_ok n (cs : list Contribution) :
  Forall (fun c => c.1 ≠ [] ∧ okCost n c.2) cs →
  Forall (fun c => c.1 ≠ [] ∧ okCost n c.2) (processed cs).
Proof.
  intros H. apply Forall_forall. intros c Hc.
  apply list_elem_of_filter in Hc as [_ Hc].
  rewrite Forall_forall in H. by apply H.
Qed.

Lemma tdInv_init costs :
  tdInv (numTypes costs) [] emptyTopDown
        (mkBuildState (initializeCostsFrom costs) (initializeCostsFrom costs) 0).
Proof.
  unfold tdInv. simpl. split_and!; try done. constructor.
Qed.

Lemma sumChildrenInclusive_inv n m group incl :
  wfCosts incl → numTypes incl = n → freshFrom incl m → (td_id group < m)%N →
  let incl' := sumChildrenInclusive group incl in
  wfCosts incl' ∧ numTypes incl' = n ∧ freshFrom incl' m.
Proof.
  unfold sumChildrenInclusive. revert incl.
  induction (td_children group) as [|child children IH];
    intros incl Hwf Hn Hf Hid; simpl; [done |].
  apply IH; try done.
  - apply wfCosts_costsAdd; [done |].
    apply okCost_length. by apply okCost_itemCost.
  - eapply freshFrom_costsAdd; [done | done | lia].
Qed.

Lemma sumChildrenInclusive_inv' n m group incl :
  wfCosts incl → numTypes incl = n → freshFrom incl m → (td_id group < m)%N →
  wfCosts (sumChildrenInclusive group incl)
  ∧ numTypes (sumChildrenInclusive group incl) = n
  ∧ freshFrom (sumChildrenInclusive group incl) m.
Proof. apply sumChildrenInclusive_inv. Qed.

(** One first-level row of [fromBottomUp] with [skipFirstLevel]. *)
Lemma fromBottomUpGroup_inv costs root st group :
  wfCosts costs →
  tdInv (numTypes costs) [] root st →
  let r := fromBottomUpGroup costs (root, st) group in
  tdInv (numTypes costs) [] r.1 r.2
  ∧ costTotal (bs_selfCosts r.2) (tdIds r.1)
    = itemAdd (costTotal (bs_selfCosts st) (tdIds root))
        (costSum (numTypes costs)
           (snd <$> processed (contributions costs [bu_symbol group] group))).
Proof.
  intros Hwf Hinv. unfold fromBottomUpGroup.
  destruct (entryForSymbol root (bu_symbol group) (bs_maxId st))
    as [[[before g] after] m1] eqn:Hentry.
  apply entryForSymbol_spec in Hentry as [Hsym Hcases].
  rewrite buildTopDownResult_fold.
  set (outside := forestIds before ++ td_id g :: forestIds after).
  assert (Hids : outside ++ tdIds g ≡ₚ tdIds root ++ idRange (bs_maxId st) m1
                 ∧ (bs_maxId st ≤ m1)%N).
  { unfold outside. destruct Hcases as [[Hch ->] | (-> & -> & -> & ->)].
    - rewrite idRange_nil, app_nil_r, (tdIds_children root), Hch.
      rewrite forestIds_app, forestIds_cons. split; [| lia].
      rewrite <- !app_assoc. apply Permutation_app_head. simpl.
      constructor. apply Permutation_app_comm.
    - rewrite idRange_cons, idRange_nil by lia. simpl.
      rewrite forestIds_nil, (tdIds_children root), !app_nil_r.
      split; [done | lia]. }
  destruct Hids as [Hids Hle].
  destruct Hinv as (Hnd & Hlt & Hfs & Hfi & Hws & Hwi & Hns & Hni).
  simpl in Hnd, Hlt.
  assert (Hinv1 : tdInv (numTypes costs) outside g
                    (mkBuildState (bs_inclusiveCosts st) (bs_selfCosts st) m1)).
  { unfold tdInv. simpl. split_and!; try done.
    - rewrite Hids. apply NoDup_app. split_and!; [done | | apply NoDup_idRange].
      intros id Hin Hr. apply elem_of_idRange in Hr.
      rewrite Forall_forall in Hlt. specialize (Hlt _ Hin). lia.
    - rewrite Hids. apply Forall_app. split.
      + eapply Forall_impl; [exact Hlt |]. simpl. lia.
      + apply Forall_forall. intros id Hr. apply elem_of_idRange in Hr. lia.
    - by eapply freshFrom_mono.
    - by eapply freshFrom_mono. }
  destruct (fold_bubbleUp_inv (numTypes costs) outside true
              (processed (contributions costs [bu_symbol group] group))
              (processed_ok _ _ (contributions_ok costs group Hwf _))
              g _ Hinv1) as (Hinv2 & Hid & _ & Htot).
  destruct (fold_left _ _ (g, _)) as [g' st']. simpl in Hinv2, Hid, Htot.
  destruct Hinv2 as (Hnd2 & Hlt2 & Hfs2 & Hfi2 & Hws2 & Hwi2 & Hns2 & Hni2).
  assert (Hperm2 : tdIds (mkTopDown (td_id root) (td_symbol root)
                                    (before ++ g' :: after))
                   ≡ₚ outside ++ tdIds g').
  { rewrite tdIds_unfold, forestIds_app, forestIds_cons, Hid. unfold outside.
    rewrite <- !app_assoc. apply Permutation_app_head. simpl.
    constructor. apply Permutation_app_comm. }
  assert (Hgid : (td_id g' < bs_maxId st')%N).
  { rewrite Forall_forall in Hlt2. apply Hlt2. unfold outside.
    rewrite Hid. apply elem_of_app. left. apply elem_of_app. right. by left. }
  destruct (sumChildrenInclusive_inv' (numTypes costs) (bs_maxId st') g'
              (bs_inclusiveCosts st') Hwi2 Hni2 Hfi2 Hgid)
    as (Hwi3 & Hni3 & Hfi3).
  simpl. split.
  - unfold tdInv. simpl. split_and!; try done.
    + by rewrite Hperm2.
    + by rewrite Hperm2.
  - rewrite (costTotal_perm _ _ _ Hperm2), Htot. f_equal.
    rewrite (costTotal_perm _ _ _ Hids), costTotal_app by done.
    rewrite (costTotal_fresh _ (bs_maxId st) (idRange _ _)); try done.
    + apply itemAdd_zero_r. by apply okCost_costTotal.
    + apply Forall_forall. intros id Hr. apply elem_of_idRange in Hr. lia.
Qed.

Lemma fold_fromBottomUpGroup_inv costs groups :
  wfCosts costs →
  ∀ root st,
    tdInv (numTypes costs) [] root st →
    let r := fold_left (fromBottomUpGroup costs) groups (root, st) in
    tdInv (numTypes costs) [] r.1 r.2
    ∧ costTotal (bs_selfCosts r.2) (tdIds r.1)
      = itemAdd (costTotal (bs_selfCosts st) (tdIds root))
          (costSum (numTypes costs)
             (snd <$> processed
                        (flat_map (fun group =>
                                     contributions costs [bu_symbol group] group)
                                  groups))).
Proof.
  intros Hwf. induction groups as [|group groups IH]; intros root st Hinv.
  - simpl. split; [done |]. symmetry.
    destruct Hinv as (_ & _ & _ & _ & Hws & _ & Hns & _).
    apply itemAdd_zero_r. rewrite <- Hns. by apply okCost_costTotal.
  - cbn [fold_left flat_map].
    destruct (fromBottomUpGroup_inv costs root st group Hwf Hinv)
      as [Hinv1 Htot1].
    destruct (fromBottomUpGroup costs (root, st) group) as [root1 st1].
    simpl in Hinv1, Htot1.
    destruct (IH root1 st1 Hinv1) as [Hinv2 Htot2].
    split; [done |].
    rewrite Htot2, Htot1, processed_app, fmap_app, <- itemAdd_assoc.
    f_equal. symmetry. apply costSum_app.
    apply Forall_okCost_snd, processed_ok, Forall_flat_map, Forall_forall.
    intros g _. by apply contributions_ok.
Qed.

Lemma bubbledContributions_ok skipFirstLevel costs root :
  wfCosts costs →
  Forall (fun c => c.1 ≠ [] ∧ okCost (numTypes costs) c.2)
         (bubbledContributions skipFirstLevel costs root).
Proof.
  intros Hwf. destruct skipFirstLevel; simpl.
  - apply Forall_flat_map, Forall_forall. intros g _.
    by apply contributions_ok.
  - by apply contributions_ok.
Qed.

Lemma groupContributions_total costs root :
  wfCosts costs →
  costSum (numTypes costs) (snd <$> groupContributions costs root)
  = costSum (numTypes costs) (totalCostOf costs <$> bu_children root).
Proof.
  intros Hwf. unfold groupContributions.
  induction (bu_children root) as [|g groups IH]; [done |].
  simpl. rewrite fmap_app, costSum_app, IH, contributions_total; try done.
  apply Forall_okCost_snd, Forall_flat_map, Forall_forall.
  intros g' _. by apply contributions_ok.
Qed.

(** The self costs of the top-down tree sum to the processed
    contributions. *)
Lemma fromBottomUp_selfCostTotal bottomUpData skipFirstLevel :
  wfCosts (bu_costs bottomUpData) →
  selfCostTotal (fromBottomUp bottomUpData skipFirstLevel)
  = costSum (numTypes (bu_costs bottomUpData))
      (snd <$> processed
                 (bubbledContributions skipFirstLevel (bu_costs bottomUpData)
                                       (bu_root bottomUpData))).
Proof.
  intros Hwf. unfold fromBottomUp, selfCostTotal.
  pose proof (tdInv_init (bu_costs bottomUpData)) as Hinit.
  destruct skipFirstLevel; simpl.
  - destruct (fold_fromBottomUpGroup_inv _ (bu_children (bu_root bottomUpData))
                Hwf _ _ Hinit) as [_ Htot].
    destruct (fold_left _ _ _) as [root st]. simpl in *.
    rewrite Htot. apply itemAdd_zero_l, okCost_costSum.
    apply Forall_okCost_snd, processed_ok, Forall_flat_map, Forall_forall.
    intros g _. by apply contributions_ok.
  - rewrite buildTopDownResult_fold. simpl.
    destruct (fold_bubbleUp_inv _ [] false
                (processed (contributions (bu_costs bottomUpData) []
                                          (bu_root bottomUpData)))
                (processed_ok _ _ (contributions_ok _ _ Hwf _))
                _ _ Hinit) as (_ & _ & _ & Htot).
    destruct (fold_left _ _ _) as [root st]. simpl in *.
    rewrite Htot. apply itemAdd_zero_l, okCost_costSum.
    by apply Forall_okCost_snd, processed_ok, contributions_ok.
Qed.

Lemma wfCosts_costsOf n rows :
  Forall (fun row => okCost n row.2) rows → wfCosts (costsOf n rows).
Proof.
  intros Hrows id v Hv. simpl in *.
  apply elem_of_list_to_map_2 in Hv.
  rewrite Forall_forall in Hrows. by apply (Hrows (id, v)).
Qed.

Lemma okCost_intro n (v : ItemCost) :
  length v = n → forallb (fun z => (int64_min <=? z) && (z <=? int64_max)) v = true →
  okCost n v.
Proof.
  intros Hlen Hv. split; [done |]. apply Forall_forall. intros z Hz.
  rewrite forallb_forall in Hv. apply list_elem_of_In in Hz.
  specialize (Hv _ Hz). unfold in_int64. lia.
Qed.

Ltac solve_wfCosts :=
  apply wfCosts_costsOf;
  repeat first [ apply Forall_nil_2
               | apply Forall_cons_2; [by apply okCost_intro |] ].

(** C1, counterexample.  Without [skipFirstLevel]: the row [a] has cost
    {1, 0} and its only row [b] has cost {0, 1}; the leaf contribution
    {1, -1} of [a] has component sum zero and is dropped, so the self costs
    sum to {0, 1} while the total cost of the input is {1, 0}.  With
    [skipFirstLevel]: the only row [a] is a first-level row with cost {10};
    its leaf contribution is never bubbled up, so the self costs sum to {0}
    while the total cost of the input is {10}. *)
Lemma self_costs_not_conserved_when_diff_cancels :
  (wfCosts (bu_costs cancellingInput)
   ∧ selfCostTotal (fromBottomUp cancellingInput false) = [0; 1]
   ∧ totalCostOf (bu_costs cancellingInput) (bu_root cancellingInput) = [1; 0]
   ∧ selfCostTotal (fromBottomUp cancellingInput false)
     ≠ totalCostOf (bu_costs cancellingInput) (bu_root cancellingInput))
  ∧ (wfCosts (bu_costs firstLevelInput)
     ∧ contributions (bu_costs firstLevelInput) [] (bu_root firstLevelInput)
       = [([sym "a"], [10])]
     ∧ selfCostTotal (fromBottomUp firstLevelInput true) = [0]
     ∧ totalCostOf (bu_costs firstLevelInput) (bu_root firstLevelInput) = [10]
     ∧ selfCostTotal (fromBottomUp firstLevelInput true)
       ≠ totalCostOf (bu_costs firstLevelInput) (bu_root firstLevelInput)).
Proof.
  split; (split; [solve_wfCosts |]); vm_compute; repeat split; discriminate.
Qed.

(** C1, amended: for an input whose cost matrix has matching category
    count and in which every bubbled-up leaf contribution whose components
    sum (as [qint64]) to zero is the zero vector, the self costs over all
    nodes of the top-down tree sum to the leaf contributions that are
    bubbled up.  Without [skipFirstLevel] these are the contributions of
    all rows and their sum is the total cost of the input; with
    [skipFirstLevel] they are the contributions of the rows below the first
    level and their sum is the cost of the second-level rows. *)
Theorem top_down_self_costs_conserved
    (bottomUpData : BottomUpResults) (skipFirstLevel : bool) :
  wfCosts (bu_costs bottomUpData) →
  (∀ c, c ∈ bubbledContributions skipFirstLevel (bu_costs bottomUpData)
                                 (bu_root bottomUpData) →
        itemSum c.2 = 0 → c.2 = zeroCost (numTypes (bu_costs bottomUpData))) →
  selfCostTotal (fromBottomUp bottomUpData skipFirstLevel)
  = costSum (numTypes (bu_costs bottomUpData))
      (snd <$> bubbledContributions skipFirstLevel (bu_costs bottomUpData)
                                    (bu_root bottomUpData))
  ∧ costSum (numTypes (bu_costs bottomUpData))
      (snd <$> bubbledContributions skipFirstLevel (bu_costs bottomUpData)
                                    (bu_root bottomUpData))
    = if skipFirstLevel
      then costSum (numTypes (bu_costs bottomUpData))
             (totalCostOf (bu_costs bottomUpData)
                <$> bu_children (bu_root bottomUpData))
      else totalCostOf (bu_costs bottomUpData) (bu_root bottomUpData).
Proof.
  intros Hwf Hzero. split.
  - rewrite fromBottomUp_selfCostTotal by done.
    apply costSum_processed; [by apply bubbledContributions_ok | done].
  - destruct skipFirstLevel; simpl.
    + by apply groupContributions_total.
    + by apply contributions_total.
Qed.

(** ** The caller-callee walk *)

Section CallerCalleeStep.
Variables (n : nat) (diff : ItemCost).

Lemma step_entries st s hasParent :
  entries (ws_results (callerCalleeStep n diff st s hasParent))
  = stepEntries n diff st s.
Proof.
  unfold callerCalleeStep, stepEntries.
  destruct (entry (ws_results st) s) as [id r1]. simpl.
  destruct (lastSymbol st) as [last|]; simpl.
  - destruct (decide ((s, last) ∈ callerCalleeRecursionGuard st)); simpl.
    + by destruct (decide (s ∈ recursionGuard st)), hasParent.
    + by destruct (decide (s ∈ recursionGuard st)), hasParent.
  - by destruct (decide (s ∈ recursionGuard st)), hasParent.
Qed.

Lemma step_inclusiveCosts st s hasParent :
  cc_inclusiveCosts (ws_results (callerCalleeStep n diff st s hasParent))
  = if decide (s ∈ recursionGuard st)
    then cc_inclusiveCosts (ws_results st)
    else costsAdd (cc_inclusiveCosts (ws_results st))
                  (entry (ws_results st) s).1 diff.
Proof.
  unfold callerCalleeStep.
  assert (Hincl : cc_inclusiveCosts (entry (ws_results st) s).2
                  = cc_inclusiveCosts (ws_results st)).
  { unfold entry. by destruct (entries (ws_results st) !! s). }
  destruct (entry (ws_results st) s) as [id r1]. simpl in *.
  destruct (lastSymbol st) as [last|]; simpl.
  - destruct (decide ((s, last) ∈ callerCalleeRecursionGuard st)); simpl;
      destruct (decide (s ∈ recursionGuard st)), hasParent; simpl;
      by rewrite Hincl.
  - destruct (decide (s ∈ recursionGuard st)), hasParent; simpl;
      by rewrite Hincl.
Qed.

Lemma step_selfCosts st s hasParent :
  cc_selfCosts (ws_results (callerCalleeStep n diff st s hasParent))
  = if hasParent then cc_selfCosts (ws_results st)
    else costsAdd (cc_selfCosts (ws_results st))
                  (entry (ws_results st) s).1 diff.
Proof.
  unfold callerCalleeStep.
  assert (Hself : cc_selfCosts (entry (ws_results st) s).2
                  = cc_selfCosts (ws_results st)).
  { unfold entry. by destruct (entries (ws_results st) !! s). }
  destruct (entry (ws_results st) s) as [id r1]. simpl in *.
  destruct (lastSymbol st) as [last|]; simpl.
  - destruct (decide ((s, last) ∈ callerCalleeRecursionGuard st)); simpl;
      destruct (decide (s ∈ recursionGuard st)), hasParent; simpl;
      by rewrite Hself.
  - destruct (decide (s ∈ recursionGuard st)), hasParent; simpl;
      by rewrite Hself.
Qed.

Lemma step_guards st s hasParent :
  let st' := callerCalleeStep n diff st s hasParent in
  recursionGuard st' = {[s]} ∪ recursionGuard st
  ∧ lastSymbol st' = Some s
  ∧ callerCalleeRecursionGuard st'
    = match lastSymbol st with
      | Some last =>
          if decide ((s, last) ∈ callerCalleeRecursionGuard st)
          then callerCalleeRecursionGuard st
          else {[(s, last)]} ∪ callerCalleeRecursionGuard st
      | None => callerCalleeRecursionGuard st
      end.
Proof.
  unfold callerCalleeStep.
  destruct (entry (ws_results st) s) as [id r1]. simpl.
  destruct (lastSymbol st) as [last|]; simpl; [| done].
  by destruct (decide ((s, last) ∈ callerCalleeRecursionGuard st)).
Qed.
End CallerCalleeStep.

Lemma entry_lookup r s s' :
  entries (entry r s).2 !! s'
  = match entries r !! s' with
    | Some e => Some e
    | None =>
        if decide (s = s')
        then Some (mkCallerCalleeEntry (N.of_nat (size (entries r))) ∅ ∅)
        else None
    end.
Proof.
  unfold entry. destruct (entries r !! s) as [e|] eqn:Hs; simpl.
  - destruct (entries r !! s') as [e'|] eqn:Hs'; [done |].
    rewrite decide_False; [done | congruence].
  - rewrite lookup_insert. destruct (decide (s = s')) as [<- | Hne].
    + by rewrite Hs.
    + by destruct (entries r !! s').
Qed.

Lemma entry_is_Some r s : is_Some (entries (entry r s).2 !! s).
Proof.
  rewrite entry_lookup. destruct (entries r !! s); [by eexists |].
  rewrite decide_True by done. by eexists.
Qed.

Lemma entry_preserves_Some r s s' :
  is_Some (entries r !! s') → is_Some (entries (entry r s).2 !! s').
Proof. intros [e He]. rewrite entry_lookup, He. by eexists. Qed.

Lemma entry_calleeIn r s x y :
  calleeIn (entries (entry r s).2) x y = calleeOf r x y.
Proof.
  unfold calleeOf, calleeIn. rewrite entry_lookup.
  destruct (entries r !! x); [done |]. by case_decide.
Qed.

Lemma entry_callerIn r s x y :
  callerIn (entries (entry r s).2) x y = callerOf r x y.
Proof.
  unfold callerOf, callerIn. rewrite entry_lookup.
  destruct (entries r !! x); [done |]. by case_decide.
Qed.

Section CallerCalleeEdges.
Variables (n : nat) (diff : ItemCost).

Lemma alter_addCallee_calleeIn es last s x y :
  is_Some (es !! last) →
  calleeIn (alter (fun e => addCallee e s n diff) last es) x y
  = if decide (x = last ∧ y = s) then creditEdge n diff (calleeIn es x y)
    else calleeIn es x y.
Proof.
  intros [e He]. unfold calleeIn. rewrite lookup_alter.
  destruct (decide (last = x)) as [<- | Hne].
  - rewrite He. simpl. rewrite lookup_insert.
    destruct (decide (s = y)) as [<- | Hne'].
    + by rewrite decide_True.
    + rewrite decide_False; [done | by intros [_ ->]].
  - rewrite decide_False; [done | by intros [-> _]].
Qed.

Lemma alter_addCallee_callerIn es last s x y :
  callerIn (alter (fun e => addCallee e s n diff) last es) x y
  = callerIn es x y.
Proof.
  unfold callerIn. rewrite lookup_alter.
  destruct (decide (last = x)) as [<- | Hne]; [| done].
  by destruct (es !! last).
Qed.

Lemma alter_addCaller_callerIn es last s x y :
  is_Some (es !! s) →
  callerIn (alter (fun e => addCaller e last n diff) s es) y x
  = if decide (x = last ∧ y = s) then creditEdge n diff (callerIn es y x)
    else callerIn es y x.
Proof.
  intros [e He]. unfold callerIn. rewrite lookup_alter.
  destruct (decide (s = y)) as [<- | Hne].
  - rewrite He. simpl. rewrite lookup_insert.
    destruct (decide (last = x)) as [<- | Hne'].
    + by rewrite decide_True.
    + rewrite decide_False; [done | by intros [-> _]].
  - rewrite decide_False; [done | by intros [_ ->]].
Qed.

Lemma alter_addCaller_calleeIn es last s x y :
  calleeIn (alter (fun e => addCaller e last n diff) s es) x y
  = calleeIn es x y.
Proof.
  unfold calleeIn. rewrite lookup_alter.
  destruct (decide (s = x)) as [<- | Hne]; [| done].
  by destruct (es !! s).
Qed.

Lemma alter_is_Some {A} (f : A → A) (i j : Symbol) (m : gmap Symbol A) :
  is_Some (m !! j) → is_Some (alter f i m !! j).
Proof.
  intros [e He]. rewrite lookup_alter. case_decide as Hij.
  - subst. rewrite He. by eexists.
  - by eexists.
Qed.

Lemma stepEntries_edges st s x y :
  (∀ l, lastSymbol st = Some l → is_Some (entries (ws_results st) !! l)) →
  calleeIn (stepEntries n diff st s) x y
  = (if decide (stepCredits st s x y)
     then creditEdge n diff (calleeOf (ws_results st) x y)
     else calleeOf (ws_results st) x y)
  ∧ callerIn (stepEntries n diff st s) y x
    = (if decide (stepCredits st s x y)
       then creditEdge n diff (callerOf (ws_results st) y x)
       else callerOf (ws_results st) y x).
Proof.
  intros Hlast.
  destruct (decide (stepCredits st s x y)) as [(Hl & -> & Hg) | Hc].
  - unfold stepEntries. rewrite Hl, decide_False by done.
    rewrite alter_addCaller_calleeIn, alter_addCallee_calleeIn
      by (apply entry_preserves_Some; by apply Hlast).
    rewrite alter_addCaller_callerIn by apply alter_is_Some, entry_is_Some.
    rewrite alter_addCallee_callerIn, entry_calleeIn, entry_callerIn.
    destruct (decide (x = x ∧ s = s)) as [_ | Hn]; [done | by destruct Hn].
  - unfold stepEntries. destruct (lastSymbol st) as [last|] eqn:Hl.
    + destruct (decide ((s, last) ∈ callerCalleeRecursionGuard st))
        as [Hg | Hg].
      * by rewrite entry_calleeIn, entry_callerIn.
      * rewrite alter_addCaller_calleeIn, alter_addCallee_calleeIn
          by (apply entry_preserves_Some; by apply Hlast).
        rewrite alter_addCaller_callerIn
          by apply alter_is_Some, entry_is_Some.
        rewrite alter_addCallee_callerIn, entry_calleeIn, entry_callerIn.
        destruct (decide (x = last ∧ y = s)) as [[-> ->] | _]; [| done].
        exfalso. apply Hc. unfold stepCredits. by rewrite Hl.
    + by rewrite entry_calleeIn, entry_callerIn.
Qed.
End CallerCalleeEdges.

Section CallerCalleeLoop.
Variables (n : nat) (diff : ItemCost).

Lemma callerCalleeLoop_cons s parents st :
  callerCalleeLoop n diff (s :: parents) st
  = callerCalleeLoop n diff parents
      (callerCalleeStep n diff st s
         (match parents with [] => false | _ => true end)).
Proof. done. Qed.

Lemma step_lastEntryExists st s hasParent :
  lastEntryExists (callerCalleeStep n diff st s hasParent).
Proof.
  intros l. destruct (step_guards n diff st s hasParent) as (_ & -> & _).
  intros [= <-]. rewrite step_entries. unfold stepEntries.
  destruct (lastSymbol st) as [last|]; [| apply entry_is_Some].
  case_decide; [apply entry_is_Some |].
  do 2 apply alter_is_Some. apply entry_is_Some.
Qed.

Lemma step_edges st s hasParent x y :
  lastEntryExists st →
  let st' := callerCalleeStep n diff st s hasParent in
  calleeOf (ws_results st') x y
  = (if decide (stepCredits st s x y)
     then creditEdge n diff (calleeOf (ws_results st) x y)
     else calleeOf (ws_results st) x y)
  ∧ callerOf (ws_results st') y x
    = (if decide (stepCredits st s x y)
       then creditEdge n diff (callerOf (ws_results st) y x)
       else callerOf (ws_results st) y x).
Proof.
  intros Hlast st'. unfold calleeOf, callerOf. subst st'.
  rewrite step_entries. by apply stepEntries_edges.
Qed.

Lemma adjacentb_cons a b rest x y :
  adjacentb (a :: b :: rest) x y
  = (bool_decide (a = x) && bool_decide (b = y)) || adjacentb (b :: rest) x y.
Proof. done. Qed.

(** The condition under which the remaining walk credits an edge, after
    one iteration that did not credit it. *)
Lemma walkCredits_step st s hasParent parents x y :
  ¬ stepCredits st s x y →
  walkCredits (callerCalleeStep n diff st s hasParent) parents x y
  = walkCredits st (s :: parents) x y.
Proof.
  intros Hc. unfold walkCredits.
  destruct (step_guards n diff st s hasParent) as (_ & -> & ->).
  unfold stepCredits in Hc. cbn [withLast].
  destruct (lastSymbol st) as [last|]; cbn [withLast]; [| done].
  rewrite adjacentb_cons.
  destruct (decide (last = x ∧ s = y)) as [[-> ->] | Hne].
  - assert (Hg : (y, x) ∈ callerCalleeRecursionGuard st).
    { destruct (decide ((y, x) ∈ callerCalleeRecursionGuard st)); [done |].
      exfalso. by apply Hc. }
    rewrite decide_True by done.
    rewrite (bool_decide_eq_false_2 ((y, x) ∉ _)) by (by intros Hn; apply Hn).
    by rewrite !andb_false_r.
  - assert (Hb : bool_decide (last = x) && bool_decide (s = y) = false).
    { apply andb_false_iff.
      destruct (decide (last = x)) as [-> | Hx].
      - right. apply bool_decide_eq_false_2. intros ->. by apply Hne.
      - left. by apply bool_decide_eq_false_2. }
    rewrite Hb. cbn [orb].
    destruct (decide ((s, last) ∈ callerCalleeRecursionGuard st))
      as [Hg | Hg]; [done |].
    apply (f_equal (andb (adjacentb (s :: parents) x y))).
    apply bool_decide_ext. rewrite not_elem_of_union, not_elem_of_singleton.
    split; [by intros [_ ?] |]. intros Hn. split; [| done].
    intros [= -> ->]. by apply Hne.
Qed.

Lemma walkCredits_after_credit st s hasParent parents x y :
  stepCredits st s x y →
  walkCredits (callerCalleeStep n diff st s hasParent) parents x y = false
  ∧ walkCredits st (s :: parents) x y = true.
Proof.
  intros (Hl & -> & Hg). unfold walkCredits.
  destruct (step_guards n diff st s hasParent) as (_ & -> & ->).
  rewrite Hl. cbn [withLast]. rewrite decide_False by done. split.
  - apply andb_false_iff. right. apply bool_decide_eq_false_2.
    intros Hn. apply Hn. apply elem_of_union. left.
    by apply elem_of_singleton.
  - rewrite adjacentb_cons, !bool_decide_eq_true_2 by done. done.
Qed.

(** What the rest of a walk does to the edge from [x] to [y]. *)
Lemma callerCalleeLoop_edges chain x y :
  ∀ st,
    lastEntryExists st →
    let st' := callerCalleeLoop n diff chain st in
    calleeOf (ws_results st') x y
    = (if walkCredits st chain x y
       then creditEdge n diff (calleeOf (ws_results st) x y)
       else calleeOf (ws_results st) x y)
    ∧ callerOf (ws_results st') y x
      = (if walkCredits st chain x y
         then creditEdge n diff (callerOf (ws_results st) y x)
         else callerOf (ws_results st) y x).
Proof.
  induction chain as [|s parents IH]; intros st Hlast.
  - simpl. unfold walkCredits.
    destruct (lastSymbol st); simpl; done.
  - rewrite callerCalleeLoop_cons.
    set (hasParent := match parents with [] => false | _ => true end).
    destruct (IH (callerCalleeStep n diff st s hasParent)
                 (step_lastEntryExists st s hasParent)) as [IH1 IH2].
    destruct (step_edges st s hasParent x y Hlast) as [Hs1 Hs2].
    simpl in IH1, IH2, Hs1, Hs2. simpl. rewrite IH1, IH2, Hs1, Hs2.
    destruct (decide (stepCredits st s x y)) as [Hc | Hc].
    + destruct (walkCredits_after_credit st s hasParent parents x y Hc)
        as [-> ->]. done.
    + by rewrite (walkCredits_step st s hasParent parents x y Hc).
Qed.

(** The effect of one walk on every edge: an edge is credited once when
    its callee directly follows its caller somewhere on the chain, and
    is left alone otherwise. *)
Lemma callerCalleeWalk_edges chain results x y :
  calleeOf (callerCalleeWalk n diff chain results) x y
  = (if adjacentb chain x y
     then creditEdge n diff (calleeOf results x y)
     else calleeOf results x y)
  ∧ callerOf (callerCalleeWalk n diff chain results) y x
    = (if adjacentb chain x y
       then creditEdge n diff (callerOf results y x)
       else callerOf results y x).
Proof.
  unfold callerCalleeWalk.
  destruct (callerCalleeLoop_edges chain x y (mkWalkState ∅ ∅ None results))
    as [H1 H2]; [by intros l [=] |].
  simpl in H1, H2. rewrite H1, H2. unfold walkCredits. simpl.
  rewrite bool_decide_eq_true_2 by set_solver.
  by rewrite andb_true_r.
Qed.
End CallerCalleeLoop.

(** C4, counterexample: on the chain [a], [b], [a] the adjacency of [a] and
    [b] is credited at the second node, where the pair ([b], [a]) enters
    the guard; at the third node the same two symbols are adjacent in the
    opposite orientation, and edge cost is added again. *)
Lemma edge_guard_distinguishes_orientation :
  let st := callerCalleeLoop 1 [1] [sym "a"; sym "b"]
                             (mkWalkState ∅ ∅ None emptyResults) in
  let st' := callerCalleeStep 1 [1] st (sym "a") false in
  lastSymbol st = Some (sym "b")
  ∧ (sym "b", sym "a") ∈ callerCalleeRecursionGuard st
  ∧ calleeOf (ws_results st) (sym "a") (sym "b") = Some [1]
  ∧ calleeOf (ws_results st) (sym "b") (sym "a") = None
  ∧ calleeOf (ws_results st') (sym "b") (sym "a") = Some [1]
  ∧ callerOf (ws_results st') (sym "a") (sym "b") = Some [1].
Proof.
  split_and!; vm_compute; reflexivity.
Qed.

(** C4, amended: the edge costs are guarded per walk by the ordered pair
    (current symbol, previous symbol).  One walk credits the edge from a
    caller [x] to a callee [y] exactly once, in the callee map of [x] and
    in the caller map of [y], when [y] directly follows [x] somewhere on
    the chain, however often that adjacency recurs, and leaves the edge
    alone otherwise; the adjacency in the opposite orientation is the edge
    from [y] to [x] and is credited on its own. *)
Theorem edge_credited_once_per_ordered_adjacency
    (numTypes_ : nat) (diff : ItemCost) (chain : list Symbol)
    (results : CallerCalleeResults) (x y : Symbol) :
  calleeOf (callerCalleeWalk numTypes_ diff chain results) x y
  = (if adjacentb chain x y
     then Some (add (default (zeroCost numTypes_) (calleeOf results x y)) diff)
     else calleeOf results x y)
  ∧ callerOf (callerCalleeWalk numTypes_ diff chain results) y x
    = (if adjacentb chain x y
       then Some (add (default (zeroCost numTypes_) (callerOf results y x)) diff)
       else callerOf results y x).
Proof. apply callerCalleeWalk_edges. Qed.

(** ** Symmetry of the caller and callee edges *)

Lemma callerCalleeWalk_symmetric n diff chain results :
  (∀ x y, calleeOf results x y = callerOf results y x) →
  ∀ x y, calleeOf (callerCalleeWalk n diff chain results) x y
         = callerOf (callerCalleeWalk n diff chain results) y x.
Proof.
  intros Hsym x y.
  destruct (callerCalleeWalk_edges n diff chain results x y) as [-> ->].
  by rewrite Hsym.
Qed.

Lemma fold_callerCalleeWalk_symmetric n (cs : list Contribution) :
  ∀ results,
    (∀ x y, calleeOf results x y = callerOf results y x) →
    ∀ x y,
      calleeOf (fold_left (fun r c => callerCalleeProcess n c r) cs results) x y
      = callerOf (fold_left (fun r c => callerCalleeProcess n c r) cs results)
                 y x.
Proof.
  induction cs as [|c cs IH]; intros results Hsym; [done |].
  simpl. apply IH. by apply callerCalleeWalk_symmetric.
Qed.

(** C5: in the results built from empty results, [a] appears in the
    callee map of [b] with cost [c] exactly when [b] appears in the caller
    map of [a] with the same cost. *)
Theorem caller_callee_edges_symmetric
    (bottomUpData : BottomUpResults) (a b : Symbol) (c : ItemCost) :
  let results := callerCalleesFromBottomUpData bottomUpData emptyResults in
  (∃ eb, entries results !! b = Some eb ∧ callees eb !! a = Some c)
  ↔ (∃ ea, entries results !! a = Some ea ∧ callers ea !! b = Some c).
Proof.
  intros results.
  assert (Hsym : calleeOf results b a = callerOf results a b).
  { subst results. unfold callerCalleesFromBottomUpData.
    rewrite buildCallerCalleeResult_fold. simpl.
    by apply fold_callerCalleeWalk_symmetric. }
  unfold calleeOf, callerOf, calleeIn, callerIn in Hsym.
  rewrite <- !bind_Some. by rewrite Hsym.
Qed.

(** ** Entries, ids and the cost matrices of the caller-callee table *)

Lemma map_size_alter {A} (f : A → A) (i : Symbol) (m : gmap Symbol A) :
  size (alter f i m) = size m.
Proof.
  destruct (m !! i) as [x|] eqn:Hi.
  - assert (alter f i m = <[i := f x]> m) as ->.
    { apply map_eq. intros j. rewrite lookup_alter, lookup_insert.
      case_decide; [by rewrite Hi | done]. }
    by apply map_size_insert_Some.
  - f_equal. apply map_eq. intros j. rewrite lookup_alter.
    case_decide; [subst; by rewrite Hi | done].
Qed.

Lemma idOf_alter_addCallee es i s n diff s' :
  idOf (alter (fun e => addCallee e s n diff) i es) s' = idOf es s'.
Proof.
  unfold idOf. rewrite lookup_alter. case_decide; [subst | done].
  by destruct (es !! s').
Qed.

Lemma idOf_alter_addCaller es i s n diff s' :
  idOf (alter (fun e => addCaller e s n diff) i es) s' = idOf es s'.
Proof.
  unfold idOf. rewrite lookup_alter. case_decide; [subst | done].
  by destruct (es !! s').
Qed.

Lemma stepEntries_idOf n diff st s s' :
  idOf (stepEntries n diff st s) s'
  = idOf (entries (entry (ws_results st) s).2) s'.
Proof.
  unfold stepEntries. destruct (lastSymbol st) as [last|]; [| done].
  case_decide; [done |].
  by rewrite idOf_alter_addCaller, idOf_alter_addCallee.
Qed.

Lemma stepEntries_size n diff st s :
  size (stepEntries n diff st s) = size (entries (entry (ws_results st) s).2).
Proof.
  unfold stepEntries. destruct (lastSymbol st) as [last|]; [| done].
  case_decide; [done |]. by rewrite !map_size_alter.
Qed.

Lemma entry_idOf r s s' :
  idOf (entries (entry r s).2) s'
  = match idOf (entries r) s' with
    | Some id => Some id
    | None => if decide (s = s') then Some (N.of_nat (size (entries r)))
              else None
    end.
Proof.
  unfold idOf. rewrite entry_lookup.
  destruct (entries r !! s'); [done |]. by case_decide.
Qed.

Lemma entry_id r s : idOf (entries (entry r s).2) s = Some (entry r s).1.
Proof.
  unfold idOf, entry. destruct (entries r !! s) as [e|] eqn:Hs; simpl.
  - by rewrite Hs.
  - by rewrite lookup_insert_eq.
Qed.

Lemma entry_size r s :
  size (entries (entry r s).2)
  = match entries r !! s with
    | Some _ => size (entries r)
    | None => Datatypes.S (size (entries r))
    end.
Proof.
  unfold entry. destruct (entries r !! s) as [e|] eqn:Hs; simpl; [done |].
  by apply map_size_insert_None.
Qed.

Lemma ccInv_idsOk r :
  ccInv r ↔ idsOk (entries r)
            ∧ freshFrom (cc_inclusiveCosts r) (N.of_nat (size (entries r)))
            ∧ freshFrom (cc_selfCosts r) (N.of_nat (size (entries r))).
Proof.
  unfold ccInv, idsOk, idOf. split.
  - intros (Hlt & Hinj & Hfi & Hfs). split_and!; try done.
    + intros s id. destruct (entries r !! s) as [e|] eqn:He; [| done].
      intros [= <-]. by eapply Hlt.
    + intros s1 s2 id.
      destruct (entries r !! s1) as [e1|] eqn:He1; [| done].
      destruct (entries r !! s2) as [e2|] eqn:He2; [| done].
      intros [= <-] [= Heq]. by eapply Hinj.
  - intros ((Hlt & Hinj) & Hfi & Hfs). split_and!; try done.
    + intros s e He. apply (Hlt s). by rewrite He.
    + intros s1 s2 e1 e2 He1 He2 Heq. apply (Hinj s1 s2 (cce_id e1)).
      * by rewrite He1.
      * rewrite He2. simpl. by rewrite Heq.
Qed.

Lemma entry_idsOk r s : idsOk (entries r) → idsOk (entries (entry r s).2).
Proof.
  intros [Hlt Hinj]. split.
  - intros s' id. rewrite entry_idOf, entry_size.
    destruct (idOf (entries r) s') as [id'|] eqn:Hid.
    + intros [= <-]. apply Hlt in Hid. destruct (entries r !! s); lia.
    + case_decide as Hs; [| done]. subst s'. intros [= <-].
      unfold idOf in Hid. destruct (entries r !! s); [done | lia].
  - intros s1 s2 id. rewrite !entry_idOf.
    destruct (idOf (entries r) s1) as [id1|] eqn:H1;
      destruct (idOf (entries r) s2) as [id2|] eqn:H2.
    + intros [= <-] [= <-]. by eapply Hinj.
    + intros [= <-]. case_decide; [| done]. intros [= Heq].
      apply Hlt in H1. lia.
    + case_decide; [| done]. intros [= <-] [= Heq]. apply Hlt in H2. lia.
    + repeat case_decide; try done. congruence.
Qed.

Lemma inclusiveOf_costOf r s :
  inclusiveOf r s = costOf (entries r) (cc_inclusiveCosts r) s.
Proof. unfold inclusiveOf, costOf, idOf. by destruct (entries r !! s). Qed.

Lemma selfOf_costOf r s :
  selfOf r s = costOf (entries r) (cc_selfCosts r) s.
Proof. unfold selfOf, costOf, idOf. by destruct (entries r !! s). Qed.

Section CallerCalleeCosts.
Variables (n : nat) (diff : ItemCost).

Lemma stepEntries_idsOk st s :
  idsOk (entries (ws_results st)) → idsOk (stepEntries n diff st s).
Proof.
  intros Hok. apply (entry_idsOk _ s) in Hok. destruct Hok as [Hlt Hinj].
  split.
  - intros s' id. rewrite stepEntries_idOf, stepEntries_size. apply Hlt.
  - intros s1 s2 id. rewrite !stepEntries_idOf. apply Hinj.
Qed.

Lemma entry_id_bound r s :
  idsOk (entries r) →
  ((entry r s).1 < N.of_nat (size (entries (entry r s).2)))%N.
Proof.
  intros Hok. apply (entry_idsOk _ s) in Hok. destruct Hok as [Hlt _].
  apply (Hlt s). apply entry_id.
Qed.

Lemma entry_size_le r s :
  (size (entries r) ≤ size (entries (entry r s).2))%nat.
Proof. rewrite entry_size. destruct (entries r !! s); lia. Qed.

(** A matrix that is not touched keeps the cost of every symbol. *)
Lemma costOf_step_same st s c s' :
  freshFrom c (N.of_nat (size (entries (ws_results st)))) →
  costOf (stepEntries n diff st s) c s'
  = costOf (entries (ws_results st)) c s'.
Proof.
  intros Hf. unfold costOf. rewrite stepEntries_idOf, entry_idOf.
  destruct (idOf (entries (ws_results st)) s') as [id|]; [done |].
  case_decide; [| done]. by apply (itemCost_fresh _ _ _ Hf).
Qed.

(** A matrix credited at the entry of [s] changes the cost of [s] only. *)
Lemma costOf_step_credit st s c s' :
  idsOk (entries (ws_results st)) →
  freshFrom c (N.of_nat (size (entries (ws_results st)))) →
  costOf (stepEntries n diff st s)
         (costsAdd c (entry (ws_results st) s).1 diff) s'
  = if decide (s' = s)
    then itemAdd (costOf (entries (ws_results st)) c s') diff
    else costOf (entries (ws_results st)) c s'.
Proof.
  intros Hok Hf.
  pose proof (entry_idsOk _ s Hok) as [_ Hinj].
  pose proof (entry_id (ws_results st) s) as Hid.
  unfold costOf at 1. rewrite stepEntries_idOf.
  destruct (decide (s' = s)) as [-> | Hne].
  - rewrite Hid, itemCost_costsAdd_eq. f_equal.
    unfold costOf. rewrite entry_idOf in Hid.
    destruct (idOf (entries (ws_results st)) s) as [id|].
    + by injection Hid as ->.
    + rewrite decide_True in Hid by done. injection Hid as <-.
      by apply (itemCost_fresh _ _ _ Hf).
  - destruct (idOf (entries (entry (ws_results st) s).2) s') as [id'|] eqn:Hid'.
    + rewrite itemCost_costsAdd_ne.
      * rewrite <- (costOf_step_same st s c s' Hf). unfold costOf.
        by rewrite stepEntries_idOf, Hid'.
      * intros Heq. apply Hne. apply (Hinj s' s id'); [done | by rewrite <- Heq].
    + rewrite <- (costOf_step_same st s c s' Hf). unfold costOf.
      by rewrite stepEntries_idOf, Hid'.
Qed.

(** One iteration: the invariant is kept, the inclusive cost of the
    symbol is credited unless the symbol is guarded, and its self cost is
    credited at the node without a parent. *)
Lemma step_costs st s hasParent :
  ccInv (ws_results st) →
  let st' := callerCalleeStep n diff st s hasParent in
  ccInv (ws_results st')
  ∧ (∀ s', inclusiveOf (ws_results st') s'
           = if decide (s' = s ∧ s ∉ recursionGuard st)
             then itemAdd (inclusiveOf (ws_results st) s') diff
             else inclusiveOf (ws_results st) s')
  ∧ (∀ s', selfOf (ws_results st') s'
           = if decide (s' = s ∧ hasParent = false)
             then itemAdd (selfOf (ws_results st) s') diff
             else selfOf (ws_results st) s').
Proof.
  intros Hinv st'. apply ccInv_idsOk in Hinv as (Hok & Hfi & Hfs).
  pose proof (entry_id_bound (ws_results st) s Hok) as Hbound.
  pose proof (entry_size_le (ws_results st) s) as Hsize.
  split_and!.
  - apply ccInv_idsOk. subst st'.
    rewrite step_entries, step_inclusiveCosts, step_selfCosts.
    rewrite stepEntries_size. split_and!.
    + by apply stepEntries_idsOk.
    + case_decide.
      * eapply freshFrom_mono; [done | lia].
      * eapply freshFrom_costsAdd; [done | done | lia].
    + destruct hasParent.
      * eapply freshFrom_mono; [done | lia].
      * eapply freshFrom_costsAdd; [done | done | lia].
  - intros s'. subst st'. rewrite !inclusiveOf_costOf.
    rewrite step_entries, step_inclusiveCosts.
    destruct (decide (s ∈ recursionGuard st)) as [Hg | Hg].
    + rewrite costOf_step_same by done.
      rewrite decide_False; [done | by intros [_ ?]].
    + rewrite costOf_step_credit by done.
      destruct (decide (s' = s)) as [-> | Hne].
      * by rewrite decide_True.
      * rewrite decide_False; [done | by intros [? _]].
  - intros s'. subst st'. rewrite !selfOf_costOf.
    rewrite step_entries, step_selfCosts.
    destruct hasParent.
    + rewrite costOf_step_same by done.
      rewrite decide_False; [done | by intros [_ ?]].
    + rewrite costOf_step_credit by done.
      destruct (decide (s' = s)) as [-> | Hne].
      * by rewrite decide_True.
      * rewrite decide_False; [done | by intros [? _]].
Qed.

(** The rest of a walk credits the inclusive cost of every symbol on the
    remaining chain that is not guarded, once; and the self cost of the
    symbol of the last node. *)
Lemma callerCalleeLoop_costs chain :
  ∀ st,
    ccInv (ws_results st) →
    let st' := callerCalleeLoop n diff chain st in
    ccInv (ws_results st')
    ∧ (∀ s, inclusiveOf (ws_results st') s
            = if decide (s ∈ chain ∧ s ∉ recursionGuard st)
              then itemAdd (inclusiveOf (ws_results st) s) diff
              else inclusiveOf (ws_results st) s)
    ∧ (∀ s, selfOf (ws_results st') s
            = if decide (last chain = Some s)
              then itemAdd (selfOf (ws_results st) s) diff
              else selfOf (ws_results st) s).
Proof.
  induction chain as [|s0 parents IH]; intros st Hinv.
  - cbn [callerCalleeLoop]. split_and!; [done | |].
    + intros s. case_decide as H; [| done].
      destruct H as [Hin _]. by apply elem_of_nil in Hin.
    + intros s. by case_decide.
  - rewrite callerCalleeLoop_cons.
    set (hasParent := match parents with [] => false | _ => true end).
    destruct (step_costs st s0 hasParent Hinv) as (Hinv1 & Hincl1 & Hself1).
    destruct (IH _ Hinv1) as (Hinv2 & Hincl2 & Hself2).
    destruct (step_guards n diff st s0 hasParent) as (Hguard & _ & _).
    simpl in Hinv2, Hincl2, Hself2, Hguard. split_and!; [done | |].
    + intros s. simpl. rewrite Hincl2, Hincl1, Hguard.
      destruct (decide (s = s0)) as [-> | Hne].
      * rewrite (decide_False (P := s0 ∈ parents ∧ _)) by set_solver.
        destruct (decide (s0 ∉ recursionGuard st)) as [Hg | Hg].
        -- rewrite !decide_True; [done | set_solver | set_solver].
        -- rewrite !decide_False; [done | set_solver | set_solver].
      * rewrite (decide_False (P := s = s0 ∧ _)) by (by intros [? _]).
        destruct (decide (s ∈ parents ∧ s ∉ recursionGuard st)) as [Hp | Hp].
        -- rewrite !decide_True; [done | set_solver | set_solver].
        -- rewrite !decide_False; [done | set_solver | set_solver].
    + intros s. simpl. rewrite Hself2, Hself1.
      destruct parents as [|p parents]; simpl.
      * subst hasParent. destruct (decide (s = s0)) as [-> | Hne].
        -- rewrite !decide_True; done.
        -- rewrite !decide_False; [done | by intros [= ->] | by intros [? _]].
      * subst hasParent.
        rewrite (decide_False (P := s = s0 ∧ _)) by (by intros [_ ?]).
        done.
Qed.
End CallerCalleeCosts.

(** C3: one walk of the caller-callee builder adds [diff] to the inclusive
    cost of a symbol exactly once when the symbol occurs on the chain,
    however often it occurs, and not at all otherwise. *)
Theorem inclusive_cost_credited_once_per_walk
    (numTypes_ : nat) (diff : ItemCost) (chain : list Symbol)
    (results : CallerCalleeResults) (s : Symbol) :
  ccInv results →
  inclusiveOf (callerCalleeWalk numTypes_ diff chain results) s
  = if decide (s ∈ chain) then itemAdd (inclusiveOf results s) diff
    else inclusiveOf results s.
Proof.
  intros Hinv. unfold callerCalleeWalk.
  destruct (callerCalleeLoop_costs numTypes_ diff chain
              (mkWalkState ∅ ∅ None results) Hinv) as (_ & Hincl & _).
  simpl in Hincl. rewrite Hincl.
  destruct (decide (s ∈ chain)) as [Hin | Hnin].
  - rewrite decide_True; [done | set_solver].
  - rewrite decide_False; [done | by intros [? _]].
Qed.

(** ** Inclusive cost dominates self cost *)

Lemma costWeight_nonneg d : nonneg d → 0 <= costWeight d.
Proof. induction 1; simpl; lia. Qed.

Lemma costBounded_le bound self inclusive :
  costBounded bound self inclusive → Forall2 Z.le self inclusive.
Proof. induction 1 as [|x y ? ? [[? ?] ?]]; constructor; done. Qed.

Lemma costBounded_zero n bound :
  0 <= bound → costBounded bound (zeroCost n) (zeroCost n).
Proof.
  intros Hb. unfold costBounded, zeroCost.
  induction n as [|n IH]; simpl; constructor; [lia | done].
Qed.

Lemma costBounded_length bound self inclusive :
  costBounded bound self inclusive → length self = length inclusive.
Proof. apply Forall2_length. Qed.

(** Crediting a non-negative [diff] to the inclusive cost, or to both
    costs, or to neither, keeps the bounds when the bound grows by the
    weight of [diff] and stays within [qint64]. *)
Lemma costBounded_credit bound bound' self inclusive diff :
  costBounded bound self inclusive →
  length diff = length inclusive → nonneg diff →
  bound + costWeight diff <= bound' → bound' <= int64_max →
  costBounded bound' self inclusive
  ∧ costBounded bound' self (itemAdd inclusive diff)
  ∧ costBounded bound' (itemAdd self diff) (itemAdd inclusive diff).
Proof.
  intros Hb. revert diff.
  induction Hb as [|x y self inclusive [[Hx Hxy] Hy] Hrest IH];
    intros diff Hlen Hnn Hbound Hmax.
  - destruct diff; [| done]. repeat split; constructor.
  - destruct diff as [|d diff]; [done |]. simpl in Hlen.
    apply Forall_cons in Hnn as [Hd Hnn].
    pose proof (costWeight_nonneg _ Hnn) as Hw. simpl in Hbound.
    destruct (IH diff) as (H1 & H2 & H3); try done; try lia.
    unfold int64_max in *.
    assert (Hadd_y : add64 y d = y + d).
    { apply add64_exact. unfold in_int64, int64_min, int64_max. lia. }
    assert (Hadd_x : add64 x d = x + d).
    { apply add64_exact. unfold in_int64, int64_min, int64_max. lia. }
    unfold itemAdd in *. simpl. rewrite Hadd_x, Hadd_y.
    split_and!; constructor; try done; lia.
Qed.

Lemma last_elem_of {A} (l : list A) (x : A) : last l = Some x → x ∈ l.
Proof.
  induction l as [|a [|b l] IH]; simpl; [done | |].
  - intros [= ->]. by left.
  - intros H. right. by apply IH.
Qed.

Lemma fits_prefix (b w t m : Z) : 0 <= t → b + (w + t) <= m → b + w <= m.
Proof. lia. Qed.

Lemma totalWeight_cons (c : Contribution) cs :
  totalWeight (c :: cs) = costWeight c.2 + totalWeight cs.
Proof. done. Qed.

Lemma totalWeight_nonneg (cs : list Contribution) :
  Forall (fun c => nonneg c.2) cs → 0 <= totalWeight cs.
Proof.
  induction 1 as [|c cs Hc _ IH]; simpl; [lia |].
  pose proof (costWeight_nonneg _ Hc). lia.
Qed.

Lemma totalWeight_processed (cs : list Contribution) :
  Forall (fun c => nonneg c.2) cs →
  totalWeight (processed cs) <= totalWeight cs.
Proof.
  induction 1 as [|c cs Hc _ IH]; [done |].
  unfold processed. rewrite filter_cons. fold (processed cs).
  pose proof (costWeight_nonneg _ Hc).
  destruct (decide (itemSum c.2 ≠ 0)); rewrite ?totalWeight_cons.
  - apply Z.add_le_mono_l. exact IH.
  - etrans; [exact IH | lia].
Qed.

Lemma Forall_processed {P : Contribution → Prop} (cs : list Contribution) :
  Forall P cs → Forall P (processed cs).
Proof.
  intros H. apply Forall_forall. intros c Hc.
  apply list_elem_of_filter in Hc as [_ Hc].
  rewrite Forall_forall in H. by apply H.
Qed.

(** *** Caller-callee table *)

Lemma callerCalleeWalk_bounded n numTypes_ bound bound' diff chain r :
  ccInv r → ccBounded n bound r →
  length diff = n → nonneg diff →
  bound + costWeight diff <= bound' → bound' <= int64_max →
  ccInv (callerCalleeWalk numTypes_ diff chain r)
  ∧ ccBounded n bound' (callerCalleeWalk numTypes_ diff chain r).
Proof.
  intros Hinv Hb Hlen Hnn Hbound Hmax. unfold callerCalleeWalk.
  destruct (callerCalleeLoop_costs numTypes_ diff chain
              (mkWalkState ∅ ∅ None r) Hinv) as (Hinv' & Hincl & Hself).
  simpl in Hinv', Hincl, Hself. split; [done |].
  intros s. rewrite Hincl, Hself. destruct (Hb s) as [Hbs Hls].
  destruct (costBounded_credit bound bound' _ _ diff Hbs)
    as (H1 & H2 & H3); try done; [congruence |].
  assert (Hlen' : length (itemAdd (inclusiveOf r s) diff) = n).
  { unfold itemAdd. rewrite length_zip_with. lia. }
  destruct (decide (last chain = Some s)) as [Hlast | Hlast].
  - rewrite decide_True; [done |]. split; [| set_solver].
    by apply last_elem_of.
  - destruct (decide (s ∈ chain ∧ s ∉ (∅ : gset Symbol))); done.
Qed.

Lemma fold_callerCalleeWalk_bounded n numTypes_ (cs : list Contribution) :
  Forall (fun c => length c.2 = n ∧ nonneg c.2) cs →
  ∀ r bound,
    ccInv r → ccBounded n bound r →
    bound + totalWeight cs <= int64_max →
    let r' := fold_left (fun r c => callerCalleeProcess numTypes_ c r) cs r in
    ccInv r' ∧ ccBounded n (bound + totalWeight cs) r'.
Proof.
  induction 1 as [|c cs [Hlen Hnn] Hcs IH]; intros r bound Hinv Hb Hmax.
  - simpl. split; [done |]. by rewrite Z.add_0_r.
  - cbn [fold_left]. rewrite totalWeight_cons in Hmax |- *.
    assert (Hw : 0 <= totalWeight cs).
    { apply totalWeight_nonneg. eapply Forall_impl; [exact Hcs |].
      by intros ? [_ ?]. }
    assert (Hfit : bound + costWeight c.2 <= int64_max).
    { exact (fits_prefix _ _ _ _ Hw Hmax). }
    destruct (callerCalleeWalk_bounded n numTypes_ bound
                (bound + costWeight c.2) c.2 c.1 r Hinv Hb Hlen Hnn
                (Z.le_refl _) Hfit) as [Hinv1 Hb1].
    destruct (IH _ _ Hinv1 Hb1) as [Hinv2 Hb2].
    { by rewrite <- Z.add_assoc. }
    split; [done |]. by rewrite Z.add_assoc.
Qed.

Lemma ccInv_init costs :
  ccInv (mkCallerCalleeResults ∅ (initializeCostsFrom costs)
                               (initializeCostsFrom costs)).
Proof. unfold ccInv. simpl. split_and!; done. Qed.

Lemma contributions_nonneg_ok costs parents data :
  wfCosts costs →
  Forall (fun c => nonneg c.2) (contributions costs parents data) →
  Forall (fun c => length c.2 = numTypes costs ∧ nonneg c.2)
         (contributions costs parents data).
Proof.
  intros Hwf Hnn. pose proof (contributions_ok costs data Hwf parents) as Hok.
  rewrite Forall_forall in Hnn, Hok. apply Forall_forall. intros c Hc.
  split; [| by apply Hnn]. destruct (Hok c Hc) as [_ Hc2].
  by apply okCost_length.
Qed.

(** In the caller-callee table built from a well-formed input with
    non-negative leaf contributions whose total weight fits in [qint64],
    the inclusive cost of every entry dominates its self cost. *)
Lemma callerCallee_inclusive_ge_self (bottomUpData : BottomUpResults) :
  wfCosts (bu_costs bottomUpData) →
  Forall (fun c => nonneg c.2)
         (contributions (bu_costs bottomUpData) [] (bu_root bottomUpData)) →
  totalWeight (contributions (bu_costs bottomUpData) []
                             (bu_root bottomUpData)) <= int64_max →
  let results := callerCalleesFromBottomUpData bottomUpData emptyResults in
  ∀ s e, entries results !! s = Some e →
         Forall2 Z.le (itemCost (cc_selfCosts results) (cce_id e))
                      (itemCost (cc_inclusiveCosts results) (cce_id e)).
Proof.
  intros Hwf Hnn Hmax results s e He. subst results.
  unfold callerCalleesFromBottomUpData in *.
  rewrite buildCallerCalleeResult_fold in *. simpl in *.
  set (cs := contributions (bu_costs bottomUpData) [] (bu_root bottomUpData))
    in *.
  pose proof (totalWeight_processed cs Hnn) as Hle.
  destruct (fold_callerCalleeWalk_bounded (numTypes (bu_costs bottomUpData))
              (numTypes (bu_costs bottomUpData)) (processed cs)
              (Forall_processed _ (contributions_nonneg_ok _ _ _ Hwf Hnn))
              _ 0 (ccInv_init (bu_costs bottomUpData)))
    as [_ Hb].
  - intros s'. unfold selfOf, inclusiveOf. simpl. rewrite lookup_empty. simpl.
    split; [by apply costBounded_zero | apply length_replicate].
  - lia.
  - destruct (Hb s) as [Hbs _]. unfold selfOf, inclusiveOf in Hbs.
    rewrite He in Hbs. by eapply costBounded_le.
Qed.

(** *** Top-down tree *)

Lemma bubbleUp_bounded n outside skipFirstLevel bound bound' diff node stack st :
  tdInv n outside stack st → tdBounded bound st →
  node ≠ [] → length diff = n → nonneg diff →
  bound + costWeight diff <= bound' → bound' <= int64_max →
  tdBounded bound' (bubbleUp skipFirstLevel diff node stack st).2.
Proof.
  intros Hinv Hb Hne Hlen Hnn Hbound Hmax.
  destruct Hinv as (Hnd & Hlt & _ & _ & _ & Hwi & _ & Hni).
  apply NoDup_app in Hnd as (_ & _ & Hnd).
  apply Forall_app in Hlt as [_ Hlt].
  destruct (bubbleUp_costs skipFirstLevel diff node stack st Hne Hnd Hlt)
    as (path & x & _ & Hx & _ & Hincl & Hself).
  intros id. rewrite Hincl, Hself.
  destruct (costBounded_credit bound bound' _ _ diff (Hb id))
    as (H1 & H2 & H3); try done.
  { rewrite Hlen, <- Hni. symmetry. apply okCost_length.
    by apply okCost_itemCost. }
  destruct (decide (id = x)) as [-> | Hne'].
  - rewrite decide_True; [done | by apply last_elem_of].
  - by destruct (decide (id ∈ path)).
Qed.

Lemma fold_bubbleUp_bounded n outside skipFirstLevel (cs : list Contribution) :
  Forall (fun c => c.1 ≠ [] ∧ okCost n c.2) cs →
  Forall (fun c => nonneg c.2) cs →
  ∀ stack st bound,
    tdInv n outside stack st → tdBounded bound st →
    bound + totalWeight cs <= int64_max →
    tdBounded (bound + totalWeight cs)
      (fold_left (fun acc c => topDownProcess skipFirstLevel c acc)
                 cs (stack, st)).2.
Proof.
  induction 1 as [|c cs [Hc1 Hc2] Hcs IH]; intros Hnn stack st bound Hinv Hb Hmax.
  - simpl. by rewrite Z.add_0_r.
  - cbn [fold_left]. rewrite totalWeight_cons in Hmax |- *.
    apply Forall_cons in Hnn as [Hnnc Hnn].
    pose proof (totalWeight_nonneg cs Hnn) as Hw.
    change (topDownProcess skipFirstLevel c (stack, st))
      with (bubbleUp skipFirstLevel c.2 c.1 stack st).
    pose proof (okCost_length _ _ Hc2) as Hlen.
    destruct (bubbleUp_inv n outside skipFirstLevel c.2 c.1 stack st Hinv Hc1
                Hlen) as (Hinv' & _).
    assert (Hfit : bound + costWeight c.2 <= int64_max).
    { exact (fits_prefix _ _ _ _ Hw Hmax). }
    pose proof (bubbleUp_bounded n outside skipFirstLevel bound
                  (bound + costWeight c.2) c.2 c.1 stack st Hinv Hb Hc1 Hlen
                  Hnnc (Z.le_refl _) Hfit) as Hb'.
    destruct (bubbleUp skipFirstLevel c.2 c.1 stack st) as [stack' st'].
    simpl in Hinv', Hb'. rewrite Z.add_assoc.
    apply IH; try done. by rewrite <- Z.add_assoc.
Qed.

(** *** The children of the cursor *)

Lemma childIds_forestIds (children : list TopDown) :
  td_id <$> children ⊆ forestIds children.
Proof.
  induction children as [|c cs IH]; [set_solver |].
  rewrite forestIds_cons, fmap_cons. set_solver.
Qed.

Lemma tdIds_child_subset (children : list TopDown) frame :
  frame ∈ children → tdIds frame ⊆ forestIds children.
Proof.
  induction children as [|c cs IH]; [set_solver |].
  rewrite forestIds_cons. intros [-> | Hin]%elem_of_cons; set_solver.
Qed.

(** In a forest without duplicate ids the roots are distinct and differ
    from all their descendants. *)
Lemma forest_NoDup_children (children : list TopDown) :
  NoDup (forestIds children) →
  NoDup (td_id <$> children)
  ∧ ∀ frame id, frame ∈ children → id ∈ tdIds frame →
                id ∉ td_id <$> children.
Proof.
  induction children as [|c cs IH]; intros Hnd.
  - split; [constructor | set_solver].
  - rewrite forestIds_cons in Hnd. apply NoDup_cons in Hnd as [Hc Hnd].
    apply NoDup_app in Hnd as (Hndc & Hdisj & Hndcs).
    destruct (IH Hndcs) as [IH1 IH2].
    pose proof (childIds_forestIds cs) as Hsub.
    split.
    + rewrite fmap_cons. constructor; [| done]. set_solver.
    + intros frame id [-> | Hin]%elem_of_cons Hid; rewrite fmap_cons.
      * apply not_elem_of_cons. split; [set_solver |].
        intros Hcs. apply (Hdisj id Hid). by apply Hsub.
      * apply not_elem_of_cons. split.
        -- pose proof (tdIds_child_subset cs frame Hin). set_solver.
        -- by eapply IH2.
Qed.

Lemma costWeight_zero n : costWeight (zeroCost n) = 0.
Proof. induction n as [|n IH]; simpl; [done | unfold zeroCost in IH; lia]. Qed.

(** Adding a non-negative vector within the bound adds its weight. *)
Lemma costWeight_itemAdd bound self inclusive diff :
  costBounded bound self inclusive →
  length diff = length inclusive → nonneg diff →
  bound + costWeight diff <= int64_max →
  costWeight (itemAdd inclusive diff) = costWeight inclusive + costWeight diff.
Proof.
  intros Hb. revert diff.
  induction Hb as [|x y self inclusive [[Hx Hxy] Hy] Hrest IH];
    intros diff Hlen Hnn Hmax.
  - by destruct diff.
  - destruct diff as [|d diff]; [done |]. simpl in Hlen.
    apply Forall_cons in Hnn as [Hd Hnn].
    pose proof (costWeight_nonneg _ Hnn) as Hw. simpl in Hmax.
    unfold itemAdd in *. simpl. rewrite IH; try done; try lia.
    rewrite add64_exact; [lia |].
    unfold in_int64, int64_min, int64_max in *. lia.
Qed.

Lemma weightAt_cons c id ids :
  weightAt c (id :: ids) = costWeight (itemCost c id) + weightAt c ids.
Proof. done. Qed.

Lemma weightAt_app c l1 l2 :
  weightAt c (l1 ++ l2) = weightAt c l1 + weightAt c l2.
Proof.
  induction l1 as [|id l1 IH]; [done |].
  rewrite <- app_comm_cons, !weightAt_cons, IH. lia.
Qed.

Lemma weightAt_ext c c' ids :
  (∀ id, id ∈ ids → itemCost c' id = itemCost c id) →
  weightAt c' ids = weightAt c ids.
Proof.
  induction ids as [|id ids IH]; intros Heq; [done |].
  rewrite !weightAt_cons, Heq, IH; [done | | by left].
  intros id' Hid'. apply Heq. by right.
Qed.

(** Crediting one of the distinct ids adds the weight of [diff]. *)
Lemma weightAt_credit bound self c c' diff x0 ids :
  NoDup ids → x0 ∈ ids →
  (∀ id, id ∈ ids →
         itemCost c' id = if decide (id = x0) then itemAdd (itemCost c id) diff
                          else itemCost c id) →
  costBounded bound self (itemCost c x0) →
  length diff = length (itemCost c x0) → nonneg diff →
  bound + costWeight diff <= int64_max →
  weightAt c' ids = weightAt c ids + costWeight diff.
Proof.
  intros Hnd Hx Heq Hb Hlen Hnn Hmax.
  induction Hnd as [|id ids Hid Hnd IH]; [by apply elem_of_nil in Hx |].
  rewrite !weightAt_cons.
  apply elem_of_cons in Hx as [-> | Hx].
  - rewrite (Heq id) by (by left). rewrite decide_True by done.
    rewrite (costWeight_itemAdd bound self) by done.
    rewrite (weightAt_ext c c' ids); [lia |].
    intros id' Hid'. rewrite Heq by (by right).
    rewrite decide_False; [done | by intros ->].
  - rewrite (Heq id) by (by left).
    rewrite decide_False by (by intros ->).
    rewrite IH; [lia | done |].
    intros id' Hid'. apply Heq. by right.
Qed.

(** One walk below the cursor adds the weight of [diff] to the inclusive
    costs of the children of the cursor, and leaves the inclusive costs of
    the rest of the tree alone. *)
Lemma bubbleUp_children n outside skipFirstLevel bound diff node stack st :
  tdInv n outside stack st → tdBounded bound st →
  node ≠ [] → length diff = n → nonneg diff →
  bound + costWeight diff <= int64_max →
  let r := bubbleUp skipFirstLevel diff node stack st in
  weightAt (bs_inclusiveCosts r.2) (childIds r.1)
  = weightAt (bs_inclusiveCosts st) (childIds stack) + costWeight diff
  ∧ (∀ id, id ∈ outside →
           itemCost (bs_inclusiveCosts r.2) id
           = itemCost (bs_inclusiveCosts st) id).
Proof.
  intros Hinv Hb Hne Hlen Hnn Hmax r.
  destruct (bubbleUp_inv n outside skipFirstLevel diff node stack st Hinv Hne
              Hlen) as (Hinv' & _).
  fold r in Hinv'.
  destruct (bubbleUp_spec skipFirstLevel diff node Hne stack st)
    as (path & x & Hpath & _ & Hincl & _ & _ & _ & _ & _ & x0 & rest & -> & Hch).
  fold r in Hpath, Hincl, Hch.
  destruct Hinv as (_ & _ & _ & Hfi & _ & Hwi & _ & Hni).
  destruct Hinv' as (Hnd' & _).
  assert (Hndr : NoDup (tdIds r.1)) by by apply NoDup_app in Hnd' as (_ & _ & ?).
  destruct (pathIn_NoDup _ _ _ Hndr Hpath) as [Hndp Hsub].
  assert (Hcost : ∀ id, itemCost (bs_inclusiveCosts r.2) id
                        = if decide (id ∈ x0 :: rest)
                          then itemAdd (itemCost (bs_inclusiveCosts st) id) diff
                          else itemCost (bs_inclusiveCosts st) id).
  { intros id. rewrite Hincl. by apply fold_costsAdd_itemCost. }
  split.
  - (* the children of the cursor *)
    destruct node as [|s parents]; [done |]. simpl in Hpath.
    destruct Hpath as (frame' & Hin' & _ & Hid' & Hrest).
    assert (Hndf : NoDup (tdIds frame')).
    { destruct (tdIds_child_split _ _ Hin') as (l1 & l2 & Hsplit).
      rewrite Hsplit in Hndr. apply NoDup_app in Hndr as (_ & _ & Hndr).
      apply NoDup_cons in Hndr as [_ Hndr].
      by apply NoDup_app in Hndr as (Hndr & _). }
    destruct (pathIn_NoDup _ _ _ Hndf Hrest) as [_ Hsubrest].
    rewrite tdIds_children in Hndr.
    destruct (forest_NoDup_children _ Hndr) as [Hndc Hdesc].
    assert (Hx0 : x0 ∈ childIds r.1).
    { unfold childIds. rewrite <- Hid'. by apply list_elem_of_fmap_2. }
    assert (Hstep : weightAt (bs_inclusiveCosts r.2) (childIds r.1)
                    = weightAt (bs_inclusiveCosts st) (childIds r.1)
                      + costWeight diff).
    { apply (weightAt_credit bound (itemCost (bs_selfCosts st) x0) _ _ _ x0);
        try done.
      - intros id Hid. rewrite Hcost.
        destruct (decide (id = x0)) as [-> | Hne0].
        + rewrite decide_True; [done | by left].
        + rewrite decide_False; [done |].
          intros [-> | Hr]%elem_of_cons; [done |].
          apply (Hdesc frame' id Hin'); [by apply Hsubrest | done].
      - rewrite Hlen, <- Hni. symmetry. apply okCost_length.
        by apply okCost_itemCost. }
    rewrite Hstep. f_equal.
    destruct Hch as [[_ ->] | [-> ->]]; [done |].
    rewrite weightAt_app, weightAt_cons.
    rewrite (itemCost_fresh _ _ _ Hfi) by lia.
    rewrite costWeight_zero. simpl. lia.
  - (* the rest of the tree *)
    intros id Hid. rewrite Hcost. rewrite decide_False; [done |].
    intros Hp. apply NoDup_app in Hnd' as (_ & Hdisj & _).
    apply (Hdisj id Hid). by apply Hsub.
Qed.

(** The walks for a list of contributions, below one cursor. *)
Lemma fold_bubbleUp_children n outside skipFirstLevel (cs : list Contribution) :
  Forall (fun c => c.1 ≠ [] ∧ okCost n c.2) cs →
  Forall (fun c => nonneg c.2) cs →
  ∀ stack st bound,
    tdInv n outside stack st → tdBounded bound st →
    bound + totalWeight cs <= int64_max →
    let r := fold_left (fun acc c => topDownProcess skipFirstLevel c acc)
                       cs (stack, st) in
    weightAt (bs_inclusiveCosts r.2) (childIds r.1)
    = weightAt (bs_inclusiveCosts st) (childIds stack) + totalWeight cs
    ∧ (∀ id, id ∈ outside →
             itemCost (bs_inclusiveCosts r.2) id
             = itemCost (bs_inclusiveCosts st) id).
Proof.
  induction 1 as [|c cs [Hc1 Hc2] Hcs IH]; intros Hnn stack st bound Hinv Hb Hmax.
  - simpl. split; [lia | done].
  - cbn [fold_left]. rewrite totalWeight_cons in Hmax |- *.
    apply Forall_cons in Hnn as [Hnnc Hnn].
    pose proof (totalWeight_nonneg cs Hnn) as Hw.
    change (topDownProcess skipFirstLevel c (stack, st))
      with (bubbleUp skipFirstLevel c.2 c.1 stack st).
    pose proof (okCost_length _ _ Hc2) as Hlen.
    assert (Hfit : bound + costWeight c.2 <= int64_max)
      by exact (fits_prefix _ _ _ _ Hw Hmax).
    destruct (bubbleUp_inv n outside skipFirstLevel c.2 c.1 stack st Hinv Hc1
                Hlen) as (Hinv' & _).
    pose proof (bubbleUp_bounded n outside skipFirstLevel bound
                  (bound + costWeight c.2) c.2 c.1 stack st Hinv Hb Hc1 Hlen
                  Hnnc (Z.le_refl _) Hfit) as Hb'.
    destruct (bubbleUp_children n outside skipFirstLevel bound c.2 c.1 stack st
                Hinv Hb Hc1 Hlen Hnnc Hfit) as [Hch Hframe].
    destruct (bubbleUp skipFirstLevel c.2 c.1 stack st) as [stack' st'].
    simpl in Hinv', Hb', Hch, Hframe.
    destruct (IH Hnn stack' st' _ Hinv' Hb') as [Hch' Hframe'].
    { by rewrite <- Z.add_assoc. }
    split.
    + rewrite Hch', Hch. by rewrite Z.add_assoc.
    + intros id Hid. rewrite Hframe' by done. by apply Hframe.
Qed.

(** *** The first-level nodes with [skipFirstLevel] *)

Lemma costBounded_mono bound bound' self inclusive :
  bound <= bound' → costBounded bound self inclusive →
  costBounded bound' self inclusive.
Proof.
  intros Hle Hb. eapply Forall2_impl; [exact Hb |].
  simpl. intros x y [? ?]. split; [done | lia].
Qed.

Lemma costBounded_inclusive_nonneg bound self inclusive :
  costBounded bound self inclusive → nonneg inclusive.
Proof.
  induction 1 as [|x y ? ? [[? ?] ?]]; constructor; [lia | done].
Qed.

(** The loop that sums the inclusive costs of the children into their
    parent [gid]. *)
Lemma sumChildren_bounded n (gid : N) (selfCosts : Costs)
    (children : list TopDown) :
  gid ∉ td_id <$> children →
  ∀ incl bound,
    wfCosts incl → numTypes incl = n →
    (∀ id, costBounded bound (itemCost selfCosts id) (itemCost incl id)) →
    bound + weightAt incl (td_id <$> children) <= int64_max →
    let incl' :=
      fold_left (fun inc child =>
                   costsAdd inc gid (itemCost inc (td_id child)))
                children incl in
    (∀ id, costBounded (bound + weightAt incl (td_id <$> children))
                       (itemCost selfCosts id) (itemCost incl' id))
    ∧ (∀ id, id ≠ gid → itemCost incl' id = itemCost incl id).
Proof.
  induction children as [|c cs IH]; intros Hg incl bound Hwf Hn Hb Hmax.
  - simpl. split; [| done]. intros id. by rewrite Z.add_0_r.
  - rewrite fmap_cons in Hg. apply not_elem_of_cons in Hg as [Hgc Hgcs].
    rewrite fmap_cons, weightAt_cons in Hmax |- *. cbn [fold_left].
    set (d := itemCost incl (td_id c)) in *.
    set (incl1 := costsAdd incl gid d).
    assert (Hd : nonneg d) by (eapply costBounded_inclusive_nonneg; apply Hb).
    assert (Hlen : ∀ id, length (itemCost incl id) = n).
    { intros id. rewrite <- Hn. apply okCost_length. by apply okCost_itemCost. }
    assert (Hrest : weightAt incl1 (td_id <$> cs) = weightAt incl (td_id <$> cs)).
    { apply weightAt_ext. intros id Hid. unfold incl1.
      apply itemCost_costsAdd_ne. by intros <-. }
    assert (Hw : 0 <= weightAt incl (td_id <$> cs)).
    { clear -Hb. induction cs as [|c' cs IH]; [done |].
      rewrite fmap_cons, weightAt_cons.
      pose proof (costWeight_nonneg _
                    (costBounded_inclusive_nonneg _ _ _ (Hb (td_id c')))).
      lia. }
    assert (Hfit : bound + costWeight d <= int64_max)
      by exact (fits_prefix _ _ _ _ Hw Hmax).
    assert (Hb1 : ∀ id, costBounded (bound + costWeight d)
                          (itemCost selfCosts id) (itemCost incl1 id)).
    { intros id.
      assert (Hlend : length d = length (itemCost incl id))
        by (unfold d; by rewrite !Hlen).
      destruct (costBounded_credit bound (bound + costWeight d) _ _ d (Hb id)
                  Hlend Hd (Z.le_refl _) Hfit) as (H1 & H2 & _).
      unfold incl1. rewrite itemCost_costsAdd.
      destruct (decide (gid = id)) as [<- | Hne]; done. }
    destruct (IH Hgcs incl1 (bound + costWeight d)) as [IH1 IH2]; try done.
    + apply wfCosts_costsAdd; [done |]. unfold d. by rewrite Hlen.
    + rewrite Hrest. by rewrite <- Z.add_assoc.
    + split.
      * intros id. rewrite Z.add_assoc, <- Hrest. apply IH1.
      * intros id Hne. rewrite IH2 by done. unfold incl1.
        apply itemCost_costsAdd_ne. by intros <-.
Qed.

Lemma groupsWeight_cons costs group groups :
  groupsWeight costs (group :: groups)
  = totalWeight (processed (contributions costs [bu_symbol group] group))
    + groupsWeight costs groups.
Proof. done. Qed.

Lemma groupsWeight_nonneg costs groups :
  Forall (fun group =>
            Forall (fun c => nonneg c.2)
                   (contributions costs [bu_symbol group] group)) groups →
  0 <= groupsWeight costs groups.
Proof.
  induction 1 as [|g gs Hg _ IH]; [done |]. rewrite groupsWeight_cons.
  pose proof (totalWeight_nonneg _ (Forall_processed _ Hg)). lia.
Qed.

Lemma childIds_subset node : childIds node ⊆ tdIds node.
Proof. rewrite tdIds_children. apply childIds_forestIds. Qed.

Lemma elem_of_forestIds_child (children : list TopDown) t id :
  t ∈ children → id ∈ childIds t → id ∈ forestIds children.
Proof.
  intros Ht Hid. apply (tdIds_child_subset children t Ht).
  by apply childIds_subset.
Qed.

Lemma skip_fit_walks (j w wg : Z) :
  0 <= j → 0 <= w → 0 <= wg → (j + 1) * w + wg <= (j + 2) * (w + wg).
Proof. nia. Qed.

Lemma skip_fit_sum (j w wg cw : Z) :
  0 <= j → 0 <= w → 0 <= wg → cw <= w + wg →
  (j + 1) * w + wg + cw <= (j + 1 + 1) * (w + wg).
Proof. nia. Qed.

(** One first-level row keeps the bounds. *)
Lemma fromBottomUpGroup_skipInv costs j w root st group :
  wfCosts costs →
  Forall (fun c => nonneg c.2)
         (contributions costs [bu_symbol group] group) →
  skipInv (numTypes costs) j w root st →
  (j + 2)
  * (w + totalWeight (processed (contributions costs [bu_symbol group] group)))
  <= int64_max →
  skipInv (numTypes costs) (j + 1)
    (w + totalWeight (processed (contributions costs [bu_symbol group] group)))
    (fromBottomUpGroup costs (root, st) group).1
    (fromBottomUpGroup costs (root, st) group).2.
Proof.
  intros Hwf Hnn0 (Hinv & Hb & Hj & Hw & Hch) Hmax.
  destruct (fromBottomUpGroup_inv costs root st group Hwf Hinv) as [HinvR _].
  revert HinvR. unfold fromBottomUpGroup.
  destruct (entryForSymbol root (bu_symbol group) (bs_maxId st))
    as [[[before g] after] m1] eqn:Hentry.
  apply entryForSymbol_spec in Hentry as [Hsym Hcases].
  rewrite buildTopDownResult_fold.
  set (cs := processed (contributions costs [bu_symbol group] group)) in *.
  set (wg := totalWeight cs) in *.
  set (outside := forestIds before ++ td_id g :: forestIds after).
  assert (Hok : Forall (fun c => c.1 ≠ [] ∧ okCost (numTypes costs) c.2) cs)
    by apply processed_ok, contributions_ok, Hwf.
  assert (Hnn : Forall (fun c => nonneg c.2) cs) by by apply Forall_processed.
  assert (Hwg : 0 <= wg) by by apply totalWeight_nonneg.
  assert (Hids : outside ++ tdIds g ≡ₚ tdIds root ++ idRange (bs_maxId st) m1
                 ∧ (bs_maxId st ≤ m1)%N).
  { unfold outside. destruct Hcases as [[Hchild ->] | (-> & -> & -> & ->)].
    - rewrite idRange_nil, app_nil_r, (tdIds_children root), Hchild.
      rewrite forestIds_app, forestIds_cons. split; [| lia].
      rewrite <- !app_assoc. apply Permutation_app_head. simpl.
      constructor. apply Permutation_app_comm.
    - rewrite idRange_cons, idRange_nil by lia. simpl.
      rewrite forestIds_nil, (tdIds_children root), !app_nil_r.
      split; [done | lia]. }
  destruct Hids as [Hids Hle].
  assert (Hgw : weightAt (bs_inclusiveCosts st) (childIds g) <= w).
  { destruct Hcases as [[Hchild _] | (_ & _ & -> & _)]; [| done].
    apply Hch. rewrite Hchild. apply elem_of_app. right. by left. }
  assert (Hold : ∀ t, t ∈ before ++ after → t ∈ td_children root).
  { intros t Ht. destruct Hcases as [[Hchild _] | (-> & -> & _ & _)].
    - rewrite Hchild. apply elem_of_app in Ht as [Ht | Ht];
        apply elem_of_app; [by left | right; by right].
    - by rewrite app_nil_r in Ht. }
  pose proof Hinv as (Hnd & Hlt & Hfs & Hfi & Hws & Hwi & Hns & Hni).
  simpl in Hnd, Hlt.
  assert (Hinv1 : tdInv (numTypes costs) outside g
                    (mkBuildState (bs_inclusiveCosts st) (bs_selfCosts st) m1)).
  { unfold tdInv. simpl. split_and!; try done.
    - rewrite Hids. apply NoDup_app. split_and!; [done | | apply NoDup_idRange].
      intros id Hin Hr. apply elem_of_idRange in Hr.
      rewrite Forall_forall in Hlt. specialize (Hlt _ Hin). lia.
    - rewrite Hids. apply Forall_app. split.
      + eapply Forall_impl; [exact Hlt |]. simpl. lia.
      + apply Forall_forall. intros id Hr. apply elem_of_idRange in Hr. lia.
    - by eapply freshFrom_mono.
    - by eapply freshFrom_mono. }
  assert (Hb1 : tdBounded ((j + 1) * w)
                  (mkBuildState (bs_inclusiveCosts st) (bs_selfCosts st) m1))
    by exact Hb.
  assert (Hfit1 : (j + 1) * w + wg <= int64_max).
  { etrans; [apply (skip_fit_walks j w wg Hj Hw Hwg) | exact Hmax]. }
  destruct (fold_bubbleUp_inv (numTypes costs) outside true cs Hok g _ Hinv1)
    as (Hinv2 & Hid & _ & _).
  pose proof (fold_bubbleUp_bounded (numTypes costs) outside true cs Hok Hnn
                g _ _ Hinv1 Hb1 Hfit1) as Hb2.
  destruct (fold_bubbleUp_children (numTypes costs) outside true cs Hok Hnn
              g _ _ Hinv1 Hb1 Hfit1) as [Hcw Hframe].
  destruct (fold_left _ cs (g, _)) as [g' st'].
  simpl in Hinv2, Hid, Hb2, Hcw, Hframe. simpl.
  intros HinvR.
  pose proof Hinv2 as (Hnd2 & Hlt2 & Hfs2 & Hfi2 & Hws2 & Hwi2 & Hns2 & Hni2).
  assert (Hgid_out : td_id g' ∈ outside).
  { rewrite Hid. unfold outside. apply elem_of_app. right. by left. }
  assert (Hgid_children : td_id g' ∉ td_id <$> td_children g').
  { intros Hin. apply NoDup_app in Hnd2 as (_ & Hdisj & _).
    apply (Hdisj _ Hgid_out). by apply childIds_subset. }
  assert (Hcw' : weightAt (bs_inclusiveCosts st') (childIds g') <= w + wg)
    by lia.
  assert (Hfit2 : (j + 1) * w + wg
                  + weightAt (bs_inclusiveCosts st') (td_id <$> td_children g')
                  <= int64_max).
  { etrans; [| exact Hmax].
    etrans; [apply (skip_fit_sum j w wg _ Hj Hw Hwg Hcw') |].
    replace (j + 1 + 1) with (j + 2) by lia. done. }
  destruct (sumChildren_bounded (numTypes costs) (td_id g') (bs_selfCosts st')
              (td_children g') Hgid_children (bs_inclusiveCosts st')
              ((j + 1) * w + wg) Hwi2 Hni2 Hb2 Hfit2) as [Hb3 Hframe3].
  unfold skipInv. split_and!; try done; try lia.
  - intros id. simpl. unfold sumChildrenInclusive.
    eapply costBounded_mono; [| apply Hb3].
    by apply skip_fit_sum.
  - simpl. intros t Ht. unfold sumChildrenInclusive.
    apply elem_of_app in Ht as [Ht | [-> | Ht]%elem_of_cons].
    + (* a node before the cursor *)
      rewrite (weightAt_ext (bs_inclusiveCosts st)).
      * specialize (Hch t (Hold t ltac:(apply elem_of_app; by left))). lia.
      * intros id Hidt.
        assert (Hout : id ∈ outside).
        { unfold outside. apply elem_of_app. left.
          by eapply elem_of_forestIds_child. }
        rewrite Hframe3; [by apply Hframe |].
        intros ->. rewrite Hid in Hidt.
        apply NoDup_app in Hnd2 as (Hndo & _ & _).
        unfold outside in Hndo.
        apply NoDup_app in Hndo as (_ & Hdisj & _).
        apply (Hdisj (td_id g)).
        -- by eapply elem_of_forestIds_child.
        -- by left.
    + (* the cursor *)
      rewrite (weightAt_ext (bs_inclusiveCosts st')); [done |].
      intros id Hidt. apply Hframe3. intros ->. by apply Hgid_children.
    + (* a node after the cursor *)
      rewrite (weightAt_ext (bs_inclusiveCosts st)).
      * specialize (Hch t (Hold t ltac:(apply elem_of_app; by right))). lia.
      * intros id Hidt.
        assert (Hout : id ∈ outside).
        { unfold outside. apply elem_of_app. right. right.
          by eapply elem_of_forestIds_child. }
        rewrite Hframe3; [by apply Hframe |].
        intros ->. rewrite Hid in Hidt.
        apply NoDup_app in Hnd2 as (Hndo & _ & _).
        unfold outside in Hndo.
        apply NoDup_app in Hndo as (_ & _ & Hndo).
        apply NoDup_cons in Hndo as [Hnotin _]. apply Hnotin.
        by eapply elem_of_forestIds_child.
Qed.

Lemma skip_fit_group (j len w wg rest m : Z) :
  0 <= j → 0 <= len → 0 <= w → 0 <= wg → 0 <= rest →
  (j + (len + 1) + 1) * (w + (wg + rest)) <= m →
  (j + 2) * (w + wg) <= m.
Proof. nia. Qed.

Lemma skip_fit_rest (j len w wg rest m : Z) :
  (j + Z.succ len + 1) * (w + (wg + rest)) <= m →
  (j + 1 + len + 1) * (w + wg + rest) <= m.
Proof.
  intros H. etrans; [| exact H]. apply Z.eq_le_incl. ring.
Qed.

Lemma fold_fromBottomUpGroup_skipInv costs groups :
  wfCosts costs →
  Forall (fun group =>
            Forall (fun c => nonneg c.2)
                   (contributions costs [bu_symbol group] group)) groups →
  ∀ j w root st,
    skipInv (numTypes costs) j w root st →
    (j + Z.of_nat (length groups) + 1) * (w + groupsWeight costs groups)
    <= int64_max →
    skipInv (numTypes costs) (j + Z.of_nat (length groups))
      (w + groupsWeight costs groups)
      (fold_left (fromBottomUpGroup costs) groups (root, st)).1
      (fold_left (fromBottomUpGroup costs) groups (root, st)).2.
Proof.
  intros Hwf. induction 1 as [|g gs Hg Hgs IH]; intros j w root st Hinv Hmax.
  - simpl. by rewrite !Z.add_0_r.
  - cbn [fold_left]. rewrite groupsWeight_cons in Hmax |- *.
    pose proof Hinv as (_ & _ & Hj & Hw & _).
    pose proof (groupsWeight_nonneg costs gs Hgs) as Hrest.
    pose proof (totalWeight_nonneg _ (Forall_processed _ Hg)) as Hwg.
    rewrite length_cons, Nat2Z.inj_succ in Hmax |- *.
    assert (Hfit : (j + 2)
                   * (w + totalWeight
                            (processed (contributions costs [bu_symbol g] g)))
                   <= int64_max).
    { apply (skip_fit_group j (Z.of_nat (length gs)) w _
               (groupsWeight costs gs)); try done; try lia. }
    pose proof (fromBottomUpGroup_skipInv costs j w root st g Hwf Hg Hinv Hfit)
      as Hinv1.
    destruct (fromBottomUpGroup costs (root, st) g) as [root1 st1].
    simpl in Hinv1.
    replace (j + Z.succ (Z.of_nat (length gs)))
      with (j + 1 + Z.of_nat (length gs)) by lia.
    rewrite Z.add_assoc. apply IH; [done |].
    by apply skip_fit_rest.
Qed.

Lemma contributions_root_groups costs root :
  Forall (fun c => nonneg c.2) (contributions costs [] root) →
  Forall (fun group =>
            Forall (fun c => nonneg c.2)
                   (contributions costs [bu_symbol group] group))
         (bu_children root)
  ∧ groupsWeight costs (bu_children root)
    <= totalWeight (contributions costs [] root).
Proof.
  rewrite contributions_unfold.
  induction (bu_children root) as [|g gs IH]; intros Hnn.
  - split; [constructor | done].
  - simpl in Hnn. rewrite !Forall_app in Hnn.
    destruct Hnn as [[Hg Hd] Hgs]. destruct (IH Hgs) as [IH1 IH2].
    split; [by constructor |].
    rewrite groupsWeight_cons. simpl.
    pose proof (totalWeight_processed _ Hg) as Hle.
    apply Forall_cons in Hd as [Hd _]. simpl in Hd.
    pose proof (costWeight_nonneg _ Hd) as Hwd.
    assert (Happ : ∀ l1 l2, totalWeight (l1 ++ l2)
                            = totalWeight l1 + totalWeight l2).
    { intros l1 l2. induction l1 as [|c l1 IHl]; [done |].
      rewrite <- app_comm_cons, !totalWeight_cons, IHl. lia. }
    rewrite !Happ, totalWeight_cons. simpl.
    unfold Contribution, ItemCost in *. lia.
Qed.

Lemma tdBounded_init costs :
  tdBounded 0 (mkBuildState (initializeCostsFrom costs)
                            (initializeCostsFrom costs) 0).
Proof.
  intros id. unfold itemCost. simpl. rewrite lookup_empty. simpl.
  by apply costBounded_zero.
Qed.

(** In the top-down results of a monotone input the inclusive cost of
    every id dominates its self cost. *)
Lemma topDown_inclusive_ge_self bottomUpData skipFirstLevel :
  monotoneInput (bubbleFactor skipFirstLevel (bu_root bottomUpData))
                bottomUpData →
  ∀ id,
    Forall2 Z.le
      (itemCost (td_selfCosts (fromBottomUp bottomUpData skipFirstLevel)) id)
      (itemCost (td_inclusiveCosts (fromBottomUp bottomUpData skipFirstLevel))
                id).
Proof.
  intros (Hwf & Hnn & Hmax) id. unfold fromBottomUp.
  pose proof (tdInv_init (bu_costs bottomUpData)) as Hinit.
  pose proof (tdBounded_init (bu_costs bottomUpData)) as Hb0.
  destruct skipFirstLevel; simpl in *.
  - destruct (contributions_root_groups _ _ Hnn) as [Hgroups Hle].
    pose proof (groupsWeight_nonneg _ _ Hgroups) as Hgw.
    assert (Hinv0 : skipInv (numTypes (bu_costs bottomUpData)) 0 0 emptyTopDown
                      (mkBuildState (initializeCostsFrom (bu_costs bottomUpData))
                         (initializeCostsFrom (bu_costs bottomUpData)) 0)).
    { unfold skipInv. split_and!; try done.
      intros t Ht. by apply elem_of_nil in Ht. }
    pose proof (fold_fromBottomUpGroup_skipInv (bu_costs bottomUpData)
                  (bu_children (bu_root bottomUpData)) Hwf Hgroups 0 0 _ _
                  Hinv0) as Hfinal.
    destruct (fold_left _ _ _) as [root st]. simpl in *.
    destruct Hfinal as (_ & Hb & _).
    + rewrite !Z.add_0_l. etrans; [| exact Hmax].
      apply Z.mul_le_mono_nonneg_l; [lia | done].
    + eapply costBounded_le. apply Hb.
  - rewrite buildTopDownResult_fold. simpl.
    set (cs := contributions (bu_costs bottomUpData) [] (bu_root bottomUpData))
      in *.
    pose proof (totalWeight_processed cs Hnn) as Hle.
    pose proof (fold_bubbleUp_bounded (numTypes (bu_costs bottomUpData)) []
                  false (processed cs)
                  (processed_ok _ _ (contributions_ok _ _ Hwf _))
                  (Forall_processed _ Hnn) _ _ 0 Hinit Hb0) as Hb.
    destruct (fold_left _ _ _) as [root st]. simpl in *.
    eapply costBounded_le. apply Hb. lia.
Qed.

(** C7, counterexample: the row [b] has cost {0} and its row [c] has cost
    {1}, so the leaf contribution of [b] is {-1}; it is bubbled up through
    the top-down node of [b], which gets inclusive cost {-1} and no self
    cost. *)
Lemma self_exceeds_inclusive_when_cost_decreases :
  wfCosts (bu_costs decreasingInput)
  ∧ 3%N ∈ tdIds (td_root (fromBottomUp decreasingInput false))
  ∧ itemCost (td_selfCosts (fromBottomUp decreasingInput false)) 3 = [0]
  ∧ itemCost (td_inclusiveCosts (fromBottomUp decreasingInput false)) 3 = [-1]
  ∧ ¬ Forall2 Z.le
        (itemCost (td_selfCosts (fromBottomUp decreasingInput false)) 3)
        (itemCost (td_inclusiveCosts (fromBottomUp decreasingInput false)) 3).
Proof.
  split; [solve_wfCosts |].
  split; [vm_compute; set_solver |].
  assert (H1 : itemCost (td_selfCosts (fromBottomUp decreasingInput false)) 3
               = [0]) by (vm_compute; reflexivity).
  assert (H2 : itemCost (td_inclusiveCosts (fromBottomUp decreasingInput false))
                        3 = [-1]) by (vm_compute; reflexivity).
  rewrite H1, H2. split_and!; try done.
  intros H. apply Forall2_cons in H as [H _]. lia.
Qed.

(** C7, amended: for an input whose cost matrix has matching category
    count, whose leaf contributions are non-negative in every category, and
    whose total weight (times the number of first-level rows plus one,
    with [skipFirstLevel]) fits in [qint64], the inclusive cost is greater
    than or equal to the self cost for every cost category at every node of
    the top-down results and at every entry of the caller-callee
    results. *)
Theorem inclusive_at_least_self
    (bottomUpData : BottomUpResults) (skipFirstLevel : bool) :
  monotoneInput (bubbleFactor skipFirstLevel (bu_root bottomUpData))
                bottomUpData →
  (∀ node,
     node ∈ tdNodes (td_root (fromBottomUp bottomUpData skipFirstLevel)) →
     Forall2 Z.le
       (itemCost (td_selfCosts (fromBottomUp bottomUpData skipFirstLevel))
                 (td_id node))
       (itemCost (td_inclusiveCosts (fromBottomUp bottomUpData skipFirstLevel))
                 (td_id node)))
  ∧ (∀ s e,
       entries (callerCalleesFromBottomUpData bottomUpData emptyResults) !! s
       = Some e →
       Forall2 Z.le
         (itemCost
            (cc_selfCosts
               (callerCalleesFromBottomUpData bottomUpData emptyResults))
            (cce_id e))
         (itemCost
            (cc_inclusiveCosts
               (callerCalleesFromBottomUpData bottomUpData emptyResults))
            (cce_id e))).
Proof.
  intros Hmono. split.
  - intros node _. by apply topDown_inclusive_ge_self.
  - destruct Hmono as (Hwf & Hnn & Hmax).
    apply callerCallee_inclusive_ge_self; try done.
    pose proof (totalWeight_nonneg _ Hnn) as Hw.
    etrans; [| exact Hmax].
    unfold bubbleFactor. destruct skipFirstLevel; nia.
Qed.

(** ** The properties on example inputs *)

Lemma zero_sum_check n (cs : list Contribution) :
  forallb (fun c => negb (itemSum c.2 =? 0) || bool_decide (c.2 = zeroCost n))
          cs = true →
  ∀ c, c ∈ cs → itemSum c.2 = 0 → c.2 = zeroCost n.
Proof.
  intros Hall c Hc Hz. rewrite forallb_forall in Hall.
  apply list_elem_of_In in Hc. specialize (Hall c Hc).
  apply orb_true_iff in Hall as [Hn | Hd].
  - apply negb_true_iff, Z.eqb_neq in Hn. done.
  - by apply bool_decide_eq_true in Hd.
Qed.

Lemma monotoneInput_check factor bottomUpData :
  wfCosts (bu_costs bottomUpData) →
  forallb (fun c => forallb (fun x => 0 <=? x) c.2)
          (contributions (bu_costs bottomUpData) [] (bu_root bottomUpData))
  = true →
  (factor * totalWeight (contributions (bu_costs bottomUpData) []
                                       (bu_root bottomUpData))
   <=? int64_max) = true →
  monotoneInput factor bottomUpData.
Proof.
  intros Hwf Hnn Hmax. split_and!; [done | | lia].
  apply Forall_forall. intros c Hc. rewrite forallb_forall in Hnn.
  apply list_elem_of_In in Hc. specialize (Hnn c Hc).
  apply Forall_forall. intros x Hx. rewrite forallb_forall in Hnn.
  apply list_elem_of_In in Hx. specialize (Hnn x Hx). lia.
Qed.

Lemma top_down_self_costs_conserved_witness :
  selfCostTotal (fromBottomUp chainInput false)
  = costSum 1 (snd <$> contributions (bu_costs chainInput) []
                                     (bu_root chainInput))
  ∧ costSum 1 (snd <$> contributions (bu_costs chainInput) []
                                     (bu_root chainInput))
    = totalCostOf (bu_costs chainInput) (bu_root chainInput).
Proof.
  apply (top_down_self_costs_conserved chainInput false).
  - solve_wfCosts.
  - apply zero_sum_check. vm_compute. reflexivity.
Defined.

Lemma top_down_walk_credits_witness :
  let r := bubbleUp true [10] [sym "main"; sym "foo"; sym "group"]
                    emptyTopDown (startState 1) in
  visitedChain true [sym "main"; sym "foo"; sym "group"]
  = [sym "main"; sym "foo"]
  ∧ ∃ path lastId,
      pathIn r.1 (visitedChain true [sym "main"; sym "foo"; sym "group"]) path
      ∧ last path = Some lastId
      ∧ NoDup path
      ∧ (∀ id, itemCost (bs_inclusiveCosts r.2) id
               = if decide (id ∈ path)
                 then itemAdd (itemCost (bs_inclusiveCosts (startState 1)) id)
                              [10]
                 else itemCost (bs_inclusiveCosts (startState 1)) id)
      ∧ (∀ id, itemCost (bs_selfCosts r.2) id
               = if decide (id = lastId)
                 then itemAdd (itemCost (bs_selfCosts (startState 1)) id) [10]
                 else itemCost (bs_selfCosts (startState 1)) id).
Proof.
  apply (top_down_walk_credits true [10]
           [sym "main"; sym "foo"; sym "group"] emptyTopDown (startState 1)).
  - discriminate.
  - apply NoDup_nil_2.
  - apply Forall_nil_2.
Defined.

Lemma inclusive_cost_credited_once_per_walk_witness :
  inclusiveOf (callerCalleeWalk 1 [5] [sym "f"; sym "g"; sym "f"]
                                (startResults 1)) (sym "f")
  = if decide (sym "f" ∈ [sym "f"; sym "g"; sym "f"])
    then itemAdd (inclusiveOf (startResults 1) (sym "f")) [5]
    else inclusiveOf (startResults 1) (sym "f").
Proof.
  apply (inclusive_cost_credited_once_per_walk 1 [5]
           [sym "f"; sym "g"; sym "f"] (startResults 1) (sym "f")).
  apply ccInv_init.
Defined.

Lemma per_library_costs_sum_to_self_costs_witness :
  wfCosts (td_selfCosts chainTopDown)
  ∧ costTotal (pl_costs (fromTopDown chainTopDown))
              (pl_id <$> pl_root (fromTopDown chainTopDown))
    = costTotal (td_selfCosts chainTopDown) (tdIds (td_root chainTopDown)).
Proof.
  assert (Hwf : wfCosts (td_selfCosts chainTopDown)) by solve_wfCosts.
  split; [exact Hwf |].
  apply (per_library_costs_sum_to_self_costs chainTopDown Hwf).
Defined.

Lemma inclusive_at_least_self_witness :
  (∀ node,
     node ∈ tdNodes (td_root (fromBottomUp chainInput true)) →
     Forall2 Z.le
       (itemCost (td_selfCosts (fromBottomUp chainInput true)) (td_id node))
       (itemCost (td_inclusiveCosts (fromBottomUp chainInput true))
                 (td_id node)))
  ∧ (∀ s e,
       entries (callerCalleesFromBottomUpData chainInput emptyResults) !! s
       = Some e →
       Forall2 Z.le
         (itemCost
            (cc_selfCosts (callerCalleesFromBottomUpData chainInput emptyResults))
            (cce_id e))
         (itemCost
            (cc_inclusiveCosts
               (callerCalleesFromBottomUpData chainInput emptyResults))
            (cce_id e))).
Proof.
  apply (inclusive_at_least_self chainInput true).
  apply monotoneInput_check.
  - solve_wfCosts.
  - vm_compute. reflexivity.
  - vm_compute. reflexivity.
Defined.

(** The walk of C3 on a recursive chain: [f] occurs twice and is credited
    once. *)
Example recursive_chain_inclusive :
  inclusiveOf (callerCalleeWalk 1 [5] [sym "f"; sym "g"; sym "f"]
                                (startResults 1)) (sym "f") = [5].
Proof. vm_compute. reflexivity. Qed.

(** The scenario of the specification: the chain [main], [foo], [bar] with
    cost {10} sampled in [bar] gives self cost {10} at [bar] and inclusive
    cost {10} at each of the three nodes. *)
Example chain_scenario :
  let r := fromBottomUp chainInput false in
  (td_symbol <$> tdNodes (td_root r)) = [sym "main"; sym "foo"; sym "bar"]
  ∧ (itemCost (td_selfCosts r) <$> tdIds (td_root r)) = [[0]; [0]; [10]]
  ∧ (itemCost (td_inclusiveCosts r) <$> tdIds (td_root r))
    = [[10]; [10]; [10]].
Proof. vm_compute. done. Qed.

(** A leaf contribution {5, -5} reaches no node, entry or edge. *)
Example cancelling_contribution_is_dropped :
  let input :=
    mkBottomUpResults (mkBottomUp 0 emptySymbol [mkBottomUp 1 (sym "a") []])
                      (costsOf 2 [(1%N, [5; -5])]) in
  td_children (td_root (fromBottomUp input false)) = []
  ∧ m_costs (td_inclusiveCosts (fromBottomUp input false)) = ∅
  ∧ entries (callerCalleesFromBottomUpData input emptyResults) = ∅
  ∧ m_costs (cc_inclusiveCosts
               (callerCalleesFromBottomUpData input emptyResults)) = ∅.
Proof. vm_compute. done. Qed.

(** The literal cases of the specification. *)
Example prettify_vector :
  prettifySymbol (Latin1 "std::vector<int, std::allocator<int>>")
  = Ret (Latin1 "std::vector<int>").
Proof. vm_compute. reflexivity. Qed.

Example prettify_string :
  prettifySymbol
    (Latin1 "std::__cxx11::basic_string<char, std::char_traits<char>, std::allocator<char>>")
  = Ret (Latin1 "std::string").
Proof. vm_compute. reflexivity. Qed.

(** ** findSameDepth and startsWith *)

#[local] Arguments bracketDepth : simpl never.

Lemma bracketDepth_nil : bracketDepth [] = 0.
Proof. done. Qed.

Lemma bracketDepth_cons c s :
  bracketDepth (c :: s) = depthChange c + bracketDepth s.
Proof. done. Qed.

Lemma bracketDepth_app s t :
  bracketDepth (s ++ t) = bracketDepth s + bracketDepth t.
Proof.
  induction s as [|c s IH]; [reflexivity |].
  rewrite <- app_comm_cons, !bracketDepth_cons, IH. lia.
Qed.

Lemma depth_step (c : QChar) (d : Z) :
  (if N.eqb c (Latin1Char "<") || N.eqb c (Latin1Char "(") then d + 1
   else if N.eqb c (Latin1Char ">") || N.eqb c (Latin1Char ")") then d - 1
   else d)
  = d + depthChange c.
Proof.
  unfold depthChange. destruct (_ || _); [lia |]. destruct (_ || _); lia.
Qed.

Lemma findSameDepthLoop_spec (rest : QString) (offset depth : Z) (ch : QChar)
    (returnNext : bool) :
  let hit k := rest !! k = Some ch
               ∧ depth + bracketDepth (take (S k) rest) = 0 in
  (findSameDepthLoop rest offset depth ch returnNext = -1
   ∧ ∀ k, ¬ hit k)
  ∨ ∃ k, (k < length rest)%nat
         ∧ findSameDepthLoop rest offset depth ch returnNext
           = offset + Z.of_nat k + (if returnNext then 1 else 0)
         ∧ hit k ∧ ∀ j, (j < k)%nat → ¬ hit j.
Proof.
  revert offset depth.
  induction rest as [|current rest IH]; intros offset depth hit.
  - left. split; [done |]. intros k [Hk _]. by destruct k.
  - cbn [findSameDepthLoop].
    rewrite !depth_step.
    set (depth' := depth + depthChange current).
    assert (Hd : depth' = depth + depthChange current) by done.
    destruct ((depth' =? 0) && N.eqb current ch) eqn:Hhit.
    + right. exists O. apply andb_true_iff in Hhit as [H0 Hc].
      apply Z.eqb_eq in H0. apply N.eqb_eq in Hc. subst current.
      split; [simpl; lia |]. split; [lia |]. split; [| intros j Hj; lia].
      split; [done |]. simpl.
      rewrite take_0, bracketDepth_cons, bracketDepth_nil. lia.
    + assert (Hno : ¬ hit O).
      { intros [Hc H0]. simpl in Hc, H0. injection Hc as ->.
        rewrite take_0, bracketDepth_cons, bracketDepth_nil in H0.
        apply andb_false_iff in Hhit as [Hne | Hne].
        - apply Z.eqb_neq in Hne. lia.
        - by rewrite N.eqb_refl in Hne. }
      assert (Hshift : ∀ k, hit (S k)
                ↔ rest !! k = Some ch
                  ∧ depth' + bracketDepth (take (S k) rest) = 0).
      { intros k. subst hit. cbn [lookup list_lookup take].
        rewrite bracketDepth_cons, Hd.
        split; intros [? ?]; (split; [done | lia]). }
      destruct (IH (offset + 1) depth')
        as [[Hr Hnone] | (k & Hk & Hr & Hk' & Hmin)].
      * left. split; [done |]. intros [|k]; [done |].
        rewrite Hshift. apply Hnone.
      * right. exists (S k). split; [simpl; lia |]. split; [rewrite Hr; lia |].
        split; [by apply Hshift |].
        intros [|j] Hj; [done |]. rewrite Hshift. apply Hmin. lia.
Qed.

(** [findSameDepth] returns the first index at or after [offset] at which
    [ch] stands while the brackets counted from [offset] are at depth
    zero (plus one with [returnNext]), and [-1] if there is none. *)
Theorem findSameDepth_first_hit (str : QString) (offset : nat) (ch : QChar)
    (returnNext : bool) :
  (findSameDepth str (Z.of_nat offset) ch returnNext = -1
   ∧ ∀ i, (offset ≤ i)%nat → ¬ sameDepthHit str offset ch i)
  ∨ ∃ i, (offset ≤ i < length str)%nat
         ∧ findSameDepth str (Z.of_nat offset) ch returnNext
           = Z.of_nat i + (if returnNext then 1 else 0)
         ∧ sameDepthHit str offset ch i
         ∧ ∀ j, (offset ≤ j < i)%nat → ¬ sameDepthHit str offset ch j.
Proof.
  unfold findSameDepth. rewrite Nat2Z.id.
  assert (Hhit : ∀ k, sameDepthHit str offset ch (offset + k)
                      ↔ drop offset str !! k = Some ch
                        ∧ 0 + bracketDepth (take (S k) (drop offset str)) = 0).
  { intros k. unfold sameDepthHit. rewrite lookup_drop.
    replace (S (offset + k) - offset)%nat with (S k) by lia.
    split; intros [? ?]; (split; [done | lia]). }
  destruct (findSameDepthLoop_spec (drop offset str) (Z.of_nat offset) 0 ch
              returnNext) as [[Hr Hnone] | (k & Hk & Hr & Hk' & Hmin)].
  - left. split; [done |]. intros i Hi.
    replace i with (offset + (i - offset))%nat by lia.
    rewrite Hhit. apply Hnone.
  - right. exists (offset + k)%nat. rewrite length_drop in Hk.
    split; [lia |]. split; [rewrite Hr; lia |]. split; [by apply Hhit |].
    intros j Hj. replace j with (offset + (j - offset))%nat by lia.
    rewrite Hhit. apply Hmin. lia.
Qed.

Lemma length_Latin1 (s : string) : length (Latin1 s) = String.length s.
Proof.
  unfold Latin1. rewrite length_map.
  induction s as [|a s IH]; simpl; [done | by rewrite IH].
Qed.

Lemma qstartsWith_prefix (str prefix : QString) :
  qstartsWith str prefix = true ↔ prefix `prefix_of` str.
Proof. apply qstartsWith_spec. Qed.

(** [startsWith] returns the length of the first of the [prefixes] that
    [str] starts with, and [-1] if it starts with none of them. *)
Theorem startsWith_first_match (str : QString) (prefixes : list string) :
  (startsWith str prefixes = -1
   ∧ ∀ p, p ∈ prefixes → ¬ Latin1 p `prefix_of` str)
  ∨ ∃ pre p post,
      prefixes = pre ++ p :: post
      ∧ (∀ q, q ∈ pre → ¬ Latin1 q `prefix_of` str)
      ∧ Latin1 p `prefix_of` str
      ∧ startsWith str prefixes = Z.of_nat (String.length p).
Proof.
  induction prefixes as [|p prefixes IH]; simpl.
  - left. split; [done |]. intros p Hp. by apply elem_of_nil in Hp.
  - destruct (qstartsWith str (Latin1 p)) eqn:Hs.
    + right. exists [], p, prefixes. split; [done |].
      split; [intros q Hq; by apply elem_of_nil in Hq |].
      split; [by apply qstartsWith_prefix |].
      unfold qsize. by rewrite length_Latin1.
    + assert (Hp : ¬ Latin1 p `prefix_of` str).
      { rewrite <- qstartsWith_prefix. by rewrite Hs. }
      destruct IH as [[Hr Hnone] | (pre & q & post & -> & Hpre & Hq & Hr)].
      * left. split; [done |]. intros q [-> | Hq]%elem_of_cons; auto.
      * right. exists (p :: pre), q, post. split; [done |].
        split; [| done]. intros q' [-> | Hq']%elem_of_cons; auto.
Qed.

(** ** The prettifier: independence of the fuel *)

Lemma bind_Ret {A B} (a : A) (k : A → outcome B) : (Ret a ≫= k) = k a.
Proof. done. Qed.

Lemma bind_ext {A B} (m : outcome A) (k1 k2 : A → outcome B) :
  (∀ a, k1 a = k2 a) → (m ≫= k1) = (m ≫= k2).
Proof. intros Hk. destruct m; unfold mbind, outcome_bind; simpl; auto. Qed.

Lemma bind_ext_within {A B} (len : A → nat) (n : nat) (m1 m2 : outcome A)
    (k1 k2 : A → outcome B) :
  m1 = m2 → withinLength len n m1 →
  (∀ a, (len a ≤ n)%nat → k1 a = k2 a) →
  (m1 ≫= k1) = (m2 ≫= k2).
Proof.
  intros <- Hm Hk. destruct m1; unfold mbind, outcome_bind; simpl; auto.
Qed.

(** The part of the prettifier after the internal namespace has been
    stripped returns a remaining view that is not longer than the one it
    starts from. *)
Ltac prettify_lengths symbol :=
  repeat match goal with
         | |- withinLength _ _ (Ret _) => simpl; lia
         | |- withinLength _ _ (if ?c then _ else _) => destruct c
         | |- withinLength _ _ (qmid _ _ ≫= _) =>
             eapply (withinLength_bind length);
             [apply withinLength_qmid; eassumption | intros ? ?]
         | |- withinLength _ _ (prettifySymbolFuel _ _ ≫= _) =>
             eapply (withinLength_bind (fun _ => O) _ O);
             [apply not_Timeout_withinLength, prettifySymbolFuel_returns;
              pose proof (length_qmidN symbol) as Hq;
              eapply Nat.le_lt_trans; [apply Hq | lia]
             | intros ? _]
         end.

Lemma prettifySymbolFuel_fuel (fuel1 fuel2 : nat) (str : QString) :
  (length str < fuel1)%nat → (length str < fuel2)%nat →
  prettifySymbolFuel fuel1 str = prettifySymbolFuel fuel2 str.
Proof.
  revert fuel2 str. induction fuel1 as [|fuel1 IH]; intros fuel2 str H1 H2;
    [lia |].
  destruct fuel2 as [|fuel2]; [lia |].
  cbn [prettifySymbolFuel].
  destruct (findStdLoop_returns (S (length str)) str 0) as (r & -> & Hr);
    [lia | lia |].
  rewrite !bind_Ret.
  destruct r as [pos|]; [| done].
  specialize (Hr pos eq_refl).
  eapply (bind_ext_within length (length str - 5)); [done | |].
  { unfold qmid, qsize.
    destruct (Z.ltb_spec pos 0); [lia |].
    destruct (Z.ltb_spec (Z.of_nat (length str)) pos); [lia |].
    simpl. rewrite length_drop. lia. }
  intros symbol0 Hs0.
  eapply (bind_ext_within length (length str - 5)); [done | |].
  { destruct (_ =? _); [done | by apply withinLength_qmid]. }
  intros symbol Hs. clear symbol0 Hs0. cbv zeta.
  eapply (bind_ext_within (fun p => length p.2) (length str - 5)).
  - repeat match goal with
           | |- ?x = ?x => reflexivity
           | |- (if ?c then _ else _) = _ => destruct c
           | |- (qmid _ _ ≫= _) = _ => apply bind_ext; intros ?
           | |- (prettifySymbolFuel fuel1 ?X ≫= _) = _ =>
               rewrite (IH fuel2 X)
                 by (pose proof (length_qmidN symbol) as Hq;
                     eapply Nat.le_lt_trans; [apply Hq | lia]);
               apply bind_ext; intros ?
           end.
  - prettify_lengths symbol.
  - intros [result symbol'] Hs'. simpl in Hs'.
    destruct symbol' as [|c symbol']; [done |].
    rewrite (IH fuel2) by (simpl in *; lia). done.
Qed.

(** ** The prettifier on template instances *)

#[local] Arguments findSameDepth : simpl never.
#[local] Arguments startsWith : simpl never.
#[local] Arguments qmid : simpl never.
#[local] Arguments qmidN : simpl never.
#[local] Arguments qleft : simpl never.

Lemma balancedb_spec (s : QString) : balancedb s = true → balanced s.
Proof.
  unfold balancedb, balanced. rewrite andb_true_iff, forallb_forall, Z.eqb_eq.
  intros [Hp H0]. split; [| done]. intros k.
  destruct (decide (k ≤ length s)%nat) as [Hk | Hk].
  - apply Z.leb_le, Hp, in_seq. lia.
  - rewrite take_ge by lia. lia.
Qed.

Lemma noTopLevelb_spec (ch : QChar) (s : QString) :
  noTopLevelb ch s = true → noTopLevel ch s.
Proof.
  unfold noTopLevelb, noTopLevel. rewrite forallb_forall. intros H k Hk.
  assert (Hlt : (k < length s)%nat) by (by eapply lookup_lt_Some).
  specialize (H k). rewrite in_seq in H. specialize (H ltac:(lia)).
  rewrite (nth_lookup_Some _ _ _ _ Hk), N.eqb_refl in H. simpl in H.
  apply negb_true_iff, Z.eqb_neq in H. done.
Qed.

Lemma prettifySymbol_view (name : QString) :
  prettifySymbol name = prettifySymbolView name.
Proof.
  unfold prettifySymbol. destruct (prettifySymbolView name) as [r| |];
    [| done | done].
  rewrite bind_Ret. unfold qeqb. by case_bool_decide; subst.
Qed.

Lemma prettifySymbolView_fuel (fuel : nat) (str : QString) :
  (length str < fuel)%nat →
  prettifySymbolFuel fuel str = prettifySymbolView str.
Proof. intros H. apply prettifySymbolFuel_fuel; lia. Qed.

Lemma prettifySymbolView_nil : prettifySymbolView [] = Ret [].
Proof. reflexivity. Qed.

Lemma findStdLoop_start (fuel : nat) (x : QString) :
  findStdLoop (S fuel) (Latin1 "std::" ++ x) 0 = Ret (Some 5).
Proof. reflexivity. Qed.

Lemma qmid_app (p s : QString) :
  qmid (p ++ s) (Z.of_nat (length p)) = Ret s.
Proof.
  unfold qmid, qsize. rewrite length_app.
  destruct (Z.ltb_spec (Z.of_nat (length p)) 0); [lia |].
  destruct (Z.ltb_spec (Z.of_nat (length p + length s)) (Z.of_nat (length p)));
    [lia |].
  simpl. by rewrite Nat2Z.id, drop_app_length.
Qed.

Lemma qleft_app (p s : QString) : qleft (p ++ s) (Z.of_nat (length p)) = p.
Proof. unfold qleft. by rewrite Nat2Z.id, take_app_length. Qed.

Lemma findSameDepth_app (p s : QString) (ch : QChar) (returnNext : bool) :
  findSameDepth (p ++ s) (Z.of_nat (length p)) ch returnNext
  = findSameDepthLoop s (Z.of_nat (length p)) 0 ch returnNext.
Proof. unfold findSameDepth. by rewrite Nat2Z.id, drop_app_length. Qed.

(** The scan passes over a segment in which it finds no hit. *)
Lemma findSameDepthLoop_skip (s rest : QString) (offset depth : Z)
    (ch : QChar) (returnNext : bool) :
  (∀ k, s !! k = Some ch → depth + bracketDepth (take (S k) s) ≠ 0) →
  findSameDepthLoop (s ++ rest) offset depth ch returnNext
  = findSameDepthLoop rest (offset + Z.of_nat (length s))
                      (depth + bracketDepth s) ch returnNext.
Proof.
  revert offset depth. induction s as [|c s IH]; intros offset depth Hno.
  - simpl. rewrite bracketDepth_nil. f_equal; lia.
  - rewrite <- app_comm_cons. cbn [findSameDepthLoop]. rewrite !depth_step.
    destruct ((depth + depthChange c =? 0) && N.eqb c ch) eqn:Hhit.
    + apply andb_true_iff in Hhit as [H0 Hc].
      apply Z.eqb_eq in H0. apply N.eqb_eq in Hc. subst c.
      exfalso. apply (Hno O); [done |].
      simpl. rewrite take_0, bracketDepth_cons, bracketDepth_nil. lia.
    + rewrite IH.
      * rewrite bracketDepth_cons. simpl length. f_equal; lia.
      * intros k Hk. specialize (Hno (S k) Hk).
        simpl in Hno. rewrite bracketDepth_cons in Hno. lia.
Qed.

(** The scan stops at [ch] when the depth is zero there. *)
Lemma findSameDepthLoop_hit (ch : QChar) (rest : QString) (offset depth : Z)
    (returnNext : bool) :
  depth + depthChange ch = 0 →
  findSameDepthLoop (ch :: rest) offset depth ch returnNext
  = offset + (if returnNext then 1 else 0).
Proof.
  intros H0. cbn [findSameDepthLoop]. rewrite !depth_step.
  by rewrite H0, N.eqb_refl.
Qed.

Lemma balanced_app_nonneg (s t : QString) (k : nat) :
  balanced s → balanced t → 0 <= bracketDepth (take k (s ++ t)).
Proof.
  intros [Hs Hs0] [Ht _]. rewrite take_app, bracketDepth_app.
  specialize (Hs k). specialize (Ht (k - length s)%nat). lia.
Qed.

Lemma balanced_app (s t : QString) : balanced s → balanced t → balanced (s ++ t).
Proof.
  intros Hs Ht. split; [intros k; by apply balanced_app_nonneg |].
  rewrite bracketDepth_app. destruct Hs as [_ ->], Ht as [_ ->]. done.
Qed.

Lemma balanced_neutral (c : QChar) : depthChange c = 0 → balanced [c].
Proof.
  intros Hc. split.
  - intros [|k]; simpl; [by rewrite bracketDepth_nil |].
    rewrite take_nil, bracketDepth_cons, bracketDepth_nil. lia.
  - rewrite bracketDepth_cons, bracketDepth_nil. lia.
Qed.

#[local] Arguments prettifySymbolView : simpl never.

Lemma qmid_std (x : QString) : qmid (Latin1 "std::" ++ x) 5 = Ret x.
Proof. apply (qmid_app (Latin1 "std::")). Qed.

Lemma qleft_std (x : QString) : qleft (Latin1 "std::" ++ x) 5 = Latin1 "std::".
Proof. apply (qleft_app (Latin1 "std::")). Qed.

Lemma eqb_m1_nat (n : nat) : (Z.of_nat n =? -1) = false.
Proof. apply Z.eqb_neq. lia. Qed.

Lemma oneParameter_cases (P : string → Prop) :
  P "vector<"%string → P "set<"%string → P "deque<"%string →
  P "list<"%string → P "forward_list<"%string → P "multiset<"%string →
  P "unordered_set<"%string → P "unordered_multiset<"%string →
  ∀ name, name ∈ oneParameterTemplates → P name.
Proof.
  intros ???????? name H. unfold oneParameterTemplates in H.
  repeat (apply elem_of_cons in H as [-> | H]; [done |]).
  by apply elem_of_nil in H.
Qed.

Lemma oneParameter_startsWith (name : string) (x : QString) :
  name ∈ oneParameterTemplates →
  startsWith (Latin1 name ++ x) ["__cxx11::"; "__1::"]%string = -1
  ∧ startsWith (Latin1 name ++ x) ["basic_string<"%string] = -1
  ∧ startsWith (Latin1 name ++ x) oneParameterTemplates
    = Z.of_nat (length (Latin1 name)).
Proof.
  revert name. apply oneParameter_cases; by split_and!.
Qed.

Lemma oneParameter_scan (name : string) (x : QString) (offset : Z)
    (returnNext : bool) :
  name ∈ oneParameterTemplates →
  findSameDepthLoop (Latin1 name ++ x) offset 0 (Latin1Char ">") returnNext
  = findSameDepthLoop x (offset + Z.of_nat (length (Latin1 name))) 1
                      (Latin1Char ">") returnNext.
Proof.
  intros Hname. rewrite findSameDepthLoop_skip.
  - f_equal. revert name Hname. by apply oneParameter_cases.
  - intros k Hk _. apply list_elem_of_lookup_2, list_elem_of_In in Hk.
    revert name Hname Hk.
    apply (oneParameter_cases
             (fun name => In (Latin1Char ">") (Latin1 name) → False));
      vm_compute; intuition discriminate.
Qed.

Lemma internalNamespace_strip (ns : string) (x : QString) :
  ns ∈ internalNamespaces →
  startsWith x ["__cxx11::"; "__1::"]%string = -1 →
  (if startsWith (Latin1 ns ++ x) ["__cxx11::"; "__1::"]%string =? -1
   then @Ret QString (Latin1 ns ++ x)
   else qmid (Latin1 ns ++ x)
             (startsWith (Latin1 ns ++ x) ["__cxx11::"; "__1::"]%string))
  = Ret x.
Proof.
  intros Hns Hx. unfold internalNamespaces in Hns.
  repeat (apply elem_of_cons in Hns as [-> | Hns]).
  - change (Latin1 "" ++ x) with x. by rewrite Hx.
  - change (startsWith (Latin1 "__cxx11::" ++ x) ["__cxx11::"; "__1::"]%string)
      with (Z.of_nat (length (Latin1 "__cxx11::"))).
    rewrite eqb_m1_nat. apply qmid_app.
  - change (startsWith (Latin1 "__1::" ++ x) ["__cxx11::"; "__1::"]%string)
      with (Z.of_nat (length (Latin1 "__1::"))).
    rewrite eqb_m1_nat. apply qmid_app.
  - by apply elem_of_nil in Hns.
Qed.

(** No hit in a segment: the scan of the segment alone finds nothing. *)
Lemma findSameDepthLoop_none (s : QString) (offset depth : Z) (ch : QChar)
    (returnNext : bool) :
  (∀ k, s !! k = Some ch → depth + bracketDepth (take (S k) s) ≠ 0) →
  findSameDepthLoop s offset depth ch returnNext = -1.
Proof.
  intros Hno.
  rewrite <- (app_nil_r s). by rewrite findSameDepthLoop_skip.
Qed.

Lemma depthChange_comma : depthChange (Latin1Char ",") = 0.
Proof. reflexivity. Qed.

Lemma depthChange_gt : depthChange (Latin1Char ">") = -1.
Proof. reflexivity. Qed.

Lemma balanced_no_close (s : QString) (depth : Z) (ch : QChar) :
  balanced s → 1 <= depth →
  ∀ k, s !! k = Some ch → depth + bracketDepth (take (S k) s) ≠ 0.
Proof. intros [Hs _] Hd k _. specialize (Hs (S k)). lia. Qed.

(** The comma after a first template argument [T], from just after the
    template name. *)
Lemma findSameDepth_first_comma (p T x : QString) :
  balanced T → noTopLevel (Latin1Char ",") T →
  findSameDepth (p ++ T ++ Latin1 "," ++ x) (Z.of_nat (length p))
                (Latin1Char ",") false
  = Z.of_nat (length p) + Z.of_nat (length T).
Proof.
  intros [_ HT] Hcomma. rewrite findSameDepth_app, findSameDepthLoop_skip.
  - change (Latin1 "," ++ x) with (Latin1Char "," :: x).
    rewrite findSameDepthLoop_hit; [lia |]. rewrite HT. reflexivity.
  - intros k Hk. specialize (Hcomma k Hk). lia.
Qed.

(** The bracket that closes the template, from the start of a string
    whose prefix [p] leaves the scan at depth one. *)
Lemma findSameDepth_closing (p inner x : QString) :
  (∀ offset,
     findSameDepthLoop (p ++ inner ++ Latin1 ">" ++ x) offset 0
                       (Latin1Char ">") true
     = findSameDepthLoop (inner ++ Latin1 ">" ++ x)
                         (offset + Z.of_nat (length p)) 1
                         (Latin1Char ">") true) →
  balanced inner →
  findSameDepth (p ++ inner ++ Latin1 ">" ++ x) 0 (Latin1Char ">") true
  = Z.of_nat (length (p ++ inner ++ Latin1 ">")).
Proof.
  intros Hp Hinner. unfold findSameDepth. simpl drop. rewrite Hp.
  rewrite findSameDepthLoop_skip by by apply balanced_no_close.
  change (Latin1 ">" ++ x) with (Latin1Char ">" :: x).
  rewrite findSameDepthLoop_hit.
  - rewrite !length_app. simpl. lia.
  - destruct Hinner as [_ ->]. reflexivity.
Qed.

Lemma balanced_comma (T A : QString) :
  balanced T → balanced A → balanced (T ++ Latin1 "," ++ A).
Proof.
  intros HT HA. apply balanced_app; [done |].
  apply (balanced_app [Latin1Char ","]); [| done].
  by apply balanced_neutral.
Qed.

Lemma prettify_one_parameter (ns name : string) (T A rest : QString) :
  ns ∈ internalNamespaces → name ∈ oneParameterTemplates →
  balanced T → noTopLevel (Latin1Char ",") T → balanced A →
  prettifySymbolView (Latin1 "std::" ++ Latin1 ns ++ Latin1 name ++ T
                      ++ Latin1 "," ++ A ++ Latin1 ">" ++ rest)
  = t ← prettifySymbolView T;
    r ← prettifySymbolView rest;
    Ret (Latin1 "std::" ++ Latin1 name ++ t ++ Latin1 ">" ++ r).
Proof.
  intros Hns Hname HT Hcomma HA.
  set (body := T ++ Latin1 "," ++ A ++ Latin1 ">" ++ rest).
  set (symbol := Latin1 name ++ body).
  destruct (oneParameter_startsWith name body Hname) as (Hs1 & Hs2 & Hs3).
  fold symbol in Hs1, Hs2, Hs3.
  assert (Hc : findSameDepth symbol (Z.of_nat (length (Latin1 name)))
                             (Latin1Char ",") false
               = Z.of_nat (length (Latin1 name)) + Z.of_nat (length T)).
  { by apply findSameDepth_first_comma. }
  assert (Hgt : findSameDepth symbol 0 (Latin1Char ">") true
                = Z.of_nat (length (Latin1 name ++ (T ++ Latin1 "," ++ A)
                                    ++ Latin1 ">"))).
  { subst symbol body.
    replace (T ++ Latin1 "," ++ A ++ Latin1 ">" ++ rest)
      with ((T ++ Latin1 "," ++ A) ++ Latin1 ">" ++ rest)
      by (by rewrite <- !app_assoc).
    apply findSameDepth_closing; [| by apply balanced_comma].
    intros offset. by apply oneParameter_scan. }
  assert (Hmid : qmid symbol (findSameDepth symbol 0 (Latin1Char ">") true)
                 = Ret rest).
  { rewrite Hgt. subst symbol body.
    replace (Latin1 name ++ T ++ Latin1 "," ++ A ++ Latin1 ">" ++ rest)
      with ((Latin1 name ++ (T ++ Latin1 "," ++ A) ++ Latin1 ">") ++ rest)
      by (by rewrite <- !app_assoc).
    apply qmid_app. }
  assert (Harg : qmidN symbol (Z.of_nat (length (Latin1 name)))
                   (Z.of_nat (length (Latin1 name)) + Z.of_nat (length T)
                    - Z.of_nat (length (Latin1 name))) = T).
  { unfold qmidN. subst symbol body.
    rewrite Nat2Z.id, drop_app_length.
    replace (Z.to_nat _) with (length T) by lia.
    by rewrite take_app_length. }
  unfold prettifySymbolView at 1.
  remember (length (Latin1 "std::" ++ Latin1 ns ++ symbol)) as fuel eqn:Hfuel.
  assert (Hlen : (length T < fuel)%nat ∧ (length rest < fuel)%nat).
  { subst fuel symbol body. rewrite !length_app. simpl. lia. }
  cbn [prettifySymbolFuel].
  rewrite findStdLoop_start, bind_Ret, qmid_std, bind_Ret, qleft_std.
  cbv zeta.
  rewrite (internalNamespace_strip ns symbol Hns Hs1), bind_Ret.
  rewrite Hs2. change (-1 =? -1) with true. cbn [negb].
  rewrite Hs3, eqb_m1_nat. cbn [negb].
  rewrite Hc. replace (_ + _ =? -1) with false by (symmetry; apply Z.eqb_neq; lia).
  cbn [negb]. rewrite Harg, Hmid.
  rewrite (prettifySymbolView_fuel fuel T) by lia.
  unfold symbol at 1. rewrite qleft_app.
  destruct (prettifySymbolView T) as [t| |]; [| done | done].
  rewrite !bind_Ret.
  destruct rest as [|c rest].
  - rewrite prettifySymbolView_nil, bind_Ret. by rewrite app_nil_r.
  - rewrite (prettifySymbolView_fuel fuel (c :: rest)) by lia.
    apply bind_ext. intros r. by rewrite <- !app_assoc.
Qed.






Lemma basic_string_scan (x : QString) (offset : Z) (returnNext : bool) :
  findSameDepthLoop (Latin1 "basic_string<" ++ x) offset 0 (Latin1Char ">")
                    returnNext
  = findSameDepthLoop x (offset + Z.of_nat (length (Latin1 "basic_string<")))
                      1 (Latin1Char ">") returnNext.
Proof.
  rewrite findSameDepthLoop_skip; [done |].
  intros k Hk _. apply list_elem_of_lookup_2, list_elem_of_In in Hk.
  vm_compute in Hk. intuition discriminate.
Qed.

Lemma prettify_basic_string (ns : string) (T A rest : QString) :
  ns ∈ internalNamespaces →
  balanced T → noTopLevel (Latin1Char ",") T → balanced A →
  startsWith rest constructorDestructor = -1 →
  prettifySymbolView (Latin1 "std::" ++ Latin1 ns ++ Latin1 "basic_string<"
                      ++ T ++ Latin1 "," ++ A ++ Latin1 ">" ++ rest)
  = r ← prettifySymbolView rest;
    Ret (Latin1 "std::" ++ stringName T ++ r).
Proof.
  intros Hns HT Hcomma HA Hrest.
  set (name := Latin1 "basic_string<").
  set (body := T ++ Latin1 "," ++ A ++ Latin1 ">" ++ rest).
  set (symbol := name ++ body).
  assert (Hs1 : startsWith symbol ["__cxx11::"; "__1::"]%string = -1) by done.
  assert (Hs2 : startsWith symbol ["basic_string<"%string]
                = Z.of_nat (length name)) by done.
  assert (Hc : findSameDepth symbol (Z.of_nat (length name))
                             (Latin1Char ",") false
               = Z.of_nat (length name) + Z.of_nat (length T)).
  { by apply findSameDepth_first_comma. }
  assert (Hgt : findSameDepth symbol 0 (Latin1Char ">") true
                = Z.of_nat (length (name ++ (T ++ Latin1 "," ++ A)
                                    ++ Latin1 ">"))).
  { subst symbol body.
    replace (T ++ Latin1 "," ++ A ++ Latin1 ">" ++ rest)
      with ((T ++ Latin1 "," ++ A) ++ Latin1 ">" ++ rest)
      by (by rewrite <- !app_assoc).
    apply findSameDepth_closing; [| by apply balanced_comma].
    intros offset. apply basic_string_scan. }
  assert (Hmid : qmid symbol (findSameDepth symbol 0 (Latin1Char ">") true)
                 = Ret rest).
  { rewrite Hgt. subst symbol body.
    replace (name ++ T ++ Latin1 "," ++ A ++ Latin1 ">" ++ rest)
      with ((name ++ (T ++ Latin1 "," ++ A) ++ Latin1 ">") ++ rest)
      by (by rewrite <- !app_assoc).
    apply qmid_app. }
  assert (Harg : qmidN symbol (Z.of_nat (length name))
                   (Z.of_nat (length name) + Z.of_nat (length T)
                    - Z.of_nat (length name)) = T).
  { unfold qmidN. subst symbol body.
    rewrite Nat2Z.id, drop_app_length.
    replace (Z.to_nat _) with (length T) by lia.
    by rewrite take_app_length. }
  unfold prettifySymbolView at 1.
  remember (length (Latin1 "std::" ++ Latin1 ns ++ symbol)) as fuel eqn:Hfuel.
  assert (Hlen : (length rest < fuel)%nat).
  { subst fuel symbol body. rewrite !length_app. simpl. lia. }
  cbn [prettifySymbolFuel].
  rewrite findStdLoop_start, bind_Ret, qmid_std, bind_Ret, qleft_std.
  cbv zeta.
  rewrite (internalNamespace_strip ns symbol Hns Hs1), bind_Ret.
  rewrite Hs2, eqb_m1_nat. cbn [negb].
  rewrite Hc. replace (_ + _ =? -1) with false by (symmetry; apply Z.eqb_neq; lia).
  cbn [negb]. rewrite Harg, Hmid, bind_Ret.
  rewrite Hrest. change (-1 =? -1) with true. cbn [negb]. rewrite bind_Ret.
  unfold symbol at 1. rewrite qleft_app.
  assert (Hname : ∀ r, (if qeqb T (Latin1 "char")
                        then Latin1 "std::" ++ Latin1 "string"
                        else if qeqb T (Latin1 "wchar_t")
                             then Latin1 "std::" ++ Latin1 "wstring"
                             else Latin1 "std::" ++ name ++ T
                                  ++ [Latin1Char ">"]) ++ r
                       = Latin1 "std::" ++ stringName T ++ r).
  { intros r. unfold stringName.
    destruct (qeqb T (Latin1 "char")); [by rewrite <- app_assoc |].
    destruct (qeqb T (Latin1 "wchar_t")); by rewrite <- !app_assoc. }
  destruct rest as [|c rest].
  - rewrite prettifySymbolView_nil, bind_Ret. by rewrite <- Hname, app_nil_r.
  - rewrite (prettifySymbolView_fuel fuel (c :: rest)) by lia.
    apply bind_ext. intros r. by rewrite Hname.
Qed.




Lemma twoParameters_cases (P : string → Prop) :
  P "map<"%string → P "multimap<"%string → P "unordered_map<"%string →
  P "unordered_multimap<"%string →
  ∀ name, name ∈ twoParametersTemplates → P name.
Proof.
  intros ???? name H. unfold twoParametersTemplates in H.
  repeat (apply elem_of_cons in H as [-> | H]; [done |]).
  by apply elem_of_nil in H.
Qed.

Lemma twoParameters_startsWith (name : string) (x : QString) :
  name ∈ twoParametersTemplates →
  startsWith (Latin1 name ++ x) ["__cxx11::"; "__1::"]%string = -1
  ∧ startsWith (Latin1 name ++ x) ["basic_string<"%string] = -1
  ∧ startsWith (Latin1 name ++ x) oneParameterTemplates = -1
  ∧ startsWith (Latin1 name ++ x) twoParametersTemplates
    = Z.of_nat (length (Latin1 name)).
Proof.
  revert name. apply twoParameters_cases; by split_and!.
Qed.

Lemma twoParameters_scan (name : string) (x : QString) (offset : Z)
    (returnNext : bool) :
  name ∈ twoParametersTemplates →
  findSameDepthLoop (Latin1 name ++ x) offset 0 (Latin1Char ">") returnNext
  = findSameDepthLoop x (offset + Z.of_nat (length (Latin1 name))) 1
                      (Latin1Char ">") returnNext.
Proof.
  intros Hname. rewrite findSameDepthLoop_skip.
  - f_equal. revert name Hname. by apply twoParameters_cases.
  - intros k Hk _. apply list_elem_of_lookup_2, list_elem_of_In in Hk.
    revert name Hname Hk.
    apply (twoParameters_cases
             (fun name => In (Latin1Char ">") (Latin1 name) → False));
      vm_compute; intuition discriminate.
Qed.



Lemma prettify_two_parameters (ns name : string) (K V A rest : QString) :
  ns ∈ internalNamespaces → name ∈ twoParametersTemplates →
  balanced K → noTopLevel (Latin1Char ",") K →
  balanced V → noTopLevel (Latin1Char ",") V → balanced A →
  prettifySymbolView (Latin1 "std::" ++ Latin1 ns ++ Latin1 name ++ K
                      ++ Latin1 "," ++ V ++ Latin1 "," ++ A ++ Latin1 ">"
                      ++ rest)
  = k ← prettifySymbolView K;
    v ← prettifySymbolView (Latin1 "," ++ V);
    r ← prettifySymbolView rest;
    Ret (Latin1 "std::" ++ Latin1 name ++ k ++ v ++ Latin1 ">" ++ r).
Proof.
  intros Hns Hname HK HKc HV HVc HA.
  set (tail := V ++ Latin1 "," ++ A ++ Latin1 ">" ++ rest).
  set (body := K ++ Latin1 "," ++ tail).
  set (symbol := Latin1 name ++ body).
  destruct (twoParameters_startsWith name body Hname)
    as (Hs1 & Hs2 & Hs3 & Hs4).
  fold symbol in Hs1, Hs2, Hs3, Hs4.
  set (comma1 := Z.of_nat (length (Latin1 name)) + Z.of_nat (length K)).
  assert (Hc1 : findSameDepth symbol (Z.of_nat (length (Latin1 name)))
                              (Latin1Char ",") false = comma1).
  { by apply findSameDepth_first_comma. }
  assert (Hc2 : findSameDepth symbol (comma1 + 1) (Latin1Char ",") false
                = comma1 + 1 + Z.of_nat (length V)).
  { subst symbol body tail comma1.
    replace (Latin1 name ++ K ++ Latin1 "," ++ V ++ Latin1 "," ++ A
             ++ Latin1 ">" ++ rest)
      with ((Latin1 name ++ K ++ Latin1 ",") ++ V ++ Latin1 "," ++ A
            ++ Latin1 ">" ++ rest) by (by rewrite <- !app_assoc).
    replace (Z.of_nat (length (Latin1 name)) + Z.of_nat (length K) + 1)
      with (Z.of_nat (length (Latin1 name ++ K ++ Latin1 ",")))
      by (rewrite !length_app; simpl; lia).
    by apply findSameDepth_first_comma. }
  assert (Hgt : findSameDepth symbol 0 (Latin1Char ">") true
                = Z.of_nat (length (Latin1 name
                                    ++ (K ++ Latin1 "," ++ V ++ Latin1 "," ++ A)
                                    ++ Latin1 ">"))).
  { subst symbol body tail.
    replace (K ++ Latin1 "," ++ V ++ Latin1 "," ++ A ++ Latin1 ">" ++ rest)
      with ((K ++ Latin1 "," ++ V ++ Latin1 "," ++ A) ++ Latin1 ">" ++ rest)
      by (by rewrite <- !app_assoc).
    apply findSameDepth_closing.
    - intros offset. by apply twoParameters_scan.
    - apply balanced_comma; [done |]. by apply balanced_comma. }
  assert (Hmid : qmid symbol (findSameDepth symbol 0 (Latin1Char ">") true)
                 = Ret rest).
  { rewrite Hgt. subst symbol body tail.
    replace (Latin1 name ++ K ++ Latin1 "," ++ V ++ Latin1 "," ++ A
             ++ Latin1 ">" ++ rest)
      with ((Latin1 name ++ (K ++ Latin1 "," ++ V ++ Latin1 "," ++ A)
             ++ Latin1 ">") ++ rest) by (by rewrite <- !app_assoc).
    apply qmid_app. }
  assert (Harg1 : qmidN symbol (Z.of_nat (length (Latin1 name)))
                    (comma1 - Z.of_nat (length (Latin1 name))) = K).
  { unfold qmidN. subst symbol body comma1.
    rewrite Nat2Z.id, drop_app_length.
    replace (Z.to_nat _) with (length K) by lia.
    by rewrite take_app_length. }
  assert (Harg2 : qmidN symbol comma1
                    (comma1 + 1 + Z.of_nat (length V) - comma1)
                  = Latin1 "," ++ V).
  { unfold qmidN. subst symbol body tail comma1.
    replace (Z.to_nat (_ + _)) with (length (Latin1 name ++ K))
      by (rewrite length_app; lia).
    rewrite (app_assoc (Latin1 name) K), drop_app_length.
    replace (Z.to_nat _) with (length (Latin1 "," ++ V))
      by (rewrite length_app; simpl; lia).
    by rewrite (app_assoc (Latin1 ",") V), take_app_length. }
  unfold prettifySymbolView at 1.
  remember (length (Latin1 "std::" ++ Latin1 ns ++ symbol)) as fuel eqn:Hfuel.
  assert (Hlen : (length K < fuel)%nat ∧ (length (Latin1 "," ++ V) < fuel)%nat
                 ∧ (length rest < fuel)%nat).
  { subst fuel symbol body tail. rewrite !length_app. simpl. lia. }
  cbn [prettifySymbolFuel].
  rewrite findStdLoop_start, bind_Ret, qmid_std, bind_Ret, qleft_std.
  cbv zeta.
  rewrite (internalNamespace_strip ns symbol Hns Hs1), bind_Ret.
  rewrite Hs2. change (-1 =? -1) with true. cbn [negb].
  rewrite Hs3. change (-1 =? -1) with true. cbn [negb].
  rewrite Hs4, eqb_m1_nat. cbn [negb].
  rewrite Hc1, Hc2.
  replace (comma1 =? -1) with false
    by (symmetry; apply Z.eqb_neq; subst comma1; lia).
  replace (comma1 + 1 + Z.of_nat (length V) =? -1) with false
    by (symmetry; apply Z.eqb_neq; subst comma1; lia).
  cbn [negb andb]. rewrite Harg1, Harg2, Hmid.
  rewrite (prettifySymbolView_fuel fuel K) by lia.
  rewrite (prettifySymbolView_fuel fuel (Latin1 "," ++ V)) by lia.
  unfold symbol at 1. rewrite qleft_app.
  destruct (prettifySymbolView K) as [k| |]; [| done | done].
  rewrite !bind_Ret.
  destruct (prettifySymbolView (Latin1 "," ++ V)) as [v| |]; [| done | done].
  rewrite !bind_Ret.
  destruct rest as [|c rest].
  - rewrite prettifySymbolView_nil, bind_Ret. by rewrite app_nil_r.
  - rewrite (prettifySymbolView_fuel fuel (c :: rest)) by lia.
    apply bind_ext. intros r. by rewrite <- !app_assoc.
Qed.


Lemma allocator_scan (x : QString) (offset : Z) (returnNext : bool) :
  findSameDepthLoop (Latin1 "allocator<" ++ x) offset 0 (Latin1Char ">")
                    returnNext
  = findSameDepthLoop x (offset + Z.of_nat (length (Latin1 "allocator<")))
                      1 (Latin1Char ">") returnNext.
Proof.
  rewrite findSameDepthLoop_skip; [done |].
  intros k Hk _. apply list_elem_of_lookup_2, list_elem_of_In in Hk.
  vm_compute in Hk. intuition discriminate.
Qed.

Lemma prettify_allocator (ns : string) (T rest : QString) :
  ns ∈ internalNamespaces → balanced T →
  prettifySymbolView (Latin1 "std::" ++ Latin1 ns ++ Latin1 "allocator<" ++ T
                      ++ Latin1 ">" ++ rest)
  = r ← prettifySymbolView rest;
    Ret (Latin1 "std::" ++ Latin1 "allocator<...>" ++ r).
Proof.
  intros Hns HT.
  set (name := Latin1 "allocator<").
  set (symbol := name ++ T ++ Latin1 ">" ++ rest).
  assert (Hs1 : startsWith symbol ["__cxx11::"; "__1::"]%string = -1) by done.
  assert (Hs2 : startsWith symbol ["basic_string<"%string] = -1) by done.
  assert (Hs3 : startsWith symbol oneParameterTemplates = -1) by done.
  assert (Hs4 : startsWith symbol twoParametersTemplates = -1) by done.
  assert (Hs5 : startsWith symbol ["allocator<"%string]
                = Z.of_nat (length name)) by done.
  assert (Hgt : findSameDepth symbol 0 (Latin1Char ">") true
                = Z.of_nat (length (name ++ T ++ Latin1 ">"))).
  { apply findSameDepth_closing; [| done].
    intros offset. apply allocator_scan. }
  assert (Hmid : qmid symbol (findSameDepth symbol 0 (Latin1Char ">") true)
                 = Ret rest).
  { rewrite Hgt. subst symbol.
    replace (name ++ T ++ Latin1 ">" ++ rest)
      with ((name ++ T ++ Latin1 ">") ++ rest) by (by rewrite <- !app_assoc).
    apply qmid_app. }
  unfold prettifySymbolView at 1.
  remember (length (Latin1 "std::" ++ Latin1 ns ++ symbol)) as fuel eqn:Hfuel.
  assert (Hlen : (length rest < fuel)%nat).
  { subst fuel symbol. rewrite !length_app. simpl. lia. }
  cbn [prettifySymbolFuel].
  rewrite findStdLoop_start, bind_Ret, qmid_std, bind_Ret, qleft_std.
  cbv zeta.
  rewrite (internalNamespace_strip ns symbol Hns Hs1), bind_Ret.
  rewrite Hs2. change (-1 =? -1) with true. cbn [negb].
  rewrite Hs3. change (-1 =? -1) with true. cbn [negb].
  rewrite Hs4. change (-1 =? -1) with true. cbn [negb].
  rewrite Hs5, eqb_m1_nat. cbn [negb].
  rewrite Hgt, eqb_m1_nat. cbn [negb]. rewrite <- Hgt, Hmid, bind_Ret.
  unfold symbol at 1. rewrite qleft_app, !bind_Ret.
  destruct rest as [|c rest].
  - rewrite prettifySymbolView_nil, bind_Ret. by rewrite app_nil_r.
  - rewrite (prettifySymbolView_fuel fuel (c :: rest)) by lia.
    apply bind_ext. intros r. by rewrite <- !app_assoc.
Qed.


Lemma startsWith_none (str : QString) (prefixes : list string) :
  (∀ p, p ∈ prefixes → ¬ Latin1 p `prefix_of` str) →
  startsWith str prefixes = -1.
Proof.
  induction prefixes as [|p prefixes IH]; intros Hno; [done |].
  unfold startsWith; fold startsWith.
  destruct (qstartsWith str (Latin1 p)) eqn:Hs.
  - apply qstartsWith_prefix in Hs. exfalso. apply (Hno p); [set_solver | done].
  - apply IH. intros q Hq. apply Hno. set_solver.
Qed.





(** ** The nodes of the top-down tree *)

Lemma hasPath_nil node : hasPath node [].
Proof. by exists []. Qed.

Lemma hasPath_cons node s syms :
  hasPath node (s :: syms)
  ↔ ∃ child, child ∈ td_children node ∧ td_symbol child = s
             ∧ hasPath child syms.
Proof.
  split.
  - intros [[|i ids] Hp]; [done |].
    destruct Hp as (frame & Hin & Hs & _ & Hp). exists frame.
    split_and!; [done | done | by exists ids].
  - intros (child & Hin & Hs & ids & Hp). exists (td_id child :: ids).
    exists child. by split_and!.
Qed.

Lemma hasPath_leaf node syms :
  td_children node = [] → hasPath node syms → syms = [].
Proof.
  intros Hc Hp. destruct syms as [|s syms]; [done |].
  apply hasPath_cons in Hp as (child & Hin & _). rewrite Hc in Hin.
  by apply elem_of_nil in Hin.
Qed.

Lemma hasPath_children node node' syms :
  td_children node = td_children node' → hasPath node syms → hasPath node' syms.
Proof.
  intros Hc Hp. destruct syms as [|s syms]; [apply hasPath_nil |].
  apply hasPath_cons. apply hasPath_cons in Hp. by rewrite <- Hc.
Qed.

Lemma bubbleUp_symbol skipFirstLevel diff node stack st :
  td_symbol (bubbleUp skipFirstLevel diff node stack st).1 = td_symbol stack.
Proof.
  destruct node as [|s parents]; [done |]. rewrite bubbleUp_cons.
  destruct (entryForSymbol _ _ _) as [[[before frame] after] maxId].
  cbv zeta. destruct (isLastNode skipFirstLevel parents); [done |].
  by destruct (bubbleUp _ _ _ _ _).
Qed.

(** The paths of the tree after a walk: those it had, and the prefixes of
    the visited chain. *)
Lemma bubbleUp_hasPath skipFirstLevel diff node :
  ∀ stack st syms,
    hasPath (bubbleUp skipFirstLevel diff node stack st).1 syms
    ↔ hasPath stack syms ∨ syms `prefix_of` visitedChain skipFirstLevel node.
Proof.
  induction node as [|s parents IH]; intros stack st syms.
  - simpl. split; [by left |]. intros [H | H]; [done |].
    apply prefix_nil_inv in H as ->. apply hasPath_nil.
  - destruct syms as [|s' syms].
    { split; [intros _; left |]; intros; apply hasPath_nil. }
    destruct (entryForSymbol stack s (bs_maxId st))
      as [[[before frame] after] maxId] eqn:He.
    pose proof (entryForSymbol_spec _ _ _ _ _ _ _ He) as [Hs Hcase].
    cbn [visitedChain].
    set (frame' := if isLastNode skipFirstLevel parents then frame
                   else (bubbleUp skipFirstLevel diff parents frame
                           (mkBuildState
                              (costsAdd (bs_inclusiveCosts st) (td_id frame) diff)
                              (bs_selfCosts st) maxId)).1).
    assert (Hchildren :
      td_children (bubbleUp skipFirstLevel diff (s :: parents) stack st).1
      = before ++ frame' :: after).
    { rewrite bubbleUp_cons, He. cbv zeta. subst frame'.
      destruct (isLastNode skipFirstLevel parents); [done |].
      by destruct (bubbleUp _ _ _ _ _). }
    assert (Hsym' : td_symbol frame' = s).
    { subst frame'. destruct (isLastNode skipFirstLevel parents); [done |].
      by rewrite bubbleUp_symbol. }
    assert (Hframe' : ∀ syms0,
      hasPath frame' syms0
      ↔ hasPath frame syms0
        ∨ syms0 `prefix_of` (if isLastNode skipFirstLevel parents then []
                             else visitedChain skipFirstLevel parents)).
    { intros syms0. subst frame'. destruct (isLastNode skipFirstLevel parents); [| apply IH].
      split; [by left |]. intros [H | H]; [done |].
      apply prefix_nil_inv in H as ->. apply hasPath_nil. }
    rewrite !hasPath_cons, Hchildren.
    assert (Hold : ∀ child, child ∈ td_children stack
                            ↔ child ∈ before ++ after
                              ∨ (child = frame ∧ frame ∈ td_children stack)).
    { intros child. destruct Hcase as [[-> _] | (-> & -> & _ & _)].
      - rewrite !elem_of_app, elem_of_cons. set_solver.
      - rewrite app_nil_r. split; [by left |].
        intros [H | [-> H]]; done. }
    assert (Hnew : frame ∈ td_children stack ∨ td_children frame = []).
    { destruct Hcase as [[-> _] | (_ & _ & -> & _)]; [left | by right].
      set_solver. }
    split.
    + intros (child & Hin & Hcs & Hp).
      rewrite elem_of_app, elem_of_cons in Hin.
      destruct Hin as [Hin | [-> | Hin]].
      * left. exists child. split; [apply Hold; left; set_solver | done].
      * apply Hframe' in Hp as [Hp | Hp].
        -- destruct Hnew as [Hf | Hf].
           ++ left. exists frame. split; [done |]. split; [congruence | done].
           ++ right. rewrite (hasPath_leaf frame syms Hf Hp).
              rewrite <- Hcs, Hsym'. apply prefix_cons, prefix_nil.
        -- right. rewrite <- Hcs, Hsym'. by apply prefix_cons.
      * left. exists child. split; [apply Hold; left; set_solver | done].
    + intros [(child & Hin & Hcs & Hp) | Hpre].
      * apply Hold in Hin as [Hin | [-> Hin]].
        -- exists child. split; [| done].
           rewrite elem_of_app, elem_of_cons.
           rewrite elem_of_app in Hin. tauto.
        -- exists frame'. split; [set_solver |]. split; [congruence |].
           apply Hframe'. by left.
      * apply prefix_cons_inv_1 in Hpre as Heq.
        apply prefix_cons_inv_2 in Hpre.
        exists frame'. split; [set_solver |]. split; [congruence |].
        apply Hframe'. by right.
Qed.

Lemma fold_bubbleUp_hasPath skipFirstLevel (cs : list Contribution) :
  ∀ stack st syms,
    hasPath (fold_left (fun acc c => topDownProcess skipFirstLevel c acc)
                       cs (stack, st)).1 syms
    ↔ hasPath stack syms
      ∨ ∃ c, c ∈ cs ∧ syms `prefix_of` visitedChain skipFirstLevel c.1.
Proof.
  induction cs as [|c cs IH]; intros stack st syms.
  - simpl. split; [by left |]. intros [H | (c & Hc & _)]; [done |].
    by apply elem_of_nil in Hc.
  - cbn [fold_left]. unfold topDownProcess at 2. simpl.
    destruct (bubbleUp skipFirstLevel c.2 c.1 stack st) as [stack' st'] eqn:Hb.
    rewrite IH.
    assert (Hstep := bubbleUp_hasPath skipFirstLevel c.2 c.1 stack st syms).
    rewrite Hb in Hstep. simpl in Hstep. rewrite Hstep.
    split.
    + intros [[H | H] | (c' & Hc' & H)]; [by left | right | right].
      * exists c. split; [set_solver | done].
      * exists c'. split; [set_solver | done].
    + intros [H | (c' & [-> | Hc']%elem_of_cons & H)].
      * by left; left.
      * by left; right.
      * right. by exists c'.
Qed.

(** ** The entries, costs and edges of the caller-callee table *)

Lemma alter_is_Some_iff {A} (f : A → A) (i j : Symbol) (m : gmap Symbol A) :
  is_Some (alter f i m !! j) ↔ is_Some (m !! j).
Proof.
  rewrite lookup_alter. case_decide as Hij; [| done].
  subst. destruct (m !! j); simpl; split; intros [? ?]; by eauto.
Qed.

Lemma stepEntries_is_Some n diff st s0 s :
  is_Some (stepEntries n diff st s0 !! s)
  ↔ is_Some (entries (ws_results st) !! s) ∨ s = s0.
Proof.
  assert (He : is_Some (entries (entry (ws_results st) s0).2 !! s)
               ↔ is_Some (entries (ws_results st) !! s) ∨ s = s0).
  { rewrite entry_lookup. destruct (entries (ws_results st) !! s) as [e|].
    - split; [by left | by eauto].
    - case_decide as Heq; subst.
      + split; [by right | by eauto].
      + split; [by intros [? ?] | intros [[? ?] | ?]; done]. }
  unfold stepEntries. destruct (lastSymbol st) as [last|]; [| done].
  case_decide; [done |]. by rewrite !alter_is_Some_iff.
Qed.

Lemma callerCalleeLoop_is_Some n diff chain s :
  ∀ st,
    is_Some (entries (ws_results (callerCalleeLoop n diff chain st)) !! s)
    ↔ is_Some (entries (ws_results st) !! s) ∨ s ∈ chain.
Proof.
  induction chain as [|s0 chain IH]; intros st.
  - simpl. split; [by left |]. intros [H | H]; [done |].
    by apply elem_of_nil in H.
  - cbn [callerCalleeLoop]. rewrite IH, step_entries, stepEntries_is_Some.
    rewrite elem_of_cons. tauto.
Qed.

Lemma callerCalleeWalk_is_Some n diff chain results s :
  is_Some (entries (callerCalleeWalk n diff chain results) !! s)
  ↔ is_Some (entries results !! s) ∨ s ∈ chain.
Proof. unfold callerCalleeWalk. by rewrite callerCalleeLoop_is_Some. Qed.

Lemma fold_callerCalleeWalk_is_Some n (cs : list Contribution) s :
  ∀ results,
    is_Some (entries (fold_left (fun r c => callerCalleeProcess n c r)
                                cs results) !! s)
    ↔ is_Some (entries results !! s) ∨ ∃ c, c ∈ cs ∧ s ∈ c.1.
Proof.
  induction cs as [|c cs IH]; intros results.
  - simpl. split; [by left |]. intros [H | (c & Hc & _)]; [done |].
    by apply elem_of_nil in Hc.
  - cbn [fold_left]. rewrite IH. unfold callerCalleeProcess.
    rewrite callerCalleeWalk_is_Some. split.
    + intros [[H | H] | (c' & Hc' & H)]; [by left | right | right].
      * exists c. split; [set_solver | done].
      * exists c'. split; [set_solver | done].
    + intros [H | (c' & [-> | Hc']%elem_of_cons & H)].
      * by left; left.
      * by left; right.
      * right. by exists c'.
Qed.

Lemma fold_callerCalleeWalk_edge n (cs : list Contribution) x y :
  ∀ results,
    is_Some (calleeOf (fold_left (fun r c => callerCalleeProcess n c r)
                                 cs results) x y)
    ↔ is_Some (calleeOf results x y)
      ∨ ∃ c, c ∈ cs ∧ adjacentb c.1 x y = true.
Proof.
  induction cs as [|c cs IH]; intros results.
  - simpl. split; [by left |]. intros [H | (c & Hc & _)]; [done |].
    by apply elem_of_nil in Hc.
  - cbn [fold_left]. rewrite IH. unfold callerCalleeProcess.
    destruct (callerCalleeWalk_edges n c.2 c.1 results x y) as [-> _].
    destruct (adjacentb c.1 x y) eqn:Hadj.
    + split; [intros _; right; exists c; split; [set_solver | done] |].
      intros _. left. unfold creditEdge. by eexists.
    + split.
      * intros [H | (c' & Hc' & H)]; [by left |].
        right. exists c'. split; [set_solver | done].
      * intros [H | (c' & [-> | Hc']%elem_of_cons & H)]; [by left | congruence |].
        right. by exists c'.
Qed.

(** The inclusive cost of a symbol after the walks of [cs]: each walk
    whose chain has the symbol adds its [diff] once. *)
Lemma fold_callerCalleeWalk_inclusive n numTypes_ (cs : list Contribution) s :
  Forall (fun c => c.1 ≠ [] ∧ okCost n c.2) cs →
  ∀ results,
    ccInv results → okCost n (inclusiveOf results s) →
    inclusiveOf (fold_left (fun r c => callerCalleeProcess numTypes_ c r)
                           cs results) s
    = itemAdd (inclusiveOf results s)
              (costSum n (snd <$> filter (fun c => s ∈ c.1) cs)).
Proof.
  induction cs as [|c cs IH]; intros Hcs results Hinv Hok.
  - simpl. by rewrite (itemAdd_zero_r n).
  - apply Forall_cons in Hcs as [[_ Hc] Hcs].
    destruct (callerCalleeLoop_costs numTypes_ c.2 c.1
                (mkWalkState ∅ ∅ None results) Hinv) as (Hinv' & Hincl & _).
    fold (callerCalleeWalk numTypes_ c.2 c.1 results) in Hinv', Hincl.
    specialize (Hincl s). simpl in Hincl.
    cbn [fold_left]. rewrite IH; unfold callerCalleeProcess; [| done | done |].
    + rewrite Hincl. rewrite filter_cons.
      destruct (decide (s ∈ c.1)) as [Hin | Hnin].
      * rewrite decide_True by set_solver.
        rewrite fmap_cons, costSum_cons. simpl.
        by rewrite itemAdd_assoc.
      * rewrite decide_False by (by intros [? _]). done.
    + rewrite Hincl. case_decide; [| done].
      destruct Hok, Hc. by apply okCost_itemAdd.
Qed.

(** ** The nodes of the top-down tree with [skipFirstLevel] *)

Lemma fold_bubbleUp_symbol skipFirstLevel (cs : list Contribution) :
  ∀ stack st,
    td_symbol (fold_left (fun acc c => topDownProcess skipFirstLevel c acc)
                         cs (stack, st)).1
    = td_symbol stack.
Proof.
  induction cs as [|c cs IH]; intros stack st; [done |].
  cbn [fold_left]. unfold topDownProcess at 2. simpl.
  destruct (bubbleUp skipFirstLevel c.2 c.1 stack st) as [stack' st'] eqn:Hb.
  rewrite IH. pose proof (bubbleUp_symbol skipFirstLevel c.2 c.1 stack st) as H.
  by rewrite Hb in H.
Qed.

Lemma fromBottomUpGroup_hasPath costs root st group syms :
  hasPath (fromBottomUpGroup costs (root, st) group).1 syms
  ↔ hasPath root syms
    ∨ ∃ rest, syms = bu_symbol group :: rest ∧ groupPaths costs group rest.
Proof.
  destruct syms as [|s' syms].
  { split; [intros _; left |]; intros; apply hasPath_nil. }
  unfold fromBottomUpGroup.
  destruct (entryForSymbol root (bu_symbol group) (bs_maxId st))
    as [[[before frame] after] maxId] eqn:He.
  pose proof (entryForSymbol_spec _ _ _ _ _ _ _ He) as [Hs Hcase].
  rewrite buildTopDownResult_fold.
  set (cs := processed (contributions costs [bu_symbol group] group)).
  pose proof (fold_bubbleUp_symbol true cs frame
                (mkBuildState (bs_inclusiveCosts st) (bs_selfCosts st) maxId))
    as Hsym'.
  pose proof (fun syms0 =>
                fold_bubbleUp_hasPath true cs frame
                  (mkBuildState (bs_inclusiveCosts st) (bs_selfCosts st) maxId)
                  syms0) as Hframe'.
  destruct (fold_left _ cs _) as [frame' st']. simpl in Hsym', Hframe'. simpl.
  assert (Hold : ∀ child, child ∈ td_children root
                          ↔ child ∈ before ++ after
                            ∨ (child = frame ∧ frame ∈ td_children root)).
  { intros child. destruct Hcase as [[-> _] | (-> & -> & _ & _)].
    - rewrite !elem_of_app, elem_of_cons. set_solver.
    - rewrite app_nil_r. split; [by left |].
      intros [H | [-> H]]; done. }
  assert (Hnew : frame ∈ td_children root ∨ td_children frame = []).
  { destruct Hcase as [[-> _] | (_ & _ & -> & _)]; [left | by right].
    set_solver. }
  rewrite !hasPath_cons. simpl. split.
  - intros (child & Hin & Hcs & Hp).
    rewrite elem_of_app, elem_of_cons in Hin.
    destruct Hin as [Hin | [-> | Hin]].
    + left. exists child. split; [apply Hold; left; set_solver | done].
    + apply Hframe' in Hp as [Hp | Hp].
      * destruct Hnew as [Hf | Hf].
        -- left. exists frame. split; [done |]. split; [congruence | done].
        -- right. exists syms. split; [congruence |]. left.
           by apply (hasPath_leaf frame).
      * right. exists syms. split; [congruence |]. by right.
    + left. exists child. split; [apply Hold; left; set_solver | done].
  - intros [(child & Hin & Hcs & Hp) | (rest & [= -> ->] & Hg)].
    + apply Hold in Hin as [Hin | [-> Hin]].
      * exists child. split; [| done].
        rewrite elem_of_app, elem_of_cons.
        rewrite elem_of_app in Hin. tauto.
      * exists frame'. split; [set_solver |]. split; [congruence |].
        apply Hframe'. by left.
    + exists frame'. split; [set_solver |]. split; [congruence |].
      apply Hframe'. destruct Hg as [-> | Hg]; [left; apply hasPath_nil |].
      by right.
Qed.

Lemma fold_fromBottomUpGroup_hasPath costs groups syms :
  ∀ root st,
    hasPath (fold_left (fromBottomUpGroup costs) groups (root, st)).1 syms
    ↔ hasPath root syms
      ∨ ∃ group rest, group ∈ groups ∧ syms = bu_symbol group :: rest
                      ∧ groupPaths costs group rest.
Proof.
  induction groups as [|g groups IH]; intros root st.
  - simpl. split; [by left |]. intros [H | (g & ? & Hg & _)]; [done |].
    by apply elem_of_nil in Hg.
  - cbn [fold_left].
    destruct (fromBottomUpGroup costs (root, st) g) as [root' st'] eqn:Hg.
    rewrite IH.
    pose proof (fromBottomUpGroup_hasPath costs root st g syms) as Hstep.
    rewrite Hg in Hstep. simpl in Hstep. rewrite Hstep. split.
    + intros [[H | (rest & -> & H)] | (g' & rest & Hg' & -> & H)].
      * by left.
      * right. exists g, rest. split; [set_solver | done].
      * right. exists g', rest. split; [set_solver | done].
    + intros [H | (g' & rest & [-> | Hg']%elem_of_cons & -> & H)].
      * by left; left.
      * left; right. by exists rest.
      * right. by exists g', rest.
Qed.

Lemma fromBottomUp_skip_hasPath bottomUpData syms :
  syms ≠ [] →
  hasPath (td_root (fromBottomUp bottomUpData true)) syms
  ↔ ∃ group rest,
      group ∈ bu_children (bu_root bottomUpData)
      ∧ syms = bu_symbol group :: rest
      ∧ groupPaths (bu_costs bottomUpData) group rest.
Proof.
  intros Hsyms. unfold fromBottomUp.
  pose proof (fold_fromBottomUpGroup_hasPath (bu_costs bottomUpData)
                (bu_children (bu_root bottomUpData)) syms emptyTopDown
                (mkBuildState (initializeCostsFrom (bu_costs bottomUpData))
                              (initializeCostsFrom (bu_costs bottomUpData)) 0))
    as H.
  destruct (fold_left _ _ _) as [root st]. simpl in *. rewrite H.
  split; [intros [Hp | Hg]; [| done] | by right].
  by apply (hasPath_leaf emptyTopDown) in Hp.
Qed.

(** ** Which leaf contributions reach the results *)

Lemma fromBottomUp_root bottomUpData :
  td_root (fromBottomUp bottomUpData false)
  = (fold_left (fun acc c => topDownProcess false c acc)
               (processedOf bottomUpData)
               (emptyTopDown,
                mkBuildState (initializeCostsFrom (bu_costs bottomUpData))
                             (initializeCostsFrom (bu_costs bottomUpData)) 0)).1.
Proof.
  unfold fromBottomUp, processedOf. rewrite buildTopDownResult_fold.
  cbn [snd]. by destruct (fold_left _ _ _).
Qed.

(** C9, counterexample: with [skipFirstLevel] the leaf contribution {10}
    of the first-level row [a] has a nonzero component sum and still is
    not processed: the tree has the node of [a], and both cost matrices
    stay empty.  Without [skipFirstLevel] the same contribution is
    processed. *)
Lemma first_level_contribution_is_not_processed :
  processedOf firstLevelInput = [([sym "a"], [10])]
  ∧ td_root (fromBottomUp firstLevelInput true)
    = mkTopDown 0 emptySymbol [mkTopDown 0 (sym "a") []]
  ∧ m_costs (td_inclusiveCosts (fromBottomUp firstLevelInput true)) = ∅
  ∧ m_costs (td_selfCosts (fromBottomUp firstLevelInput true)) = ∅
  ∧ itemCost (td_selfCosts (fromBottomUp firstLevelInput false)) 0 = [10].
Proof. vm_compute. done. Qed.

(** C9, amended: the builders process the leaf contribution of a row
    exactly when the components of [diff] sum, as [qint64], to a nonzero
    value - in the caller-callee builder and in the top-down builder
    without [skipFirstLevel] for every row, with [skipFirstLevel] for the
    rows below the first level only.  Both recursions are the folds of
    their parent-chain walks over these contributions.  What they leave in
    the results, for an input whose cost matrix has matching category
    count: without [skipFirstLevel] a top-down node exists exactly on the
    chains of the processed contributions; with [skipFirstLevel] every
    first-level row has its node, and below it a node exists exactly on
    the chains of the processed contributions of the rows below that row;
    the self costs of the top-down nodes sum to the processed
    contributions; a symbol has a caller-callee entry exactly when it is
    on the chain of a processed contribution, and its inclusive cost is
    the sum of the processed contributions on whose chain it is; an edge
    exists exactly when its two symbols are adjacent on the chain of a
    processed contribution.  A contribution whose components cancel is
    attributed to no node, entry or edge. *)
Theorem leaf_processed_iff_component_sum_nonzero
    (bottomUpData : BottomUpResults) :
  wfCosts (bu_costs bottomUpData) →
  let costs := bu_costs bottomUpData in
  let root := bu_root bottomUpData in
  let callerCallee :=
    callerCalleesFromBottomUpData bottomUpData emptyResults in
  (∀ c, c ∈ processedOf bottomUpData
        ↔ c ∈ contributions costs [] root ∧ itemSum c.2 ≠ 0)
  ∧ (∀ skipFirstLevel parents data td st,
       buildTopDownResult skipFirstLevel costs parents data td st
       = (totalCostOf costs data,
          fold_left
            (fun acc c => bubbleUp skipFirstLevel c.2 c.1 acc.1 acc.2)
            (processed (contributions costs parents data)) (td, st)))
  ∧ (∀ parents data results,
       buildCallerCalleeResult costs parents data results
       = (totalCostOf costs data,
          fold_left
            (fun r c => callerCalleeWalk (numTypes costs) c.2 c.1 r)
            (processed (contributions costs parents data)) results))
  ∧ (∀ syms, syms ≠ [] →
       hasPath (td_root (fromBottomUp bottomUpData false)) syms
       ↔ ∃ c, c ∈ processedOf bottomUpData ∧ syms `prefix_of` c.1)
  ∧ (∀ syms, syms ≠ [] →
       hasPath (td_root (fromBottomUp bottomUpData true)) syms
       ↔ ∃ group rest,
           group ∈ bu_children root ∧ syms = bu_symbol group :: rest
           ∧ groupPaths costs group rest)
  ∧ (∀ skipFirstLevel,
       selfCostTotal (fromBottomUp bottomUpData skipFirstLevel)
       = costSum (numTypes costs)
           (snd <$> processed (bubbledContributions skipFirstLevel costs root)))
  ∧ (∀ s, is_Some (entries callerCallee !! s)
          ↔ ∃ c, c ∈ processedOf bottomUpData ∧ s ∈ c.1)
  ∧ (∀ s, inclusiveOf callerCallee s
          = costSum (numTypes costs)
              (snd <$> filter (fun c => s ∈ c.1) (processedOf bottomUpData)))
  ∧ (∀ x y, is_Some (calleeOf callerCallee x y)
            ↔ ∃ c, c ∈ processedOf bottomUpData ∧ adjacentb c.1 x y = true).
Proof.
  intros Hwf costs root callerCallee.
  assert (Hok : Forall (fun c => c.1 ≠ [] ∧ okCost (numTypes costs) c.2)
                       (processedOf bottomUpData)).
  { apply processed_ok. by apply contributions_ok. }
  assert (Hcc : callerCallee
                = fold_left
                    (fun r c => callerCalleeProcess (numTypes costs) c r)
                    (processedOf bottomUpData)
                    (mkCallerCalleeResults ∅ (initializeCostsFrom costs)
                                           (initializeCostsFrom costs))).
  { subst callerCallee. unfold callerCalleesFromBottomUpData.
    by rewrite buildCallerCalleeResult_fold. }
  split_and!.
  - intros c. unfold processedOf, processed. rewrite list_elem_of_filter. tauto.
  - intros. apply buildTopDownResult_fold.
  - intros. apply buildCallerCalleeResult_fold.
  - intros syms Hsyms.
    rewrite fromBottomUp_root, fold_bubbleUp_hasPath.
    split.
    + intros [H | (c & Hc & H)].
      * by apply (hasPath_leaf emptyTopDown) in H.
      * exists c. by rewrite visitedChain_false in H.
    + intros (c & Hc & H). right. exists c. by rewrite visitedChain_false.
  - intros syms Hsyms. by apply fromBottomUp_skip_hasPath.
  - intros skipFirstLevel. by apply fromBottomUp_selfCostTotal.
  - intros s. rewrite Hcc, fold_callerCalleeWalk_is_Some. simpl.
    rewrite lookup_empty. split; [intros [[? ?] | ?]; done | by right].
  - intros s. rewrite Hcc.
    rewrite (fold_callerCalleeWalk_inclusive (numTypes costs));
      [| done | apply ccInv_init | apply okCost_zero].
    apply itemAdd_zero_l, okCost_costSum, Forall_fmap, Forall_forall.
    intros c [_ Hc]%list_elem_of_filter.
    rewrite Forall_forall in Hok. by apply Hok.
  - intros x y. rewrite Hcc, fold_callerCalleeWalk_edge.
    split; [intros [[? ?] | ?]; done | by right].
Qed.

Lemma leaf_processed_iff_component_sum_nonzero_witness :
  wfCosts (bu_costs chainInput)
  ∧ (∀ s, is_Some (entries (callerCalleesFromBottomUpData chainInput
                                                          emptyResults) !! s)
          ↔ ∃ c, c ∈ processedOf chainInput ∧ s ∈ c.1)
  ∧ (∀ syms, syms ≠ [] →
       hasPath (td_root (fromBottomUp chainInput false)) syms
       ↔ ∃ c, c ∈ processedOf chainInput ∧ syms `prefix_of` c.1).
Proof.
  assert (Hwf : wfCosts (bu_costs chainInput)) by solve_wfCosts.
  split; [exact Hwf |].
  split; apply (leaf_processed_iff_component_sum_nonzero chainInput Hwf).
Defined.

(** ** What the prettifier makes of template instances *)

(** A one-parameter container after "std::" and at most one internal
    namespace keeps its first template argument, prettified, and drops the
    others; the text after the instance is prettified on its own. *)
Theorem one_parameter_template_is_shortened (ns name : string)
    (T A rest : QString) :
  ns ∈ internalNamespaces → name ∈ oneParameterTemplates →
  balanced T → noTopLevel (Latin1Char ",") T → balanced A →
  prettifySymbol (Latin1 "std::" ++ Latin1 ns ++ Latin1 name ++ T
                  ++ Latin1 "," ++ A ++ Latin1 ">" ++ rest)
  = t ← prettifySymbol T;
    r ← prettifySymbol rest;
    Ret (Latin1 "std::" ++ Latin1 name ++ t ++ Latin1 ">" ++ r).
Proof.
  intros. rewrite !prettifySymbol_view. by apply prettify_one_parameter.
Qed.

Lemma one_parameter_template_is_shortened_witness :
  prettifySymbol
    (Latin1 "std::__1::vector<int, std::__1::allocator<int>>::size()")
  = t ← prettifySymbol (Latin1 "int");
    r ← prettifySymbol (Latin1 "::size()");
    Ret (Latin1 "std::" ++ Latin1 "vector<" ++ t ++ Latin1 ">" ++ r).
Proof.
  apply (one_parameter_template_is_shortened "__1::" "vector<" (Latin1 "int")
           (Latin1 " std::__1::allocator<int>") (Latin1 "::size()")).
  - set_solver.
  - set_solver.
  - by apply balancedb_spec.
  - by apply noTopLevelb_spec.
  - by apply balancedb_spec.
Defined.

(** A two-parameter container keeps its first two template arguments,
    each prettified, the second together with the comma before it. *)
Theorem two_parameter_template_is_shortened (ns name : string)
    (K V A rest : QString) :
  ns ∈ internalNamespaces → name ∈ twoParametersTemplates →
  balanced K → noTopLevel (Latin1Char ",") K →
  balanced V → noTopLevel (Latin1Char ",") V → balanced A →
  prettifySymbol (Latin1 "std::" ++ Latin1 ns ++ Latin1 name ++ K
                  ++ Latin1 "," ++ V ++ Latin1 "," ++ A ++ Latin1 ">" ++ rest)
  = k ← prettifySymbol K;
    v ← prettifySymbol (Latin1 "," ++ V);
    r ← prettifySymbol rest;
    Ret (Latin1 "std::" ++ Latin1 name ++ k ++ v ++ Latin1 ">" ++ r).
Proof.
  intros. rewrite !prettifySymbol_view. by apply prettify_two_parameters.
Qed.

Lemma two_parameter_template_is_shortened_witness :
  prettifySymbol
    (Latin1 "std::map<int, long, std::less<int>, std::allocator<long>>")
  = k ← prettifySymbol (Latin1 "int");
    v ← prettifySymbol (Latin1 "," ++ Latin1 " long");
    r ← prettifySymbol [];
    Ret (Latin1 "std::" ++ Latin1 "map<" ++ k ++ v ++ Latin1 ">" ++ r).
Proof.
  apply (two_parameter_template_is_shortened "" "map<" (Latin1 "int")
           (Latin1 " long") (Latin1 " std::less<int>, std::allocator<long>")
           []).
  - set_solver.
  - set_solver.
  - by apply balancedb_spec.
  - by apply noTopLevelb_spec.
  - by apply balancedb_spec.
  - by apply noTopLevelb_spec.
  - by apply balancedb_spec.
Defined.

(** [basic_string<char, ...>] becomes [string], [basic_string<wchar_t, ...>]
    becomes [wstring], and [basic_string<T, ...>] becomes
    [basic_string<T>] with [T] as it is, when the text after the instance
    does not name the constructor or the destructor. *)
Theorem basic_string_is_shortened (ns : string) (T A rest : QString) :
  ns ∈ internalNamespaces →
  balanced T → noTopLevel (Latin1Char ",") T → balanced A →
  (∀ p, p ∈ constructorDestructor → ¬ Latin1 p `prefix_of` rest) →
  prettifySymbol (Latin1 "std::" ++ Latin1 ns ++ Latin1 "basic_string<" ++ T
                  ++ Latin1 "," ++ A ++ Latin1 ">" ++ rest)
  = r ← prettifySymbol rest;
    Ret (Latin1 "std::" ++ stringName T ++ r).
Proof.
  intros. rewrite !prettifySymbol_view.
  apply prettify_basic_string; [done .. |]. by apply startsWith_none.
Qed.

Lemma basic_string_is_shortened_witness :
  prettifySymbol
    (Latin1 "std::__cxx11::basic_string<char, std::char_traits<char>, std::allocator<char>>::size()")
  = r ← prettifySymbol (Latin1 "::size()");
    Ret (Latin1 "std::" ++ stringName (Latin1 "char") ++ r).
Proof.
  apply (basic_string_is_shortened "__cxx11::" (Latin1 "char")
           (Latin1 " std::char_traits<char>, std::allocator<char>")
           (Latin1 "::size()")).
  - set_solver.
  - by apply balancedb_spec.
  - by apply noTopLevelb_spec.
  - by apply balancedb_spec.
  - intros p Hp Hpre. apply qstartsWith_prefix in Hpre.
    unfold constructorDestructor in Hp.
    repeat (apply elem_of_cons in Hp as [-> | Hp]; [by vm_compute in Hpre |]).
    by apply elem_of_nil in Hp.
Defined.

(** The argument of [allocator] is replaced by "...". *)
Theorem allocator_argument_is_elided (ns : string) (T rest : QString) :
  ns ∈ internalNamespaces → balanced T →
  prettifySymbol (Latin1 "std::" ++ Latin1 ns ++ Latin1 "allocator<" ++ T
                  ++ Latin1 ">" ++ rest)
  = r ← prettifySymbol rest;
    Ret (Latin1 "std::" ++ Latin1 "allocator<...>" ++ r).
Proof.
  intros. rewrite !prettifySymbol_view. by apply prettify_allocator.
Qed.

Lemma allocator_argument_is_elided_witness :
  prettifySymbol (Latin1 "std::allocator<std::pair<int const, long>>::max_size()")
  = r ← prettifySymbol (Latin1 "::max_size()");
    Ret (Latin1 "std::" ++ Latin1 "allocator<...>" ++ r).
Proof.
  apply (allocator_argument_is_elided "" (Latin1 "std::pair<int const, long>")
           (Latin1 "::max_size()")).
  - set_solver.
  - by apply balancedb_spec.
Defined.

(** An instance of a one-parameter container whose closing bracket is
    missing makes the prettifier ask for the rest of the view from
    position [-1]: the search for the bracket fails, and its result is
    passed to [mid] unchecked. *)
Theorem unclosed_template_is_undefined (ns name : string) (T A : QString) :
  ns ∈ internalNamespaces → name ∈ oneParameterTemplates →
  balanced T → noTopLevel (Latin1Char ",") T →
  (∀ k, 0 <= bracketDepth (take k A)) →
  prettifySymbol (Latin1 "std::" ++ Latin1 ns ++ Latin1 name ++ T
                  ++ Latin1 "," ++ A)
  = Undefined.
Proof.
  intros Hns Hname HT Hcomma HA. rewrite prettifySymbol_view.
  set (body := T ++ Latin1 "," ++ A).
  set (symbol := Latin1 name ++ body).
  destruct (oneParameter_startsWith name body Hname) as (Hs1 & Hs2 & Hs3).
  fold symbol in Hs1, Hs2, Hs3.
  assert (Hc : findSameDepth symbol (Z.of_nat (length (Latin1 name)))
                             (Latin1Char ",") false
               = Z.of_nat (length (Latin1 name)) + Z.of_nat (length T)).
  { by apply findSameDepth_first_comma. }
  assert (Hgt : findSameDepth symbol 0 (Latin1Char ">") true = -1).
  { unfold findSameDepth. change (drop (Z.to_nat 0) symbol) with symbol.
    unfold symbol. rewrite oneParameter_scan by done.
    apply findSameDepthLoop_none. intros k _.
    subst body. rewrite take_app, bracketDepth_app.
    destruct HT as [HT _]. specialize (HT (S k)).
    change (Latin1 "," ++ A) with (Latin1Char "," :: A).
    destruct (S k - length T)%nat as [|j] eqn:Hj.
    - rewrite take_0, bracketDepth_nil. lia.
    - cbn [take]. rewrite bracketDepth_cons, depthChange_comma.
      specialize (HA j). lia. }
  unfold prettifySymbolView.
  remember (length (Latin1 "std::" ++ Latin1 ns ++ symbol)) as fuel eqn:Hfuel.
  assert (Hlen : (length T < fuel)%nat).
  { subst fuel symbol body. rewrite !length_app. simpl. lia. }
  cbn [prettifySymbolFuel].
  rewrite findStdLoop_start, bind_Ret, qmid_std, bind_Ret, qleft_std.
  cbv zeta.
  rewrite (internalNamespace_strip ns symbol Hns Hs1), bind_Ret.
  rewrite Hs2. change (-1 =? -1) with true. cbn [negb].
  rewrite Hs3, eqb_m1_nat. cbn [negb].
  rewrite Hc. replace (_ + _ =? -1) with false by (symmetry; apply Z.eqb_neq; lia).
  cbn [negb]. rewrite Hgt.
  pose proof (prettifySymbolFuel_returns fuel
                (qmidN symbol (Z.of_nat (length (Latin1 name)))
                   (Z.of_nat (length (Latin1 name)) + Z.of_nat (length T)
                    - Z.of_nat (length (Latin1 name))))) as Hret.
  destruct (prettifySymbolFuel fuel _) as [t| |]; [done | done |].
  exfalso. apply Hret; [| done].
  eapply Nat.le_lt_trans; [apply length_qmidN |].
  subst fuel. rewrite !length_app. simpl. lia.
Qed.

Lemma unclosed_template_is_undefined_witness :
  prettifySymbol (Latin1 "std::vector<int, std::allocator<int>") = Undefined.
Proof.
  apply (unclosed_template_is_undefined "" "vector<" (Latin1 "int")
           (Latin1 " std::allocator<int>")).
  - set_solver.
  - set_solver.
  - by apply balancedb_spec.
  - by apply noTopLevelb_spec.
  - intros k. destruct (decide (k ≤ 20)%nat) as [Hk | Hk].
    + do 21 (destruct k as [|k]; [by vm_compute |]). lia.
    + rewrite take_ge by (vm_compute; lia). by vm_compute.
Defined.

(** ** Further properties of the builders *)

(** In one walk of the caller-callee builder the self cost is credited to
    the symbol of the row without parent, the last one of the chain, and
    to no other. *)
Theorem self_cost_credited_at_the_end_of_the_walk
    (numTypes_ : nat) (diff : ItemCost) (chain : list Symbol)
    (results : CallerCalleeResults) (s : Symbol) :
  ccInv results →
  selfOf (callerCalleeWalk numTypes_ diff chain results) s
  = if decide (last chain = Some s) then itemAdd (selfOf results s) diff
    else selfOf results s.
Proof.
  intros Hinv. unfold callerCalleeWalk.
  by destruct (callerCalleeLoop_costs numTypes_ diff chain
                 (mkWalkState ∅ ∅ None results) Hinv) as (_ & _ & Hself).
Qed.

Lemma self_cost_credited_at_the_end_of_the_walk_witness :
  selfOf (callerCalleeWalk 1 [5] [sym "f"; sym "g"; sym "f"]
                           (startResults 1)) (sym "f")
  = if decide (last [sym "f"; sym "g"; sym "f"] = Some (sym "f"))
    then itemAdd (selfOf (startResults 1) (sym "f")) [5]
    else selfOf (startResults 1) (sym "f").
Proof.
  apply (self_cost_credited_at_the_end_of_the_walk 1 [5]
           [sym "f"; sym "g"; sym "f"] (startResults 1) (sym "f")).
  apply ccInv_init.
Defined.

Lemma fold_callerCalleeWalk_ccInv numTypes_ (cs : list Contribution) :
  ∀ results,
    ccInv results →
    ccInv (fold_left (fun r c => callerCalleeProcess numTypes_ c r) cs results).
Proof.
  induction cs as [|c cs IH]; intros results Hinv; [done |].
  cbn [fold_left]. apply IH. unfold callerCalleeProcess, callerCalleeWalk.
  by destruct (callerCalleeLoop_costs numTypes_ c.2 c.1
                 (mkWalkState ∅ ∅ None results) Hinv) as (? & _).
Qed.

(** The entries of the caller-callee table built from empty results have
    pairwise distinct ids below the number of entries, and the two cost
    matrices have no row for another id. *)
Theorem caller_callee_entries_have_distinct_ids
    (bottomUpData : BottomUpResults) :
  let results := callerCalleesFromBottomUpData bottomUpData emptyResults in
  (∀ s e, entries results !! s = Some e →
          (cce_id e < N.of_nat (size (entries results)))%N)
  ∧ (∀ s1 s2 e1 e2,
       entries results !! s1 = Some e1 → entries results !! s2 = Some e2 →
       cce_id e1 = cce_id e2 → s1 = s2)
  ∧ (∀ id, (N.of_nat (size (entries results)) ≤ id)%N →
           m_costs (cc_inclusiveCosts results) !! id = None
           ∧ m_costs (cc_selfCosts results) !! id = None).
Proof.
  intros results.
  assert (Hinv : ccInv results).
  { subst results. unfold callerCalleesFromBottomUpData.
    rewrite buildCallerCalleeResult_fold. simpl.
    apply fold_callerCalleeWalk_ccInv, ccInv_init. }
  destruct Hinv as (H1 & H2 & H3 & H4). split_and!; [done | done |].
  intros id Hid. split; [by apply H3 | by apply H4].
Qed.

Lemma fold_callerCalleeWalk_self n numTypes_ (cs : list Contribution) s :
  Forall (fun c => c.1 ≠ [] ∧ okCost n c.2) cs →
  ∀ results,
    ccInv results → okCost n (selfOf results s) →
    selfOf (fold_left (fun r c => callerCalleeProcess numTypes_ c r)
                      cs results) s
    = itemAdd (selfOf results s)
              (costSum n (snd <$> filter (fun c => last c.1 = Some s) cs)).
Proof.
  induction cs as [|c cs IH]; intros Hcs results Hinv Hok.
  - simpl. by rewrite (itemAdd_zero_r n).
  - apply Forall_cons in Hcs as [[_ Hc] Hcs].
    destruct (callerCalleeLoop_costs numTypes_ c.2 c.1
                (mkWalkState ∅ ∅ None results) Hinv) as (Hinv' & _ & Hself).
    fold (callerCalleeWalk numTypes_ c.2 c.1 results) in Hinv', Hself.
    specialize (Hself s). simpl in Hself.
    cbn [fold_left]. rewrite IH; unfold callerCalleeProcess; [| done | done |].
    + rewrite Hself. rewrite filter_cons.
      destruct (decide (last c.1 = Some s)) as [Hin | Hnin]; [| done].
      rewrite fmap_cons, costSum_cons. simpl.
      by rewrite itemAdd_assoc.
    + rewrite Hself. case_decide; [| done].
      destruct Hok, Hc. by apply okCost_itemAdd.
Qed.

(** The self cost of a symbol in the caller-callee table is the sum of the
    processed leaf contributions of the rows whose parent chain ends in
    that symbol. *)
Theorem caller_callee_self_cost_of_symbol
    (bottomUpData : BottomUpResults) (s : Symbol) :
  wfCosts (bu_costs bottomUpData) →
  selfOf (callerCalleesFromBottomUpData bottomUpData emptyResults) s
  = costSum (numTypes (bu_costs bottomUpData))
      (snd <$> filter (fun c => last c.1 = Some s) (processedOf bottomUpData)).
Proof.
  intros Hwf.
  assert (Hok : Forall (fun c => c.1 ≠ []
                                 ∧ okCost (numTypes (bu_costs bottomUpData)) c.2)
                       (processedOf bottomUpData)).
  { apply processed_ok. by apply contributions_ok. }
  unfold callerCalleesFromBottomUpData.
  rewrite buildCallerCalleeResult_fold. simpl.
  fold (processedOf bottomUpData).
  rewrite (fold_callerCalleeWalk_self (numTypes (bu_costs bottomUpData)));
    [| done | apply ccInv_init | apply okCost_zero].
  apply itemAdd_zero_l, okCost_costSum, Forall_fmap, Forall_forall.
  intros c [_ Hc]%list_elem_of_filter.
  rewrite Forall_forall in Hok. by apply Hok.
Qed.

Lemma caller_callee_self_cost_of_symbol_witness :
  selfOf (callerCalleesFromBottomUpData chainInput emptyResults) (sym "bar")
  = costSum (numTypes (bu_costs chainInput))
      (snd <$> filter (fun c => last c.1 = Some (sym "bar"))
                      (processedOf chainInput)).
Proof.
  apply (caller_callee_self_cost_of_symbol chainInput (sym "bar")).
  solve_wfCosts.
Defined.

(** ** Thread lookup *)

Lemma findThreadFrom_spec threads pid_ tid_ n :
  (n ≤ length threads)%nat →
  match findThreadFrom threads pid_ tid_ n with
  | Some i => (i < n)%nat ∧ isThread threads pid_ tid_ i
              ∧ ∀ j, (i < j < n)%nat → ¬ isThread threads pid_ tid_ j
  | None => ∀ j, (j < n)%nat → ¬ isThread threads pid_ tid_ j
  end.
Proof.
  induction n as [|i IH]; intros Hn; simpl.
  - intros j Hj. lia.
  - destruct (lookup_lt_is_Some_2 threads i ltac:(lia)) as [thread Ht].
    rewrite Ht.
    destruct ((pid thread =? pid_) && (tid thread =? tid_)) eqn:Hm.
    + apply andb_true_iff in Hm as [Hp%Z.eqb_eq Htid%Z.eqb_eq].
      split; [lia |]. split; [by exists thread |]. intros j Hj. lia.
    + assert (Hno : ¬ isThread threads pid_ tid_ i).
      { intros (thread' & Ht' & Hp & Htid). rewrite Ht in Ht'.
        injection Ht' as <-. subst.
        by rewrite !Z.eqb_refl in Hm. }
      specialize (IH ltac:(lia)).
      destruct (findThreadFrom threads pid_ tid_ i) as [k|].
      * destruct IH as (Hk & Hthread & Hlater). split; [lia |].
        split; [done |]. intros j Hj.
        destruct (decide (j = i)) as [-> | Hne]; [done |].
        apply Hlater. lia.
      * intros j Hj. destruct (decide (j = i)) as [-> | Hne]; [done |].
        apply IH. lia.
Qed.

(** [findThread] returns the last thread of the list with the given
    process and thread id, and null exactly when there is none. *)
Theorem findThread_returns_last_match
    (threads : list ThreadEvents) (pid_ tid_ : Z) :
  match findThread threads pid_ tid_ with
  | Some i => isThread threads pid_ tid_ i
              ∧ ∀ j, (i < j)%nat → ¬ isThread threads pid_ tid_ j
  | None => ∀ j, ¬ isThread threads pid_ tid_ j
  end.
Proof.
  unfold findThread.
  pose proof (findThreadFrom_spec threads pid_ tid_ (length threads)
                (Nat.le_refl _)) as H.
  assert (Hout : ∀ j, (length threads ≤ j)%nat → ¬ isThread threads pid_ tid_ j).
  { intros j Hj (thread & Ht & _). apply lookup_lt_Some in Ht. lia. }
  destruct (findThreadFrom _ _ _ _) as [i|].
  - destruct H as (Hi & Hthread & Hlater). split; [done |]. intros j Hj.
    destruct (decide (j < length threads)%nat); [apply Hlater | apply Hout]; lia.
  - intros j.
    destruct (decide (j < length threads)%nat); [apply H | apply Hout]; lia.
Qed.

(** ** Further properties of the top-down tree and the per-library table *)

(** The library entries get the ids 0, 1, ... in the order in which they
    are created, and no two of them are for the same binary. *)
Theorem per_library_entries_are_numbered (topDownData : TopDownResults) :
  wfCosts (td_selfCosts topDownData) →
  let libraries := pl_root (fromTopDown topDownData) in
  pl_id <$> libraries = N.of_nat <$> seq 0 (length libraries)
  ∧ NoDup (pl_symbol <$> libraries).
Proof.
  intros Hwf libraries. subst libraries.
  pose proof (perLibraryInv_fold (td_selfCosts topDownData)
                (tdNodes (td_root topDownData)) Hwf [] _
                (perLibraryInv_init (td_selfCosts topDownData))) as Hinv.
  simpl in Hinv. rewrite <- buildPerLibrary_fold in Hinv.
  unfold fromTopDown.
  destruct (buildPerLibrary _ _ _) as [res index].
  destruct Hinv as (_ & _ & _ & Hids & Hidx & Hform & _).
  simpl in *.
  assert (Hlen : length (pl_root res) = size index).
  { apply (f_equal length) in Hids.
    by rewrite !length_fmap, length_seq in Hids. }
  split; [by rewrite Hlen |].
  assert (Hnd : NoDup (pl_id <$> pl_root res)).
  { rewrite Hids. apply NoDup_index_ids. }
  assert (Hinj : ∀ x y, x ∈ pl_root res → y ∈ pl_root res →
                        pl_symbol x = pl_symbol y → x = y).
  { intros x y Hx Hy Hsym.
    destruct (Hform x Hx) as [bx Hbx]. destruct (Hform y Hy) as [by_ Hby].
    rewrite Hbx, Hby in Hsym. simpl in Hsym. injection Hsym as ->.
    rewrite Hbx in Hx. rewrite Hby in Hy.
    apply Hidx in Hx. apply Hidx in Hy. rewrite Hx in Hy. injection Hy as Hid.
    rewrite Hbx, Hby. by rewrite Hid. }
  clear Hids Hidx Hform Hlen. induction (pl_root res) as [|lib libs IH];
    [constructor |].
  apply NoDup_cons in Hnd as [Hlib Hnd]. simpl. apply NoDup_cons. split.
  - intros (lib' & Hsym & Hin)%list_elem_of_fmap.
    assert (lib = lib') by (apply Hinj; set_solver). subst lib'.
    apply Hlib. by apply list_elem_of_fmap_2.
  - apply IH; [done |]. intros x y Hx Hy. apply Hinj; set_solver.
Qed.

Lemma per_library_entries_are_numbered_witness :
  pl_id <$> pl_root (fromTopDown chainTopDown)
  = N.of_nat <$> seq 0 (length (pl_root (fromTopDown chainTopDown)))
  ∧ NoDup (pl_symbol <$> pl_root (fromTopDown chainTopDown)).
Proof.
  apply (per_library_entries_are_numbered chainTopDown). solve_wfCosts.
Defined.

Lemma fromBottomUp_tdInv bottomUpData skipFirstLevel :
  wfCosts (bu_costs bottomUpData) →
  NoDup (tdIds (td_root (fromBottomUp bottomUpData skipFirstLevel))).
Proof.
  intros Hwf. unfold fromBottomUp.
  pose proof (tdInv_init (bu_costs bottomUpData)) as Hinit.
  destruct skipFirstLevel; simpl.
  - destruct (fold_fromBottomUpGroup_inv _ (bu_children (bu_root bottomUpData))
                Hwf _ _ Hinit) as [Hinv _].
    destruct (fold_left _ _ _) as [root st]. simpl in *.
    by destruct Hinv as (Hnd & _).
  - rewrite buildTopDownResult_fold. simpl.
    destruct (fold_bubbleUp_inv _ [] false
                (processed (contributions (bu_costs bottomUpData) []
                                          (bu_root bottomUpData)))
                (processed_ok _ _ (contributions_ok _ _ Hwf _))
                _ _ Hinit) as (Hinv & _).
    destruct (fold_left _ _ _) as [root st]. simpl in *.
    by destruct Hinv as (Hnd & _).
Qed.

(** The nodes of the top-down tree have pairwise distinct ids, so that no
    two nodes share a row of the cost matrices. *)
Theorem top_down_nodes_have_distinct_ids
    (bottomUpData : BottomUpResults) (skipFirstLevel : bool) :
  wfCosts (bu_costs bottomUpData) →
  NoDup (td_id <$> tdNodes (td_root (fromBottomUp bottomUpData skipFirstLevel))).
Proof. apply fromBottomUp_tdInv. Qed.

Lemma top_down_nodes_have_distinct_ids_witness :
  NoDup (td_id <$> tdNodes (td_root (fromBottomUp chainInput true))).
Proof.
  apply (top_down_nodes_have_distinct_ids chainInput true). solve_wfCosts.
Defined.

Lemma itemSum_exact (v : ItemCost) :
  nonneg v → costWeight v <= int64_max → itemSum v = costWeight v.
Proof.
  induction 1 as [|x v Hx Hv IH]; intros Hmax; [done |].
  simpl in *. pose proof (costWeight_nonneg v Hv) as Hw.
  rewrite IH by lia. unfold add64. apply wrap64_id.
  unfold in_int64, int64_min, int64_max in *. lia.
Qed.

Lemma costWeight_zero_inv (v : ItemCost) :
  nonneg v → costWeight v = 0 → v = zeroCost (length v).
Proof.
  induction 1 as [|x v Hx Hv IH]; intros H0; [done |].
  simpl in *. pose proof (costWeight_nonneg v Hv) as Hw.
  assert (x = 0) as -> by lia. unfold zeroCost in *. simpl.
  f_equal. apply IH. lia.
Qed.

Lemma costWeight_le_totalWeight (cs : list Contribution) c :
  Forall (fun c => nonneg c.2) cs → c ∈ cs →
  costWeight c.2 <= totalWeight cs.
Proof.
  induction 1 as [|c' cs Hc' Hcs IH]; intros Hin.
  - by apply elem_of_nil in Hin.
  - rewrite totalWeight_cons. pose proof (costWeight_nonneg _ Hc').
    pose proof (totalWeight_nonneg _ Hcs).
    apply elem_of_cons in Hin as [-> | Hin]; [lia |].
    specialize (IH Hin). lia.
Qed.

(** For an input whose leaf contributions are non-negative in every
    category and whose total fits in [qint64], the self costs of the
    top-down tree built without [skipFirstLevel] sum to the total cost of
    the input. *)
Theorem self_costs_conserved_for_non_negative_contributions
    (bottomUpData : BottomUpResults) :
  monotoneInput 1 bottomUpData →
  selfCostTotal (fromBottomUp bottomUpData false)
  = totalCostOf (bu_costs bottomUpData) (bu_root bottomUpData).
Proof.
  intros (Hwf & Hnn & Hmax).
  rewrite fromBottomUp_selfCostTotal by done. simpl.
  rewrite costSum_processed.
  - by apply contributions_total.
  - by apply contributions_ok.
  - intros c Hc Hsum.
    pose proof (contributions_ok _ (bu_root bottomUpData) Hwf []) as Hok.
    pose proof (costWeight_le_totalWeight _ c Hnn Hc) as Hle.
    rewrite Forall_forall in Hok, Hnn.
    destruct (Hok c Hc) as [_ [Hlen _]]. specialize (Hnn c Hc).
    rewrite <- Hlen. apply costWeight_zero_inv; [done |].
    rewrite <- itemSum_exact; [done | done | lia].
Qed.

Lemma self_costs_conserved_for_non_negative_contributions_witness :
  selfCostTotal (fromBottomUp chainInput false)
  = totalCostOf (bu_costs chainInput) (bu_root chainInput).
Proof.
  apply (self_costs_conserved_for_non_negative_contributions chainInput).
  apply monotoneInput_check.
  - solve_wfCosts.
  - vm_compute. reflexivity.
  - vm_compute. reflexivity.
Defined.
